(** * matrix-screen: the cell grid, the stream workers and the scheduler

    A shallow embedding of [matrix_screensaver.py].  The two classes of the
    program, [MatrixDisplay] and [MatrixWorker], become records; their
    methods become functions that pass the mutated objects on explicitly.
    Python exceptions are results of type [result]; the curses window, the
    wall clock, the random module and the keyboard are the host of the
    program and are modelled as a recording surface and three oracles. *)

From Stdlib Require Import ZArith NArith QArith Lia.
From stdpp Require Import base gmap sets list.
Close Scope Q_scope.
#[local] Set Warnings "-clear-no-such-hyp".

(** ** Python values *)

(** A character is its code point, so that [ord] is the identity; a [str]
    is the list of its characters. *)
Definition char : Type := N.
Definition str : Type := list char.
Definition ord (c : char) : Z := Z.of_N c.

(** A cell is the tuple [(y, x)] the program uses as dictionary key:
    row first, column second. *)
Definition cell : Type := (Z * Z)%type.

(** The exceptions the program can raise.  None of them is caught anywhere
    in the source: a raise ends the program, so no state is kept with it. *)
Inductive exn : Type :=
| IndexError
| ValueError
| ZeroDivisionError
| KeyError
| TypeError.

(** [OutOfFuel] is not a Python outcome: it marks a [while] loop of the
    program that was cut by the iteration budget of its model. *)
Inductive result (A : Type) : Type :=
| Ok (a : A)
| Raise (e : exn)
| OutOfFuel.
Arguments Ok {A} a.
Arguments Raise {A} e.
Arguments OutOfFuel {A}.

Global Instance result_bind : MBind result := λ A B k r,
  match r with
  | Ok a => k a
  | Raise e => Raise e
  | OutOfFuel => OutOfFuel
  end.

(** ** The host: clock, random module, keyboard *)

(** [time.time()], the [random] module and [screen.getch()] are read
    through oracles: the n-th call returns the n-th reading.  Times are
    rationals; the program only adds and compares them. *)
Record Host : Type := mkHost {
  clock : nat → Q;
  clock_reads : nat;
  dice : nat → N;
  dice_rolls : nat;
  keyboard : nat → bool;
  key_polls : nat
}.

Definition time_time (h : Host) : Q * Host :=
  (clock h (clock_reads h),
   mkHost (clock h) (S (clock_reads h)) (dice h) (dice_rolls h)
          (keyboard h) (key_polls h)).

Definition roll (h : Host) : N * Host :=
  (dice h (dice_rolls h),
   mkHost (clock h) (clock_reads h) (dice h) (S (dice_rolls h))
          (keyboard h) (key_polls h)).

(** [screen.getch() != -1] *)
Definition key_pressed (h : Host) : bool * Host :=
  (keyboard h (key_polls h),
   mkHost (clock h) (clock_reads h) (dice h) (dice_rolls h)
          (keyboard h) (S (key_polls h))).

(** [random.randint(a, b)]: an integer of [a..b], [ValueError] on an empty
    range. *)
Definition randint (a b : Z) (h : Host) : result (Z * Host) :=
  if (b <? a)%Z then Raise ValueError
  else let '(r, h') := roll h in
       Ok ((a + Z.of_N r mod (b - a + 1))%Z, h').

(** [random.choice(seq)]: [IndexError] on an empty sequence. *)
Definition random_choice {A : Type} (seq : list A) (h : Host)
  : result (A * Host) :=
  match seq with
  | [] => Raise IndexError
  | a :: _ =>
      let '(r, h') := roll h in
      Ok (nth (N.to_nat r mod length seq) seq a, h')
  end.

(** [random.random()]: a multiple of 2^-53 in [0, 1). *)
Definition random_random (h : Host) : Q * Host :=
  let '(r, h') := roll h in
  ((Z.of_N (r mod 2 ^ 53) # 2 ^ 53)%Q, h').

(** ** The curses window *)

Inductive attr : Type := init_color | norm_color | poof_color | no_attr.

Inductive call : Type :=
| addstr (y x : Z) (value : char) (a : attr)
| screen_refresh.

(** The window is outside the repository.  Its size is what [getmaxyx]
    returns, [(height, width)]; the calls made on it are recorded in the
    order they are made. *)
Record Screen : Type := mkScreen {
  getmaxyx : Z * Z;
  calls : list call
}.

Definition draw (c : call) (s : Screen) : Screen :=
  mkScreen (getmaxyx s) (calls s ++ [c]).

(** ** class MatrixWorker *)

Inductive State : Type := Init | Write | Erase | Exit.

Global Instance State_eq_dec : EqDecision State.
Proof. solve_decision. Defined.

(** [text], [x] and [y] are [None] until the first [init] block assigns
    them. *)
Record MatrixWorker : Type := mkWorker {
  w_id : nat;
  w_text : option (list char);
  w_x : option Z;
  w_y : option Z;
  w_dx : Z;
  w_dy : Z;
  w_cells : list cell;
  w_state : State
}.

(** [MatrixWorker.__init__] *)
Definition MatrixWorker_init (worker_id : nat) (direction_vector : Z * Z)
  : MatrixWorker :=
  mkWorker worker_id None None None
           (fst direction_vector) (snd direction_vector) [] Init.

(** ** class MatrixDisplay *)

(** The class attributes. *)
Record Config : Type := mkConfig {
  FPS_MAX : Z;
  WORKERS : nat;
  DIRECTION : Z * Z;
  MIN_CHAR_PER_SECOND : Z;
  MAX_CHAR_PER_SECOND : Z;
  MAX_LEN : Z;
  WARM_UP_DURATION : Q
}.

(** The values the source gives them. *)
Definition source_config : Config :=
  mkConfig 60 45 (0, 1)%Z 40 50 30 (2 # 1)%Q.

Record MatrixDisplay : Type := mkDisplay {
  conf : Config;
  screen : Screen;
  lines : list str;
  workers : list MatrixWorker;
  refresh_interval : Q;
  worker_intervals : list Q;
  cells : gmap cell (nat * char);
  recent_additions : gset cell;
  recent_removals : gset cell;
  next_refresh : Q;
  next_worker_wake_time : list Q
}.

Definition set_screen (f : Screen → Screen) (d : MatrixDisplay) : MatrixDisplay :=
  mkDisplay (conf d) (f (screen d)) (lines d) (workers d) (refresh_interval d)
            (worker_intervals d) (cells d) (recent_additions d)
            (recent_removals d) (next_refresh d) (next_worker_wake_time d).

Definition set_cells (f : gmap cell (nat * char) → gmap cell (nat * char))
  (d : MatrixDisplay) : MatrixDisplay :=
  mkDisplay (conf d) (screen d) (lines d) (workers d) (refresh_interval d)
            (worker_intervals d) (f (cells d)) (recent_additions d)
            (recent_removals d) (next_refresh d) (next_worker_wake_time d).

Definition set_recent_additions (f : gset cell → gset cell)
  (d : MatrixDisplay) : MatrixDisplay :=
  mkDisplay (conf d) (screen d) (lines d) (workers d) (refresh_interval d)
            (worker_intervals d) (cells d) (f (recent_additions d))
            (recent_removals d) (next_refresh d) (next_worker_wake_time d).

Definition set_recent_removals (f : gset cell → gset cell)
  (d : MatrixDisplay) : MatrixDisplay :=
  mkDisplay (conf d) (screen d) (lines d) (workers d) (refresh_interval d)
            (worker_intervals d) (cells d) (recent_additions d)
            (f (recent_removals d)) (next_refresh d) (next_worker_wake_time d).

Definition set_workers (f : list MatrixWorker → list MatrixWorker)
  (d : MatrixDisplay) : MatrixDisplay :=
  mkDisplay (conf d) (screen d) (lines d) (f (workers d)) (refresh_interval d)
            (worker_intervals d) (cells d) (recent_additions d)
            (recent_removals d) (next_refresh d) (next_worker_wake_time d).

Definition set_next_refresh (t : Q) (d : MatrixDisplay) : MatrixDisplay :=
  mkDisplay (conf d) (screen d) (lines d) (workers d) (refresh_interval d)
            (worker_intervals d) (cells d) (recent_additions d)
            (recent_removals d) t (next_worker_wake_time d).

Definition set_next_worker_wake_time (f : list Q → list Q)
  (d : MatrixDisplay) : MatrixDisplay :=
  mkDisplay (conf d) (screen d) (lines d) (workers d) (refresh_interval d)
            (worker_intervals d) (cells d) (recent_additions d)
            (recent_removals d) (next_refresh d) (f (next_worker_wake_time d)).

(** *** MatrixDisplay.write *)
Definition write (value : char) (c : cell) (worker_id : nat)
  (d : MatrixDisplay) : MatrixDisplay :=
  let d := set_cells <[c := (worker_id, value)]> d in
  let d := set_screen (draw (addstr (fst c) (snd c) value init_color)) d in
  let d := set_recent_additions (λ s, s ∪ {[c]}) d in
  if decide (c ∈ recent_removals d)
  then set_recent_removals (λ s, s ∖ {[c]}) d
  else d.

(** *** MatrixDisplay.erase *)
Definition erase (c : cell) (worker_id : nat) (d : MatrixDisplay)
  : MatrixDisplay :=
  match cells d !! c with
  | Some (owner_id, value) =>
      if decide (worker_id = owner_id) then
        let d := set_cells (delete c) d in
        let d := set_screen (draw (addstr (fst c) (snd c) value poof_color)) d in
        let d := set_recent_removals (λ s, s ∪ {[c]}) d in
        if decide (c ∈ recent_additions d)
        then set_recent_additions (λ s, s ∖ {[c]}) d
        else d
      else d
  | None => d
  end.

(** *** MatrixDisplay.refresh *)

(** First loop: a blank over every pending removal that is still vacant.
    A Python set is iterated in an order the language leaves open; the
    model takes the order of [elements]. *)
Definition blank_removed (d : MatrixDisplay) : MatrixDisplay :=
  foldl (λ d c, if decide (c ∈ dom (cells d))
                then d
                else set_screen (draw (addstr (fst c) (snd c) 32%N no_attr)) d)
        d (elements (recent_removals d)).

(** Second loop: [self.cells[cell]] raises [KeyError] on a vacant cell. *)
Fixpoint settle_added (cs : list cell) (d : MatrixDisplay)
  : result MatrixDisplay :=
  match cs with
  | [] => Ok d
  | c :: cs =>
      match cells d !! c with
      | Some (_, value) =>
          settle_added cs
            (set_screen (draw (addstr (fst c) (snd c) value norm_color)) d)
      | None => Raise KeyError
      end
  end.

Definition refresh (d : MatrixDisplay) : result MatrixDisplay :=
  let d := set_screen (draw screen_refresh) d in
  let d := blank_removed d in
  let d := set_recent_removals (λ _, ∅) d in
  d ← settle_added (elements (recent_additions d)) d;
  Ok (set_recent_additions (λ _, ∅) d).

(** ** MatrixWorker: the methods *)

Definition set_w_text (t : list char) (w : MatrixWorker) : MatrixWorker :=
  mkWorker (w_id w) (Some t) (w_x w) (w_y w) (w_dx w) (w_dy w)
           (w_cells w) (w_state w).

Definition set_w_pos (y x : Z) (w : MatrixWorker) : MatrixWorker :=
  mkWorker (w_id w) (w_text w) (Some x) (Some y) (w_dx w) (w_dy w)
           (w_cells w) (w_state w).

Definition set_w_cells (cs : list cell) (w : MatrixWorker) : MatrixWorker :=
  mkWorker (w_id w) (w_text w) (w_x w) (w_y w) (w_dx w) (w_dy w)
           cs (w_state w).

Definition set_w_state (s : State) (w : MatrixWorker) : MatrixWorker :=
  mkWorker (w_id w) (w_text w) (w_x w) (w_y w) (w_dx w) (w_dy w)
           (w_cells w) s.

(** Python's [a % b] on integers: the sign of the divisor, as [Z.modulo];
    [ZeroDivisionError] for [b = 0]. *)
Definition py_mod (a b : Z) : result Z :=
  if decide (b = 0%Z) then Raise ZeroDivisionError else Ok (a mod b)%Z.

(** The chained comparison [0 <= v <= v_max]. *)
Definition within (v v_max : Z) : bool := (0 <=? v)%Z && (v <=? v_max)%Z.

(** *** MatrixWorker.increment_position *)
Definition increment_position (window_x_max window_y_max : Z)
  (w : MatrixWorker) (h : Host) : result (MatrixWorker * Host) :=
  match w_x w, w_y w with
  | Some x, Some y =>
      let x := (x + w_dx w)%Z in
      let y := (y + w_dy w)%Z in
      if negb (within y window_y_max) then
        y ← py_mod y (window_y_max + 1);
        '(x, h) ← randint 0 window_x_max h;
        Ok (set_w_pos y x w, h)
      else if negb (within x window_x_max) then
        x ← py_mod x (window_x_max + 1);
        '(y, h) ← randint 0 window_y_max h;
        Ok (set_w_pos y x w, h)
      else Ok (set_w_pos y x w, h)
  | _, _ => Raise TypeError
  end.

(** The filter of the [init] block: [32 < ord(char) < 127]. *)
Definition keeps (c : char) : bool := (32 <? ord c)%Z && (ord c <? 127)%Z.

(** [if self.cells: display.erase(self.cells.pop(0), self.id)] *)
Definition erase_oldest (w : MatrixWorker) (d : MatrixDisplay)
  : MatrixWorker * MatrixDisplay :=
  match w_cells w with
  | c :: cs => (set_w_cells cs w, erase c (w_id w) d)
  | [] => (w, d)
  end.

(** [if self.cells: display.erase(self.cells.pop(), self.id)] *)
Definition erase_newest (w : MatrixWorker) (d : MatrixDisplay)
  : MatrixWorker * MatrixDisplay :=
  match last (w_cells w) with
  | Some c => (set_w_cells (removelast (w_cells w)) w, erase c (w_id w) d)
  | None => (w, d)
  end.

(** *** MatrixWorker.step, block by block

    The four [if self.state == ...] blocks run one after the other in the
    same call, each on the state the previous one left. *)

Definition init_block (w : MatrixWorker) (d : MatrixDisplay) (h : Host)
  : result (MatrixWorker * MatrixDisplay * Host) :=
  if decide (w_state w = Init) then
    let '(height, width) := getmaxyx (screen d) in
    '(line, h) ← random_choice (lines d) h;
    '(y, h) ← randint 0 (height - 2) h;
    '(x, h) ← randint 0 (width - 1) h;
    Ok (mkWorker (w_id w) (Some (List.filter keeps line)) (Some x) (Some y)
                 (w_dx w) (w_dy w) [] Write, d, h)
  else Ok (w, d, h).

Definition write_block (w : MatrixWorker) (d : MatrixDisplay) (h : Host)
  : result (MatrixWorker * MatrixDisplay * Host) :=
  if decide (w_state w = Write) then
    match w_text w with
    | Some (value :: rest) =>
        let '(height, width) := getmaxyx (screen d) in
        match w_y w, w_x w with
        | Some y, Some x =>
            let d := write value (y, x) (w_id w) d in
            let w := set_w_cells (w_cells w ++ [(y, x)]) (set_w_text rest w) in
            '(w, h) ← increment_position (width - 1) (height - 2) w h;
            if (MAX_LEN (conf d) <? Z.of_nat (length (w_cells w)))%Z then
              match w_cells w with
              | c :: cs => Ok (set_w_cells cs w, erase c (w_id w) d, h)
              | [] => Raise IndexError
              end
            else Ok (w, d, h)
        | _, _ => Raise TypeError
        end
    | _ => Ok (set_w_state Erase w, d, h)
    end
  else Ok (w, d, h).

Definition erase_block (w : MatrixWorker) (d : MatrixDisplay) (h : Host)
  : result (MatrixWorker * MatrixDisplay * Host) :=
  if decide (w_state w = Erase) then
    let '(w, d) := erase_oldest w d in
    match w_cells w with
    | [] => Ok (set_w_state Init w, d, h)
    | _ => Ok (w, d, h)
    end
  else Ok (w, d, h).

Definition exit_block (w : MatrixWorker) (d : MatrixDisplay) (h : Host)
  : result (MatrixWorker * MatrixDisplay * Host) :=
  if decide (w_state w = Exit) then
    let '(w, d) := erase_oldest w d in
    let '(w, d) := erase_oldest w d in
    let '(w, d) := erase_newest w d in
    Ok (w, d, h)
  else Ok (w, d, h).

Definition worker_step (w : MatrixWorker) (d : MatrixDisplay) (h : Host)
  : result (MatrixWorker * MatrixDisplay * Host) :=
  '(w, d, h) ← init_block w d h;
  '(w, d, h) ← write_block w d h;
  '(w, d, h) ← erase_block w d h;
  exit_block w d h.

(** ** MatrixDisplay: construction and scheduling *)

(** [1.0 / n] *)
Definition one_over (n : Z) : result Q :=
  if decide (n = 0%Z) then Raise ZeroDivisionError else Ok (1 / inject_Z n)%Q.

(** [a > b] and [a < b] on times. *)
Definition Qgtb (a b : Q) : bool := negb (Qle_bool a b).
Definition Qltb (a b : Q) : bool := negb (Qle_bool b a).

(** The list [worker_intervals]: one [randint] per worker, then [1.0 / _]. *)
Fixpoint draw_intervals (n : nat) (lo hi : Z) (h : Host)
  : result (list Q * Host) :=
  match n with
  | O => Ok ([], h)
  | S n =>
      '(chars_per_second, h) ← randint lo hi h;
      dt ← one_over chars_per_second;
      '(dts, h) ← draw_intervals n lo hi h;
      Ok (dt :: dts, h)
  end.

(** The list [next_worker_wake_time]: per worker, its interval plus the
    time, plus the warm-up share. *)
Fixpoint first_wake_times (intervals : list Q) (warm_up : Q) (h : Host)
  : list Q * Host :=
  match intervals with
  | [] => ([], h)
  | interval :: rest =>
      let '(now, h) := time_time h in
      let '(r, h) := random_random h in
      let '(ts, h) := first_wake_times rest warm_up h in
      ((interval + now + warm_up * r)%Q :: ts, h)
  end.

(** *** MatrixDisplay.__init__

    [size] is the size of the window that [curses.initscr()] returns; the
    record of its calls starts empty. *)
Definition MatrixDisplay_init (cfg : Config) (size : Z * Z) (h : Host)
  : result (MatrixDisplay * Host) :=
  let scr := mkScreen size [] in
  let ws := map (λ worker_id, MatrixWorker_init worker_id (DIRECTION cfg))
                (seq 0 (WORKERS cfg)) in
  interval ← one_over (FPS_MAX cfg);
  '(dts, h) ← draw_intervals (WORKERS cfg) (MIN_CHAR_PER_SECOND cfg)
                             (MAX_CHAR_PER_SECOND cfg) h;
  let '(now, h) := time_time h in
  let '(wakes, h) := first_wake_times dts (WARM_UP_DURATION cfg) h in
  Ok (mkDisplay cfg scr [] ws interval dts ∅ ∅ ∅ (now + interval)%Q wakes, h).

(** One round of the [for worker_id in range(self.WORKERS)] loop. *)
Definition wake (worker_id : nat) (d : MatrixDisplay) (h : Host)
  : result (MatrixDisplay * Host) :=
  let '(now, h) := time_time h in
  match next_worker_wake_time d !! worker_id with
  | None => Raise IndexError
  | Some due =>
      if Qgtb now due then
        match worker_intervals d !! worker_id with
        | None => Raise IndexError
        | Some dt =>
            let d := set_next_worker_wake_time <[worker_id := (due + dt)%Q]> d in
            match workers d !! worker_id with
            | None => Raise IndexError
            | Some w =>
                '(w, d, h) ← worker_step w d h;
                Ok (set_workers <[worker_id := w]> d, h)
            end
        end
      else Ok (d, h)
  end.

Fixpoint wake_each (ids : list nat) (d : MatrixDisplay) (h : Host)
  : result (MatrixDisplay * Host) :=
  match ids with
  | [] => Ok (d, h)
  | worker_id :: ids =>
      '(d, h) ← wake worker_id d h;
      wake_each ids d h
  end.

(** *** MatrixDisplay.step *)
Definition display_step (d : MatrixDisplay) (h : Host)
  : result (MatrixDisplay * Host) :=
  let '(now, h) := time_time h in
  d ← (if Qgtb now (next_refresh d)
       then refresh (set_next_refresh (next_refresh d + refresh_interval d)%Q d)
       else Ok d);
  wake_each (seq 0 (WORKERS (conf d))) d h.

(** [for worker in self.workers: worker.state = 'exit'] *)
Definition broadcast_exit (d : MatrixDisplay) : MatrixDisplay :=
  set_workers (map (set_w_state Exit)) d.

(** The truth value of [self.cells or self.recent_removals]. *)
Definition busy (d : MatrixDisplay) : bool :=
  negb (bool_decide (cells d = ∅) && bool_decide (recent_removals d = ∅)).

(** [while self.cells or self.recent_removals: self.step()] *)
Fixpoint drain (fuel : nat) (d : MatrixDisplay) (h : Host)
  : result (MatrixDisplay * Host) :=
  if busy d then
    match fuel with
    | O => OutOfFuel
    | S fuel =>
        '(d, h) ← display_step d h;
        drain fuel d h
    end
  else Ok (d, h).

(** The body of [if self.screen.getch() != -1:]. *)
Definition shutdown (fuel : nat) (d : MatrixDisplay) (h : Host)
  : result (MatrixDisplay * Host) :=
  '(d, h) ← drain fuel (broadcast_exit d) h;
  d ← refresh d;
  Ok (d, h).

(** The [while time.time() < time_limit] loop of [run]. *)
Fixpoint run_loop (fuel : nat) (time_limit : Q) (d : MatrixDisplay) (h : Host)
  : result (MatrixDisplay * Host) :=
  let '(now, h) := time_time h in
  if Qltb now time_limit then
    match fuel with
    | O => OutOfFuel
    | S fuel =>
        '(d, h) ← display_step d h;
        let '(key, h) := key_pressed h in
        if key then shutdown fuel d h
        else run_loop fuel time_limit d h
    end
  else Ok (d, h).

(** *** MatrixDisplay.run *)
Definition run (fuel : nat) (time_seconds : Q) (d : MatrixDisplay) (h : Host)
  : result (MatrixDisplay * Host) :=
  let '(now, h) := time_time h in
  run_loop fuel (now + time_seconds)%Q d h.

(** [add_file] read through its result: the stripped, non-empty lines of
    the file are appended to [self.lines]. *)
Definition add_lines (new_lines : list str) (d : MatrixDisplay) : MatrixDisplay :=
  mkDisplay (conf d) (screen d) (lines d ++ new_lines) (workers d)
            (refresh_interval d) (worker_intervals d) (cells d)
            (recent_additions d) (recent_removals d) (next_refresh d)
            (next_worker_wake_time d).

(** [str.lstrip()], [str.rstrip()] and [str.strip()] without argument.
    Which characters count as whitespace is Python's table, [str.isspace];
    it is taken as a parameter. *)
Fixpoint lstrip (isspace : char → bool) (s : str) : str :=
  match s with
  | c :: s' => if isspace c then lstrip isspace s' else s
  | [] => []
  end.

Definition rstrip (isspace : char → bool) (s : str) : str :=
  reverse (lstrip isspace (reverse s)).

Definition strip (isspace : char → bool) (s : str) : str :=
  rstrip isspace (lstrip isspace s).

(** *** MatrixDisplay.add_file

    [file_lines] are the lines that iterating over [open(filename)]
    yields; the file is taken to open. *)
Definition add_file (isspace : char → bool) (filename : str)
  (file_lines : list str) (d : MatrixDisplay) : MatrixDisplay :=
  match filename with
  | [] => d
  | _ :: _ =>
      add_lines (List.filter (λ line, negb (length line =? 0)%nat)
                             (map (strip isspace) file_lines)) d
  end.

(** ** The bootstrap *)

(** The part of [s] before the first [sep]. *)
Fixpoint take_until (sep : char) (s : str) : str :=
  match s with
  | [] => []
  | c :: s' => if (c =? sep)%N then [] else c :: take_until sep s'
  end.

(** [s.rsplit(sep, 1)[-1]]: the part of [s] after its last [sep], and the
    whole of [s] when it holds none. *)
Definition after_last (sep : char) (s : str) : str :=
  reverse (take_until sep (reverse s)).

(** ['py'], ['txt'], ['cmd'], ['md'] *)
Definition extensions : list str :=
  [[112%N; 121%N]; [116%N; 120%N; 116%N]; [99%N; 109%N; 100%N];
   [109%N; 100%N]].

(** The test of the bootstrap on a file name:
    ['.' in text_file and text_file.rsplit('.', 1)[-1] in [...]] *)
Definition eligible (text_file : str) : bool :=
  bool_decide (46%N ∈ text_file)
  && bool_decide (after_last 46%N text_file ∈ extensions).

(** ** States the program can be in *)

(** The grid states: what [__init__] builds, and whatever [write], [erase]
    and a returning [refresh] make of a grid state. *)
Inductive grid_reachable : MatrixDisplay → Prop :=
| grid_fresh cfg size h d h' :
    MatrixDisplay_init cfg size h = Ok (d, h') → grid_reachable d
| grid_write value c worker_id d :
    grid_reachable d → grid_reachable (write value c worker_id d)
| grid_erase c worker_id d :
    grid_reachable d → grid_reachable (erase c worker_id d)
| grid_refresh d d' :
    grid_reachable d → refresh d = Ok d' → grid_reachable d'.

(** A small configuration for worked examples: two workers, streams of at
    most three cells, a window of 5 rows and 10 columns, a clock that
    stands at 100 seconds, dice that always show 0. *)
Definition demo_config : Config :=
  mkConfig 60 2 (0, 1)%Z 40 50 3 (2 # 1)%Q.
Definition demo_size : Z * Z := (5, 10)%Z.
Definition demo_host : Host :=
  mkHost (λ _, 100%Q) 0 (λ _, 0%N) 0 (λ _, false) 0.
Definition demo_display : MatrixDisplay :=
  match MatrixDisplay_init demo_config demo_size demo_host with
  | Ok (d, _) => d
  | _ => mkDisplay demo_config (mkScreen demo_size []) [] [] 0%Q [] ∅ ∅ ∅ 0%Q []
  end.

(** The part of a window of size [(height, width)] that the workers use:
    every row but the last, every column. *)
Definition inside (size : Z * Z) (c : cell) : Prop :=
  (0 ≤ c.1 ≤ size.1 - 2)%Z ∧ (0 ≤ c.2 ≤ size.2 - 1)%Z.

(** What holds of a worker between two of its steps. *)
Record worker_ok (size : Z * Z) (w : MatrixWorker) : Prop := {
  ok_write :
    w_state w = Write →
    ∃ y x t, w_y w = Some y ∧ w_x w = Some x ∧ w_text w = Some t
             ∧ inside size (y, x);
  ok_init : w_state w = Init → w_cells w = [];
  ok_cells : ∀ c, c ∈ w_cells w → inside size c
}.

(** What holds of the workers [ws] and the display [d] between two steps.
    The workers are named apart from [workers d] because a step works on
    one worker while the list still holds its old value. *)
Record inv (ws : list MatrixWorker) (d : MatrixDisplay) : Prop := {
  inv_ids : ∀ i w, ws !! i = Some w → w_id w = i;
  inv_workers : ∀ w, w ∈ ws → worker_ok (getmaxyx (screen d)) w;
  inv_owned :
    ∀ c owner value, cells d !! c = Some (owner, value) →
                     ∃ w, ws !! owner = Some w ∧ c ∈ w_cells w;
  inv_removals :
    ∀ c, c ∈ recent_removals d → inside (getmaxyx (screen d)) c;
  inv_additions : recent_additions d ⊆ dom (cells d);
  inv_calls :
    ∀ y x value a, addstr y x value a ∈ calls (screen d) →
                   inside (getmaxyx (screen d)) (y, x);
  inv_lengths :
    length ws = WORKERS (conf d)
    ∧ length (worker_intervals d) = WORKERS (conf d)
    ∧ length (next_worker_wake_time d) = WORKERS (conf d)
}.

(** The moves of the program on a display: a step of one worker, a
    refresh, the exit broadcast, and the advance of a due time. *)
Inductive sys_step : MatrixDisplay → MatrixDisplay → Prop :=
| sys_worker d worker_id w h w' d' h' :
    workers d !! worker_id = Some w →
    worker_step w d h = Ok (w', d', h') →
    sys_step d (set_workers <[worker_id := w']> d')
| sys_refresh d d' :
    refresh d = Ok d' → sys_step d d'
| sys_exit d :
    sys_step d (broadcast_exit d)
| sys_refresh_due d :
    sys_step d (set_next_refresh (next_refresh d + refresh_interval d)%Q d)
| sys_wake_due d worker_id due dt :
    next_worker_wake_time d !! worker_id = Some due →
    worker_intervals d !! worker_id = Some dt →
    sys_step d (set_next_worker_wake_time <[worker_id := (due + dt)%Q]> d).

(** The displays of a run: what [__init__] builds, with the lines that
    [add_file] appends, and then any number of moves. *)
Inductive reachable : MatrixDisplay → Prop :=
| reach_fresh cfg size h d h' :
    MatrixDisplay_init cfg size h = Ok (d, h') → reachable d
| reach_add_file new_lines d :
    reachable d → reachable (add_lines new_lines d)
| reach_step d d' :
    reachable d → sys_step d d' → reachable d'.

(** ** Notions used in the statements and the proofs *)

(** [with_screen s d]: the display [d] with the window [s] in place of its
    own. *)
Definition with_screen (s : Screen) (d : MatrixDisplay) : MatrixDisplay :=
  set_screen (λ _, s) d.

(** The pending sets are disjoint, and every pending addition is an
    occupied cell (so that [refresh] finds its glyph). *)
Definition pending_ok (d : MatrixDisplay) : Prop :=
  recent_additions d ## recent_removals d
  ∧ recent_additions d ⊆ dom (cells d).

(** The fields of the display that no step of a worker touches. *)
Definition same_frame (d d' : MatrixDisplay) : Prop :=
  conf d' = conf d
  ∧ lines d' = lines d
  ∧ workers d' = workers d
  ∧ getmaxyx (screen d') = getmaxyx (screen d)
  ∧ worker_intervals d' = worker_intervals d
  ∧ next_worker_wake_time d' = next_worker_wake_time d
  ∧ refresh_interval d' = refresh_interval d
  ∧ next_refresh d' = next_refresh d.

(** The invariant of a display with the workers it holds. *)
Definition sys_inv (d : MatrixDisplay) : Prop := inv (workers d) d.

(** No worker lists more than [MAX_LEN] cells. *)
Definition short (d : MatrixDisplay) : Prop :=
  ∀ w, w ∈ workers d →
       (Z.of_nat (length (w_cells w)) ≤ MAX_LEN (conf d))%Z.

(** The worker of the scenario: about to write, at row 0 and column 3,
    with the queue "AB" and the direction (0, 1). *)
Definition scenario_worker : MatrixWorker :=
  mkWorker 0 (Some [65%N; 66%N]) (Some 3%Z) (Some 0%Z) 0 1 [] Write.

(** The printable characters of ASCII in the words of the specification:
    the space, 32, up to the tilde, 126. *)
Definition printable_ascii (c : char) : bool :=
  (32 <=? ord c)%Z && (ord c <=? 126)%Z.

(** The corpus of one line, "A B". *)
Definition spaced_display : MatrixDisplay :=
  add_lines [[65%N; 32%N; 66%N]] demo_display.

(** A clock that stands at 100 seconds for its first nine readings and at
    200 seconds from then on. *)
Definition stepping_host : Host :=
  mkHost (λ n, if (n <? 9)%nat then 100%Q else 200%Q) 0
         (λ _, 0%N) 0 (λ _, false) 0.

(** A clock far beyond every due time of the examples. *)
Definition late_host : Host :=
  mkHost (λ _, 200%Q) 0 (λ _, 0%N) 0 (λ _, false) 0.

(** The display of the corpus "A B" after one round of the scheduler in
    which the refresh and both workers were due. *)
Definition demo_running : MatrixDisplay :=
  match display_step spaced_display late_host with
  | Ok (d, _) => d
  | _ => spaced_display
  end.

(** A cell of worker 1. *)
Definition taken_display : MatrixDisplay := write 65%N (0, 0)%Z 1 demo_display.

(** What the [exit] block leaves of a list of cells: two off the old end,
    one off the new end. *)
Definition shed (cs : list cell) : list cell := removelast (tail (tail cs)).

(** The display after the erasures of one [exit] block. *)
Definition exit_grid (w : MatrixWorker) (d : MatrixDisplay) : MatrixDisplay :=
  let '(w1, d1) := erase_oldest w d in
  let '(w2, d2) := erase_oldest w1 d1 in
  (erase_newest w2 d2).2.

(** Every worker is in [Exit]. *)
Definition all_exit (d : MatrixDisplay) : Prop :=
  ∀ w, w ∈ workers d → w_state w = Exit.

(** The readings of the clock end up beyond every time. *)
Definition advancing (clk : nat → Q) : Prop :=
  ∀ T : Q, ∃ m : nat, ∀ r, (m ≤ r)%nat → Qgtb (clk r) T = true.

(** The number of cells that the workers still list. *)
Definition backlog (d : MatrixDisplay) : nat :=
  sum_list_with (λ w, length (w_cells w)) (workers d).

(** The host after [n] more readings of the clock, and nothing else. *)
Definition waited (n : nat) (h : Host) : Host :=
  mkHost (clock h) (n + clock_reads h) (dice h) (dice_rolls h)
         (keyboard h) (key_polls h).

(** At the reading [r] of the clock nothing is due: neither the refresh
    nor a worker. *)
Definition nothing_due (h : Host) (d : MatrixDisplay) (r : nat) : Prop :=
  Qgtb (clock h r) (next_refresh d) = false
  ∧ ∀ i due, next_worker_wake_time d !! i = Some due →
             Qgtb (clock h r) due = false.

(** What the rounds of workers in [Exit] keep of a display. *)
Definition winds_down (d d' : MatrixDisplay) : Prop :=
  conf d' = conf d
  ∧ worker_intervals d' = worker_intervals d
  ∧ next_refresh d' = next_refresh d
  ∧ refresh_interval d' = refresh_interval d
  ∧ length (workers d') = length (workers d)
  ∧ length (next_worker_wake_time d') = length (next_worker_wake_time d)
  ∧ all_exit d'
  ∧ (backlog d' ≤ backlog d)%nat
  ∧ (cells d = ∅ → cells d' = ∅ ∧ recent_removals d' = recent_removals d).

(** A clock for a whole run that stalls: 100 seconds for the five readings
    of [__init__] and of the start of [run], 100.03 seconds for the next
    [3 + n] readings, 300 seconds from then on.  The dice always show 0,
    and a key is down at every poll. *)
Definition stalled_clock (n : nat) : nat → Q :=
  λ r, if (r <? 5)%nat then 100%Q
       else if (r <? 8 + n)%nat then (10003 # 100)%Q else 300%Q.
Definition stalled_host (n : nat) : Host :=
  mkHost (stalled_clock n) 0 (λ _, 0%N) 0 (λ _, true) 0.

(** That host after [__init__]: three readings of the clock, four draws. *)
Definition stalled_start (n : nat) : Host :=
  mkHost (stalled_clock n) 3 (λ _, 0%N) 4 (λ _, true) 0.

(** The display of the corpus "A B" at the key press of that run: after
    the first round of the scheduler, in which the refresh and both
    workers were due. *)
Definition signal_display : MatrixDisplay :=
  match display_step spaced_display (waited 2 (stalled_start 0)) with
  | Ok (d, _) => d
  | _ => spaced_display
  end.

(** A clock that advances by a hundredth of a second at every reading,
    from 100 seconds on; dice that always show 0; a key down at every
    poll. *)
Definition ticking_host : Host :=
  mkHost (λ r, Qmake (10000 + Z.of_nat r) 100) 0 (λ _, 0%N) 0 (λ _, true) 0.

(** The run of the configuration of the examples under that host: the
    display that [__init__] builds, the corpus "A B" added, and the display
    and the host at the key press, after the first round of the
    scheduler. *)
Definition ticking_fresh : MatrixDisplay :=
  match MatrixDisplay_init demo_config demo_size ticking_host with
  | Ok (d, _) => d
  | _ => demo_display
  end.
Definition ticking_start : Host :=
  mkHost (clock ticking_host) 3 (dice ticking_host) 4 (keyboard ticking_host) 0.
Definition ticking_display : MatrixDisplay :=
  add_lines [[65%N; 32%N; 66%N]] ticking_fresh.
Definition ticking_signal : MatrixDisplay :=
  match display_step ticking_display (waited 2 ticking_start) with
  | Ok (d, _) => d
  | _ => ticking_display
  end.
Definition ticking_signal_host : Host :=
  mkHost (clock ticking_host) 8 (dice ticking_host) 10 (keyboard ticking_host) 1.

(** ** Notions of the further properties *)

(** The glyph that the occupancy map holds at a cell (a blank where it
    holds none). *)
Definition glyph_at (d : MatrixDisplay) (c : cell) : char :=
  match cells d !! c with
  | Some (_, value) => value
  | None => 32%N
  end.

(** The calls of the two loops of [refresh]: a blank at a cell, the glyph
    of a cell in the steady colour. *)
Definition blank_call (c : cell) : call := addstr c.1 c.2 32%N no_attr.
Definition settle_call (d : MatrixDisplay) (c : cell) : call :=
  addstr c.1 c.2 (glyph_at d c) norm_color.

(** The pending removals that are vacant, in the order [refresh] visits
    them. *)
Definition vacant_removals (d : MatrixDisplay) : list cell :=
  List.filter (λ c, negb (bool_decide (c ∈ dom (cells d))))
              (elements (recent_removals d)).

(** [rolled n h h']: the host [h'] is [h] after [n] draws from the dice and
    nothing else. *)
Definition rolled (n : nat) (h h' : Host) : Prop :=
  clock h' = clock h ∧ clock_reads h' = clock_reads h
  ∧ dice h' = dice h ∧ dice_rolls h' = (dice_rolls h + n)%nat
  ∧ keyboard h' = keyboard h ∧ key_polls h' = key_polls h.

(** [runnable d]: a display of a run with a corpus and a window of at
    least two rows and one column. *)
Definition runnable (d : MatrixDisplay) : Prop :=
  reachable d ∧ lines d ≠ []
  ∧ (2 ≤ (getmaxyx (screen d)).1)%Z ∧ (1 ≤ (getmaxyx (screen d)).2)%Z.

(** The cells that some worker of [ws] lists. *)
Definition listed (ws : list MatrixWorker) : gset cell :=
  ⋃ (map (λ w, list_to_set (w_cells w)) ws).

(** The displays that the bootstrap hands to [run]: built by [__init__],
    then filled by calls of [add_file]. *)
Inductive loaded (isspace : char → bool) : MatrixDisplay → Prop :=
| loaded_fresh cfg size h d h' :
    MatrixDisplay_init cfg size h = Ok (d, h') → loaded isspace d
| loaded_add_file filename file_lines d :
    loaded isspace d → loaded isspace (add_file isspace filename file_lines d).

(** A string whose first and last characters, if any, are no whitespace. *)
Definition stripped (isspace : char → bool) (s : str) : Prop :=
  (∀ c, head s = Some c → isspace c = false)
  ∧ (∀ c, last s = Some c → isspace c = false).

(** No worker is in [Exit]. *)
Definition none_exit (d : MatrixDisplay) : Prop :=
  ∀ w, w ∈ workers d → w_state w ≠ Exit.

(** [str.isspace] on ASCII: tab, line feed, vertical tab, form feed,
    carriage return, the separators 28 to 31 and the space. *)
Definition ascii_isspace (c : char) : bool :=
  ((9 <=? c)%N && (c <=? 13)%N) || ((28 <=? c)%N && (c <=? 32)%N).

(** A file of two lines, "  A B \n" and " \n". *)
Definition demo_file : list str :=
  [[32%N; 32%N; 65%N; 32%N; 66%N; 32%N; 10%N]; [32%N; 10%N]].

(** The display after [add_file] of that file under the name "f". *)
Definition loaded_display : MatrixDisplay :=
  add_file ascii_isspace [102%N] demo_file demo_display.

(** A display whose only pending addition is a vacant cell. *)
Definition stale_display : MatrixDisplay :=
  set_recent_additions (λ _, {[ (0, 0)%Z ]}) demo_display.

(** A window of one row. *)
Definition flat_display : MatrixDisplay :=
  with_screen (mkScreen (1, 10)%Z []) spaced_display.

(** A clock that stands at 200 seconds for its first nine readings and at
    300 seconds from then on. *)
Definition waking_host : Host :=
  mkHost (λ n, if (n <? 9)%nat then 200%Q else 300%Q) 0
         (λ _, 0%N) 0 (λ _, false) 0.

(** * Properties *)

(** ** The cell grid *)

Lemma erase_vacant (d : MatrixDisplay) (c : cell) (actor : nat) :
  cells d !! c = None → erase c actor d = d.
Proof. intros Hc. unfold erase. by rewrite Hc. Qed.

Lemma erase_foreign (d : MatrixDisplay) (c : cell) (actor owner : nat) value :
  cells d !! c = Some (owner, value) → owner ≠ actor → erase c actor d = d.
Proof.
  intros Hc Hne. unfold erase. rewrite Hc.
  case_decide; [congruence | done].
Qed.

Lemma erase_owner (d : MatrixDisplay) (c : cell) (actor : nat) value :
  cells d !! c = Some (actor, value) →
  cells (erase c actor d) = delete c (cells d)
  ∧ recent_removals (erase c actor d) = recent_removals d ∪ {[c]}
  ∧ recent_additions (erase c actor d) = recent_additions d ∖ {[c]}
  ∧ screen (erase c actor d)
    = draw (addstr (fst c) (snd c) value poof_color) (screen d).
Proof.
  intros Hc. unfold erase. rewrite Hc.
  rewrite decide_True by done. cbn.
  case_decide; cbn; repeat split; try done. set_solver.
Qed.

(** Whatever the owner, the fields [erase] never touches. *)
Lemma erase_frame (d : MatrixDisplay) (c : cell) (actor : nat) :
  conf (erase c actor d) = conf d
  ∧ lines (erase c actor d) = lines d
  ∧ workers (erase c actor d) = workers d
  ∧ getmaxyx (screen (erase c actor d)) = getmaxyx (screen d)
  ∧ worker_intervals (erase c actor d) = worker_intervals d
  ∧ next_worker_wake_time (erase c actor d) = next_worker_wake_time d
  ∧ refresh_interval (erase c actor d) = refresh_interval d
  ∧ next_refresh (erase c actor d) = next_refresh d.
Proof.
  unfold erase. destruct (cells d !! c) as [[o v]|]; [|done].
  case_decide; [|done]. cbn. by case_decide.
Qed.

Lemma write_frame (d : MatrixDisplay) value (c : cell) (actor : nat) :
  conf (write value c actor d) = conf d
  ∧ lines (write value c actor d) = lines d
  ∧ workers (write value c actor d) = workers d
  ∧ getmaxyx (screen (write value c actor d)) = getmaxyx (screen d)
  ∧ worker_intervals (write value c actor d) = worker_intervals d
  ∧ next_worker_wake_time (write value c actor d) = next_worker_wake_time d
  ∧ refresh_interval (write value c actor d) = refresh_interval d
  ∧ next_refresh (write value c actor d) = next_refresh d.
Proof. unfold write. cbn. by case_decide. Qed.

Lemma write_grid (d : MatrixDisplay) value (c : cell) (actor : nat) :
  cells (write value c actor d) = <[c := (actor, value)]> (cells d)
  ∧ recent_additions (write value c actor d) = recent_additions d ∪ {[c]}
  ∧ recent_removals (write value c actor d) = recent_removals d ∖ {[c]}
  ∧ screen (write value c actor d)
    = draw (addstr (fst c) (snd c) value init_color) (screen d).
Proof.
  unfold write. cbn. case_decide; cbn; repeat split; try done. set_solver.
Qed.

(** C1. [erase(cell, actor)] changes the occupancy map or a pending set
    only when the cell is occupied and [actor] is its occupant.  On a vacant
    cell, and on a cell of another actor, the whole display is returned as
    it was, however often the call is repeated. *)
Theorem erase_only_by_owner (d : MatrixDisplay) (c : cell) (actor : nat) :
  ((cells d !! c = None
    ∨ ∃ owner value, cells d !! c = Some (owner, value) ∧ owner ≠ actor) →
   erase c actor d = d ∧ ∀ n : nat, Nat.iter n (erase c actor) d = d)
  ∧ ((cells (erase c actor d) ≠ cells d
      ∨ recent_additions (erase c actor d) ≠ recent_additions d
      ∨ recent_removals (erase c actor d) ≠ recent_removals d) →
     ∃ value, cells d !! c = Some (actor, value)).
Proof.
  split.
  - intros Hno.
    assert (Hid : erase c actor d = d).
    { destruct Hno as [Hv | (o & v & Ho & Hne)].
      - by apply erase_vacant.
      - by eapply erase_foreign. }
    split; [done|].
    induction n as [|n IH]; [done|]. by rewrite Nat.iter_succ, IH.
  - intros Hch.
    destruct (cells d !! c) as [[o v]|] eqn:Hc.
    + destruct (decide (o = actor)) as [->|Hne]; [by eexists|].
      rewrite (erase_foreign d c actor o v Hc Hne) in Hch. naive_solver.
    + rewrite (erase_vacant d c actor Hc) in Hch. naive_solver.
Qed.

(** C2. [write(glyph, cell, actor)] binds the cell to [(actor, glyph)]
    whoever held it before; afterwards the cell is a pending addition and
    is no pending removal, and no other cell of the map or of the pending
    sets has changed. *)
Theorem write_last_writer_wins (d : MatrixDisplay) (glyph : char) (c : cell)
  (actor : nat) :
  let d' := write glyph c actor d in
  (cells d' = <[c := (actor, glyph)]> (cells d))
  ∧ cells d' !! c = Some (actor, glyph)
  ∧ c ∈ recent_additions d'
  ∧ (c ∉ recent_removals d')
  ∧ (∀ c', c' ≠ c →
       cells d' !! c' = cells d !! c'
       ∧ (c' ∈ recent_additions d' ↔ c' ∈ recent_additions d)
       ∧ (c' ∈ recent_removals d' ↔ c' ∈ recent_removals d)).
Proof.
  cbv zeta.
  destruct (write_grid d glyph c actor) as (Hc & Ha & Hr & _).
  rewrite Hc, Ha, Hr. split_and!.
  - done.
  - by rewrite lookup_insert_eq.
  - set_solver.
  - set_solver.
  - intros c' Hne. rewrite lookup_insert_ne by done. set_solver.
Qed.

(** *** refresh *)

Lemma blank_removed_screen_aux (cs : list cell) (d : MatrixDisplay) :
  ∃ s, foldl (λ d c, if decide (c ∈ dom (cells d)) then d
                     else set_screen (draw (addstr (fst c) (snd c) 32%N no_attr)) d)
             d cs = with_screen s d
       ∧ getmaxyx s = getmaxyx (screen d)
       ∧ ∀ k, k ∈ calls s →
              k ∈ calls (screen d)
              ∨ ∃ c, c ∈ cs ∧ k = addstr c.1 c.2 32%N no_attr.
Proof.
  revert d. induction cs as [|c cs IH]; intros d; cbn [foldl].
  - exists (screen d). destruct d. split_and!; auto.
  - case_decide.
    + destruct (IH d) as (s & Hs & Hsz & Hk). exists s. split_and!; [done..|].
      intros k [?|(c' & ? & ?)]%Hk; [by left|]. right. exists c'. set_solver.
    + edestruct IH as (s & -> & Hsz & Hk). exists s. split_and!; [done..|].
      intros k [Hin|(c' & ? & ?)]%Hk.
      * cbn in Hin. apply elem_of_app in Hin as [?|?]; [by left|].
        right. exists c. set_solver.
      * right. exists c'. set_solver.
Qed.

Lemma blank_removed_screen (d : MatrixDisplay) :
  ∃ s, blank_removed d = with_screen s d
       ∧ getmaxyx s = getmaxyx (screen d)
       ∧ ∀ k, k ∈ calls s →
              k ∈ calls (screen d)
              ∨ ∃ c, c ∈ recent_removals d ∧ k = addstr c.1 c.2 32%N no_attr.
Proof.
  destruct (blank_removed_screen_aux (elements (recent_removals d)) d)
    as (s & Hs & Hsz & Hk).
  exists s. split_and!; [done..|].
  intros k [?|(c & ?%elem_of_elements & ?)]%Hk; eauto.
Qed.

Lemma settle_added_inv (cs : list cell) (d d' : MatrixDisplay) :
  settle_added cs d = Ok d' →
  ∃ s, d' = with_screen s d ∧ getmaxyx s = getmaxyx (screen d)
       ∧ ∀ k, k ∈ calls s →
              k ∈ calls (screen d)
              ∨ ∃ c v, c ∈ cs ∧ k = addstr c.1 c.2 v norm_color.
Proof.
  revert d. induction cs as [|c cs IH]; intros d; cbn [settle_added].
  - intros [= <-]. exists (screen d). destruct d. split_and!; auto.
  - destruct (cells d !! c) as [[o v]|]; [|done].
    intros H. apply IH in H as (s & -> & Hsz & Hk). exists s.
    split_and!; [done..|].
    intros k [Hin|(c' & v' & ? & ?)]%Hk.
    + cbn in Hin. apply elem_of_app in Hin as [?|?]; [by left|].
      right. exists c, v. set_solver.
    + right. exists c', v'. set_solver.
Qed.

Lemma settle_added_ok (cs : list cell) (d : MatrixDisplay) :
  (∀ c, c ∈ cs → is_Some (cells d !! c)) →
  ∃ d', settle_added cs d = Ok d'.
Proof.
  revert d. induction cs as [|c cs IH]; intros d Hin; cbn [settle_added].
  - by eexists.
  - destruct (Hin c) as [[o v] Hc]; [set_solver|]. rewrite Hc.
    apply IH. intros c' Hc'. cbn. apply Hin. set_solver.
Qed.

(** What a returning [refresh] leaves: the same display with both pending
    sets empty and a longer record of window calls, each new call at a
    cell that was pending. *)
Lemma refresh_inv (d d' : MatrixDisplay) :
  refresh d = Ok d' →
  ∃ s, d' = with_screen s
              (set_recent_additions (λ _, ∅) (set_recent_removals (λ _, ∅) d))
       ∧ getmaxyx s = getmaxyx (screen d)
       ∧ ∀ k, k ∈ calls s →
              k ∈ calls (screen d) ∨ k = screen_refresh
              ∨ ∃ c v a, c ∈ recent_removals d ∪ recent_additions d
                         ∧ k = addstr c.1 c.2 v a.
Proof.
  unfold refresh.
  destruct (blank_removed_screen (set_screen (draw screen_refresh) d))
    as (s1 & -> & Hs1 & Hk1).
  destruct (settle_added _ _) as [d2| |] eqn:Hset; cbn; [|done..].
  intros [= <-]. apply settle_added_inv in Hset as (s2 & -> & Hs2 & Hk2).
  exists s2. split_and!; [done|cbn in *; congruence|].
  intros k [Hin|(c & v & Hc%elem_of_elements & ->)]%Hk2.
  - cbn in Hin. apply Hk1 in Hin as [Hin|(c & ? & ->)].
    + cbn in Hin. apply elem_of_app in Hin as [?|?]; [by left|].
      right; left. set_solver.
    + right; right. exists c, 32%N, no_attr. set_solver.
  - right; right. exists c, v, norm_color. cbn in Hc. set_solver.
Qed.

Lemma refresh_ok (d : MatrixDisplay) :
  recent_additions d ⊆ dom (cells d) → ∃ d', refresh d = Ok d'.
Proof.
  intros Hsub. unfold refresh.
  destruct (blank_removed_screen (set_screen (draw screen_refresh) d))
    as (s1 & -> & Hs1 & _).
  edestruct settle_added_ok as [d2 ->]; [|by eexists].
  intros c Hc. cbn in *. apply elem_of_dom, Hsub. set_solver.
Qed.

(** *** The pending sets *)

(** What [__init__] builds. *)
Lemma MatrixDisplay_init_inv cfg size h d h' :
  MatrixDisplay_init cfg size h = Ok (d, h') →
  conf d = cfg ∧ screen d = mkScreen size [] ∧ lines d = []
  ∧ workers d = map (λ i, MatrixWorker_init i (DIRECTION cfg)) (seq 0 (WORKERS cfg))
  ∧ cells d = ∅ ∧ recent_additions d = ∅ ∧ recent_removals d = ∅.
Proof.
  unfold MatrixDisplay_init.
  destruct (one_over _) as [dt| |]; cbn; [|done..].
  destruct (draw_intervals _ _ _ _) as [[dts h1]| |]; cbn; [|done..].
  destruct (first_wake_times _ _ _) as [ts h2]. by intros [= <- <-].
Qed.

Lemma pending_ok_reachable (d : MatrixDisplay) :
  grid_reachable d → pending_ok d.
Proof.
  induction 1 as [cfg size h d h' Hi | v c a d _ [IH1 IH2] | c a d _ [IH1 IH2]
                 | d d' _ [IH1 IH2] Hr].
  - apply MatrixDisplay_init_inv in Hi as (_ & _ & _ & _ & Hc & Ha & Hr).
    unfold pending_ok. rewrite Hc, Ha, Hr. set_solver.
  - destruct (write_grid d v c a) as (Hc & Ha & Hr & _).
    unfold pending_ok. rewrite Hc, Ha, Hr, dom_insert_L. set_solver.
  - destruct (cells d !! c) as [[o v]|] eqn:Hc.
    + destruct (decide (o = a)) as [->|Hne].
      * destruct (erase_owner d c a v Hc) as (Hc' & Hr & Ha & _).
        unfold pending_ok. rewrite Hc', Ha, Hr, dom_delete_L. set_solver.
      * by rewrite (erase_foreign d c a o v Hc Hne).
    + by rewrite (erase_vacant d c a Hc).
  - apply refresh_inv in Hr as (s & -> & _ & _). unfold pending_ok. cbn. set_solver.
Qed.

(** C4. In every grid state reached through [write], [erase] and [refresh]
    no cell is both a pending addition and a pending removal; and in every
    such state [refresh] returns, so that any sequence of the three
    operations does lead to a state. *)
Theorem pending_sets_disjoint (d : MatrixDisplay) :
  grid_reachable d →
  recent_additions d ## recent_removals d
  ∧ (∀ c, (c ∈ recent_additions d → c ∉ recent_removals d)
          ∧ (c ∈ recent_removals d → c ∉ recent_additions d))
  ∧ ∃ d', refresh d = Ok d'.
Proof.
  intros [Hdis Hsub]%pending_ok_reachable. split_and!.
  - done.
  - set_solver.
  - by apply refresh_ok.
Qed.

Lemma demo_display_init :
  MatrixDisplay_init demo_config demo_size demo_host
  = Ok (demo_display,
        mkHost (clock demo_host) 3 (dice demo_host) 4 (keyboard demo_host) 0).
Proof. vm_compute. reflexivity. Qed.

(** ** The host *)

Lemma randint_inv (a b : Z) (h : Host) (v : Z) (h' : Host) :
  randint a b h = Ok (v, h') →
  (a ≤ v ≤ b)%Z ∧ h' = (roll h).2.
Proof.
  unfold randint. destruct (b <? a)%Z eqn:Hlt; [done|].
  apply Z.ltb_ge in Hlt. cbn. intros [= <- <-]. split; [|done].
  pose proof (Z.mod_pos_bound (Z.of_N (dice h (dice_rolls h))) (b - a + 1)).
  lia.
Qed.

Lemma randint_ok (a b : Z) (h : Host) :
  (a ≤ b)%Z → ∃ v, randint a b h = Ok (v, (roll h).2).
Proof.
  intros Hab. unfold randint.
  destruct (b <? a)%Z eqn:Hlt; [apply Z.ltb_lt in Hlt; lia|].
  cbn. by eexists.
Qed.

Lemma random_choice_inv {A : Type} (l : list A) (h : Host) (a : A) (h' : Host) :
  random_choice l h = Ok (a, h') → a ∈ l ∧ h' = (roll h).2.
Proof.
  unfold random_choice. destruct l as [|a0 l]; [done|].
  unfold roll. intros Hch.
  set (n := (N.to_nat _ mod length (a0 :: l))%nat) in Hch.
  assert (Hn : (n < length (a0 :: l))%nat) by (by apply Nat.mod_upper_bound).
  clearbody n. injection Hch as <- <-. split; [|done].
  apply list_elem_of_In. change (In (nth n (a0 :: l) a0) (a0 :: l)).
  by apply nth_In.
Qed.

Lemma random_choice_empty {A : Type} (h : Host) :
  random_choice (@nil A) h = Raise IndexError.
Proof. done. Qed.

(** ** One step of a worker, block by block *)

Lemma same_frame_refl (d : MatrixDisplay) : same_frame d d.
Proof. by repeat split. Qed.

Lemma same_frame_trans (d1 d2 d3 : MatrixDisplay) :
  same_frame d1 d2 → same_frame d2 d3 → same_frame d1 d3.
Proof. unfold same_frame. intros ? ?. destruct_and!. split_and!; congruence. Qed.

Lemma same_frame_erase (d : MatrixDisplay) (c : cell) (actor : nat) :
  same_frame d (erase c actor d).
Proof. apply erase_frame. Qed.

Lemma same_frame_write (d : MatrixDisplay) value (c : cell) (actor : nat) :
  same_frame d (write value c actor d).
Proof. apply write_frame. Qed.

Lemma increment_position_inv (xm ym : Z) (w : MatrixWorker) (h : Host) w' h' :
  (0 ≤ xm)%Z → (0 ≤ ym)%Z →
  increment_position xm ym w h = Ok (w', h') →
  ∃ y x, w' = set_w_pos y x w ∧ (0 ≤ y ≤ ym)%Z ∧ (0 ≤ x ≤ xm)%Z.
Proof.
  intros Hxm Hym. unfold increment_position, py_mod, within.
  destruct (w_x w) as [x|]; [|done]. destruct (w_y w) as [y|]; [|done].
  pose proof (Z.mod_pos_bound (x + w_dx w) (xm + 1)).
  pose proof (Z.mod_pos_bound (y + w_dy w) (ym + 1)).
  destruct (0 <=? y + w_dy w)%Z eqn:Hy0, (y + w_dy w <=? ym)%Z eqn:Hy1; cbn;
    [destruct (0 <=? x + w_dx w)%Z eqn:Hx0, (x + w_dx w <=? xm)%Z eqn:Hx1; cbn|..];
    try (rewrite decide_False by lia; cbn;
         destruct (randint 0 _ h) as [[v h1]| |] eqn:Hr; cbn; [|done..];
         apply randint_inv in Hr as [? _]);
    intros [= <- <-]; do 2 eexists; (split; [done|lia]).
Qed.

Lemma init_block_inv (w : MatrixWorker) (d : MatrixDisplay) (h : Host) w' d' h' :
  init_block w d h = Ok (w', d', h') →
  d' = d
  ∧ ((w_state w ≠ Init ∧ w' = w ∧ h' = h)
     ∨ (w_state w = Init
        ∧ ∃ line y x,
            line ∈ lines d
            ∧ inside (getmaxyx (screen d)) (y, x)
            ∧ w' = mkWorker (w_id w) (Some (List.filter keeps line))
                            (Some x) (Some y) (w_dx w) (w_dy w) [] Write)).
Proof.
  unfold init_block, inside. case_decide as Hst.
  - destruct (getmaxyx (screen d)) as [height width].
    destruct (random_choice _ _) as [[line h1]| |] eqn:Hl; cbn; [|done..].
    destruct (randint 0 (height - 2) h1) as [[y h2]| |] eqn:Hy; cbn; [|done..].
    destruct (randint 0 (width - 1) h2) as [[x h3]| |] eqn:Hx; cbn; [|done..].
    intros [= <- <- <-]. split; [done|]. right. split; [done|].
    apply random_choice_inv in Hl as [? _].
    apply randint_inv in Hy as [? _]. apply randint_inv in Hx as [? _].
    by exists line, y, x.
  - intros [= <- <- <-]. split; [done|]. by left.
Qed.

Lemma write_block_inv (w : MatrixWorker) (d : MatrixDisplay) (h : Host) w' d' h' :
  write_block w d h = Ok (w', d', h') →
  (w_state w ≠ Write ∧ w' = w ∧ d' = d ∧ h' = h)
  ∨ (w_state w = Write ∧ (w_text w = None ∨ w_text w = Some [])
     ∧ w' = set_w_state Erase w ∧ d' = d ∧ h' = h)
  ∨ (w_state w = Write
     ∧ ∃ value rest y x w1,
         w_text w = Some (value :: rest)
         ∧ w_y w = Some y ∧ w_x w = Some x
         ∧ increment_position ((getmaxyx (screen d)).2 - 1)
             ((getmaxyx (screen d)).1 - 2)
             (set_w_cells (w_cells w ++ [(y, x)]) (set_w_text rest w)) h
           = Ok (w1, h')
         ∧ ((Z.of_nat (length (w_cells w1)) ≤ MAX_LEN (conf d))%Z
            ∧ w' = w1 ∧ d' = write value (y, x) (w_id w) d
            ∨ (MAX_LEN (conf d) < Z.of_nat (length (w_cells w1)))%Z
              ∧ ∃ c cs, w_cells w1 = c :: cs ∧ w' = set_w_cells cs w1
                        ∧ d' = erase c (w_id w1)
                                 (write value (y, x) (w_id w) d))).
Proof.
  unfold write_block. case_decide as Hst; [|intros [= <- <- <-]; by left].
  intros Hstep. right.
  destruct (w_text w) as [[|value rest]|] eqn:Ht;
    [injection Hstep as <- <- <-; left; eauto 10|
    |injection Hstep as <- <- <-; left; eauto 10].
  right. split; [done|].
  destruct (getmaxyx (screen d)) as [height width] eqn:Hsz.
  destruct (w_y w) as [y|]; [|done]. destruct (w_x w) as [x|]; [|done].
  cbn [fst snd].
  destruct (increment_position _ _ _ h) as [[w1 h1]| |] eqn:Hinc;
    cbn in Hstep; [|done..].
  destruct (write_frame d value (y, x) (w_id w)) as (Hconf & _).
  rewrite Hconf in Hstep.
  destruct (_ <? _)%Z eqn:Hlen in Hstep.
  - apply Z.ltb_lt in Hlen. destruct (w_cells w1) as [|c cs] eqn:Hcs; [done|].
    injection Hstep as <- <- <-. exists value, rest, y, x, w1.
    split_and!; try done.
    right. split; [by rewrite Hcs|]. by exists c, cs.
  - apply Z.ltb_ge in Hlen. injection Hstep as <- <- <-.
    exists value, rest, y, x, w1. split_and!; try done. by left.
Qed.

(** *** What [erase] and [write] do to the grid, clause by clause *)

Lemma erase_effects (d : MatrixDisplay) (c : cell) (actor : nat) :
  let d' := erase c actor d in
  (∀ c1 o v, cells d' !! c1 = Some (o, v) →
             cells d !! c1 = Some (o, v) ∧ (c1 = c → o ≠ actor))
  ∧ (∀ c1, c1 ∈ recent_removals d' → c1 ∈ recent_removals d ∨ c1 = c)
  ∧ (recent_additions d ⊆ dom (cells d) →
     recent_additions d' ⊆ dom (cells d'))
  ∧ (∀ k, k ∈ calls (screen d') →
          k ∈ calls (screen d) ∨ ∃ v, k = addstr c.1 c.2 v poof_color).
Proof.
  cbv zeta. destruct (cells d !! c) as [[o v]|] eqn:Hc.
  - destruct (decide (o = actor)) as [->|Hne].
    + destruct (erase_owner d c actor v Hc) as (Hc' & Hr & Ha & Hs).
      rewrite Hc', Hr, Ha, Hs. split_and!.
      * intros c1 o1 v1 [Hne H1]%lookup_delete_Some. split; [done|]. congruence.
      * set_solver.
      * rewrite dom_delete_L. set_solver.
      * cbn. intros k [Hk|Hk]%elem_of_app; [by left|]. right. exists v. set_solver.
    + rewrite (erase_foreign d c actor o v Hc Hne). split_and!; try by auto.
      intros c1 o1 v1 H1. split; [done|]. intros ->. congruence.
  - rewrite (erase_vacant d c actor Hc). split_and!; try by auto.
    intros c1 o1 v1 H1. split; [done|]. intros ->. congruence.
Qed.

Lemma write_effects (d : MatrixDisplay) (value : char) (c : cell) (actor : nat) :
  let d' := write value c actor d in
  (∀ c1 o v, cells d' !! c1 = Some (o, v) →
             (c1 = c ∧ o = actor) ∨ (c1 ≠ c ∧ cells d !! c1 = Some (o, v)))
  ∧ (∀ c1, c1 ∈ recent_removals d' → c1 ∈ recent_removals d)
  ∧ (recent_additions d ⊆ dom (cells d) →
     recent_additions d' ⊆ dom (cells d'))
  ∧ (∀ k, k ∈ calls (screen d') →
          k ∈ calls (screen d) ∨ k = addstr c.1 c.2 value init_color).
Proof.
  cbv zeta. destruct (write_grid d value c actor) as (Hc & Ha & Hr & Hs).
  rewrite Hc, Ha, Hr, Hs. split_and!.
  - intros c1 o v [[-> [= <- <-]]|[? ?]]%lookup_insert_Some; auto.
  - set_solver.
  - rewrite dom_insert_L. set_solver.
  - cbn. intros k [Hk|Hk]%elem_of_app; [by left|]. right. set_solver.
Qed.

(** ** The invariant of the workers and the grid *)

Section invariant_moves.
Context (ws : list MatrixWorker) (d : MatrixDisplay).
Context (i : nat) (w : MatrixWorker).
Hypothesis Hinv : inv ws d.
Hypothesis Hw : ws !! i = Some w.

Lemma inv_worker_id : w_id w = i.
Proof. by eapply inv_ids. Qed.

Lemma inv_worker_ok : worker_ok (getmaxyx (screen d)) w.
Proof. eapply inv_workers; [done|]. by eapply list_elem_of_lookup_2. Qed.

(** The worker [i] is replaced by one that still lists the cells it
    owns. *)
Lemma inv_update_worker (w' : MatrixWorker) :
  w_id w' = w_id w →
  worker_ok (getmaxyx (screen d)) w' →
  (∀ c v, cells d !! c = Some (i, v) → c ∈ w_cells w') →
  inv (<[i := w']> ws) d.
Proof.
  intros Hid Hok Hkeep.
  assert (Hi : (i < length ws)%nat) by by eapply lookup_lt_Some.
  split.
  - intros j w0 [(<- & <- & _)|[? ?]]%list_lookup_insert_Some.
    + rewrite Hid. apply inv_worker_id.
    + by eapply inv_ids.
  - intros w0 [j Hj]%list_elem_of_lookup_1.
    apply list_lookup_insert_Some in Hj as [(<- & <- & _)|[? ?]]; [done|].
    eapply inv_workers; [done|]. by eapply list_elem_of_lookup_2.
  - intros c o v Hc. destruct (decide (o = i)) as [->|Hne].
    + exists w'. split; [by apply list_lookup_insert_eq|]. by eapply Hkeep.
    + destruct (inv_owned _ _ Hinv c o v Hc) as (w0 & ? & ?).
      exists w0. by rewrite list_lookup_insert_ne.
  - apply Hinv.
  - apply Hinv.
  - apply Hinv.
  - rewrite length_insert. apply Hinv.
Qed.

(** The worker [i] erases a cell of its list. *)
Lemma inv_erase (c : cell) :
  c ∈ w_cells w → inv ws (erase c (w_id w) d).
Proof.
  intros Hc.
  destruct (erase_effects d c (w_id w)) as (Hcells & Hrem & Hadd & Hcalls).
  destruct (erase_frame d c (w_id w))
    as (Hconf & _ & _ & Hsz & Hint & Hwake & _).
  assert (Hin : inside (getmaxyx (screen d)) c)
    by by apply (ok_cells _ _ inv_worker_ok).
  split; rewrite ?Hsz, ?Hconf, ?Hint, ?Hwake.
  - apply Hinv.
  - apply Hinv.
  - intros c1 o v [H1 _]%Hcells. by eapply inv_owned.
  - intros c1 [?| ->]%Hrem; [by apply Hinv|done].
  - apply Hadd, Hinv.
  - intros y x v a [?|[v' [= -> -> _ _]]]%Hcalls; [by eapply inv_calls|].
    by destruct c.
  - apply Hinv.
Qed.

(** After that, the worker [i] no longer owns the cell. *)
Lemma erase_disowns (c c1 : cell) (v : char) :
  cells (erase c (w_id w) d) !! c1 = Some (i, v) → c1 ≠ c.
Proof.
  destruct (erase_effects d c (w_id w)) as (Hcells & _).
  intros [_ Hne]%Hcells ->. apply Hne; [done|]. by rewrite inv_worker_id.
Qed.

(** The worker [i] writes to a cell of its list. *)
Lemma inv_write (value : char) (c : cell) :
  c ∈ w_cells w → inv ws (write value c (w_id w) d).
Proof.
  intros Hc.
  destruct (write_effects d value c (w_id w)) as (Hcells & Hrem & Hadd & Hcalls).
  destruct (write_frame d value c (w_id w))
    as (Hconf & _ & _ & Hsz & Hint & Hwake & _).
  assert (Hin : inside (getmaxyx (screen d)) c)
    by by apply (ok_cells _ _ inv_worker_ok).
  split; rewrite ?Hsz, ?Hconf, ?Hint, ?Hwake.
  - apply Hinv.
  - apply Hinv.
  - intros c1 o v [[-> ->]|[_ H1]]%Hcells; [|by eapply inv_owned].
    exists w. by rewrite inv_worker_id.
  - intros c1 ?%Hrem. by apply Hinv.
  - apply Hadd, Hinv.
  - intros y x v a [?|[= -> -> _ _]]%Hcalls; [by eapply inv_calls|].
    by destruct c.
  - apply Hinv.
Qed.
End invariant_moves.

Lemma worker_ok_resize (size : Z * Z) (w w' : MatrixWorker) :
  worker_ok size w →
  w_state w' = w_state w → w_text w' = w_text w →
  w_x w' = w_x w → w_y w' = w_y w →
  (∀ c, c ∈ w_cells w' → c ∈ w_cells w) →
  (w_cells w = [] → w_cells w' = []) →
  worker_ok size w'.
Proof.
  intros [Hwr Hin Hcs] Hst Ht Hx Hy Hsub Hnil. split.
  - rewrite Hst, Ht, Hx, Hy. apply Hwr.
  - rewrite Hst. auto.
  - auto.
Qed.

(** The worker [i] erases a cell of its list and drops it from the list. *)
Lemma inv_drop ws d i w (c : cell) (cs : list cell) :
  inv ws d → ws !! i = Some w →
  c ∈ w_cells w →
  (∀ c1, c1 ∈ w_cells w → c1 = c ∨ c1 ∈ cs) →
  (∀ c1, c1 ∈ cs → c1 ∈ w_cells w) →
  inv (<[i := set_w_cells cs w]> ws) (erase c (w_id w) d).
Proof.
  intros Hinv Hw Hc Hrest Hsub.
  pose proof (inv_erase ws d i w Hinv Hw c Hc) as Hinv'.
  destruct (erase_frame d c (w_id w)) as (_ & _ & _ & Hsz & _).
  apply (inv_update_worker ws _ i w Hinv' Hw); [done| |].
  - rewrite Hsz.
    apply (worker_ok_resize _ w); try done; [by eapply inv_worker_ok|].
    intros Hnil. rewrite Hnil in Hc. by apply elem_of_nil in Hc.
  - intros c1 v H1. cbn.
    pose proof (erase_disowns ws d i w Hinv Hw c c1 v H1) as Hne.
    destruct (inv_owned _ _ Hinv' c1 i v H1) as (w0 & Hw0 & Hin).
    assert (w0 = w) as -> by congruence.
    destruct (Hrest c1 Hin); [done|done].
Qed.

Lemma erase_oldest_inv ws d i w w' d' :
  inv ws d → ws !! i = Some w →
  erase_oldest w d = (w', d') →
  inv (<[i := w']> ws) d' ∧ same_frame d d'
  ∧ w_state w' = w_state w ∧ w_id w' = w_id w.
Proof.
  intros Hinv Hw. unfold erase_oldest.
  destruct (w_cells w) as [|c cs] eqn:Hcs; intros [= <- <-].
  - rewrite list_insert_id by done. split_and!; try done; try apply same_frame_refl.
  - split_and!; [|apply same_frame_erase|done..].
    apply inv_drop; try done; rewrite Hcs; set_solver.
Qed.

Lemma erase_newest_inv ws d i w w' d' :
  inv ws d → ws !! i = Some w →
  erase_newest w d = (w', d') →
  inv (<[i := w']> ws) d' ∧ same_frame d d'
  ∧ w_state w' = w_state w ∧ w_id w' = w_id w.
Proof.
  intros Hinv Hw. unfold erase_newest.
  destruct (last (w_cells w)) as [c|] eqn:Hlast; intros [= <- <-].
  - apply last_Some in Hlast as [cs Hcs].
    split_and!; [|apply same_frame_erase|done..].
    rewrite Hcs, removelast_last.
    apply inv_drop; try done; rewrite Hcs; set_solver.
  - rewrite list_insert_id by done. split_and!; try done; try apply same_frame_refl.
Qed.

Lemma init_block_step_inv ws d i w h w' d' h' :
  inv ws d → ws !! i = Some w →
  init_block w d h = Ok (w', d', h') →
  inv (<[i := w']> ws) d' ∧ same_frame d d' ∧ w_id w' = w_id w.
Proof.
  intros Hinv Hw [-> [(_ & -> & _)|(Hst & line & y & x & _ & Hin & ->)]]%init_block_inv.
  - rewrite list_insert_id by done. split_and!; try done; try apply same_frame_refl.
  - split_and!; [|apply same_frame_refl|done..].
    pose proof (inv_worker_ok ws d i w Hinv Hw) as Hok.
    apply (inv_update_worker ws d i w Hinv Hw); [done| |].
    + split; cbn; [eauto 10|done|]. intros c Hc. by apply elem_of_nil in Hc.
    + intros c v Hc. destruct (inv_owned _ _ Hinv c i v Hc) as (w0 & Hw0 & Hc0).
      assert (w0 = w) as -> by congruence.
      by rewrite (ok_init _ _ Hok Hst) in Hc0.
Qed.

Lemma write_block_step_inv ws d i w h w' d' h' :
  inv ws d → ws !! i = Some w →
  write_block w d h = Ok (w', d', h') →
  inv (<[i := w']> ws) d' ∧ same_frame d d' ∧ w_id w' = w_id w.
Proof.
  intros Hinv Hw Hstep.
  pose proof (inv_worker_ok ws d i w Hinv Hw) as Hok.
  assert (Hi : (i < length ws)%nat) by by eapply lookup_lt_Some.
  apply write_block_inv in Hstep
    as [(_ & -> & -> & _)|[(Hst & _ & -> & -> & _)|(Hst & Hrest)]].
  - rewrite list_insert_id by done. split_and!; try done; try apply same_frame_refl.
  - split_and!; [|apply same_frame_refl|done..].
    apply (inv_update_worker ws d i w Hinv Hw); [done| |].
    + destruct Hok as [? ? ?]. by split.
    + intros c v Hc. destruct (inv_owned _ _ Hinv c i v Hc) as (w0 & Hw0 & Hc0).
      by assert (w0 = w) as -> by congruence.
  - destruct Hrest as (value & rest & y & x & w1 & Ht & Hy & Hx & Hinc & Hend).
    destruct (ok_write _ _ Hok Hst) as (y0 & x0 & t0 & Hy0 & Hx0 & _ & Hin).
    assert (y0 = y) as -> by congruence. assert (x0 = x) as -> by congruence.
    set (wa := set_w_cells (w_cells w ++ [(y, x)]) (set_w_text rest w)) in *.
    (* the cell is appended *)
    assert (Hinv_a : inv (<[i := wa]> ws) d).
    { apply (inv_update_worker ws d i w Hinv Hw); [done| |].
      - split; cbn; [eauto 10|rewrite Hst; done|].
        intros c [?| ->%list_elem_of_singleton]%elem_of_app; [|done].
        by apply (ok_cells _ _ Hok).
      - intros c v Hc. destruct (inv_owned _ _ Hinv c i v Hc) as (w0 & Hw0 & Hc0).
        assert (w0 = w) as -> by congruence. cbn. set_solver. }
    assert (Hwa : <[i := wa]> ws !! i = Some wa) by by apply list_lookup_insert_eq.
    (* the glyph is written *)
    pose proof (inv_write _ _ i wa Hinv_a Hwa value (y, x)) as Hinv_w.
    cbn [wa w_cells set_w_cells w_id set_w_text] in Hinv_w.
    specialize (Hinv_w ltac:(set_solver)).
    set (d1 := write value (y, x) (w_id w) d) in *.
    destruct (write_frame d value (y, x) (w_id w)) as (_ & _ & _ & Hsz & _).
    (* the position advances *)
    destruct Hin as [Hiny Hinx]. cbn [fst snd] in Hiny, Hinx.
    apply increment_position_inv in Hinc as (y' & x' & -> & Hy' & Hx');
      [|lia..].
    assert (Hinv_1 : inv (<[i := set_w_pos y' x' wa]> ws) d1).
    { rewrite <- (list_insert_insert_eq ws i _ wa).
      apply (inv_update_worker _ d1 i wa Hinv_w Hwa); [done| |].
      - fold d1 in Hsz. rewrite Hsz.
        pose proof (inv_worker_ok _ _ i wa Hinv_a Hwa) as [_ Hi0 Hc0].
        split; cbn; [|done|done].
        intros _. exists y', x', rest. by split_and!.
      - intros c v Hc.
        destruct (inv_owned _ _ Hinv_w c i v Hc) as (w0 & Hw0 & Hc0).
        by assert (w0 = wa) as -> by congruence. }
    assert (Hw1 : <[i := set_w_pos y' x' wa]> ws !! i = Some (set_w_pos y' x' wa))
      by by apply list_lookup_insert_eq.
    destruct Hend as [(_ & -> & ->)|(_ & c & cs & Hcs & -> & ->)].
    + split_and!; [done|apply same_frame_write|done].
    + split_and!; [| |done].
      * rewrite <- (list_insert_insert_eq ws i _ (set_w_pos y' x' wa)).
        apply inv_drop; try done; rewrite Hcs; set_solver.
      * eapply same_frame_trans; [apply same_frame_write|apply same_frame_erase].
Qed.

Lemma inv_set_state ws d i w (s : State) :
  inv ws d → ws !! i = Some w →
  s ≠ Write → (s = Init → w_cells w = []) →
  inv (<[i := set_w_state s w]> ws) d.
Proof.
  intros Hinv Hw Hs Hnil.
  pose proof (inv_worker_ok ws d i w Hinv Hw) as [_ _ Hcs].
  apply (inv_update_worker ws d i w Hinv Hw); [done|by split|].
  intros c v Hc. destruct (inv_owned _ _ Hinv c i v Hc) as (w0 & Hw0 & Hc0).
  by assert (w0 = w) as -> by congruence.
Qed.

Lemma erase_block_step_inv ws d i w h w' d' h' :
  inv ws d → ws !! i = Some w →
  erase_block w d h = Ok (w', d', h') →
  inv (<[i := w']> ws) d' ∧ same_frame d d' ∧ w_id w' = w_id w.
Proof.
  intros Hinv Hw. unfold erase_block.
  assert (Hi : (i < length ws)%nat) by by eapply lookup_lt_Some.
  case_decide as Hst.
  - destruct (erase_oldest w d) as [w1 d1] eqn:He.
    apply (erase_oldest_inv ws d i) in He as (Hinv1 & Hfr & _ & Hid); [|done..].
    destruct (w_cells w1) as [|c cs] eqn:Hcs; intros [= <- <- <-];
      [|by split_and!].
    split_and!; [|done..].
    rewrite <- (list_insert_insert_eq ws i _ w1).
    apply inv_set_state; [done|by apply list_lookup_insert_eq|done..].
  - intros [= <- <- <-]. rewrite list_insert_id by done.
    split_and!; [done|apply same_frame_refl|done].
Qed.

Lemma exit_block_step_inv ws d i w h w' d' h' :
  inv ws d → ws !! i = Some w →
  exit_block w d h = Ok (w', d', h') →
  inv (<[i := w']> ws) d' ∧ same_frame d d' ∧ w_id w' = w_id w.
Proof.
  intros Hinv Hw. unfold exit_block.
  assert (Hi : (i < length ws)%nat) by by eapply lookup_lt_Some.
  case_decide as Hst.
  - destruct (erase_oldest w d) as [w1 d1] eqn:He1.
    destruct (erase_oldest w1 d1) as [w2 d2] eqn:He2.
    destruct (erase_newest w2 d2) as [w3 d3] eqn:He3.
    intros [= <- <- <-].
    apply (erase_oldest_inv ws d i) in He1 as (Hinv1 & Hfr1 & _ & Hid1);
      [|done..].
    apply (erase_oldest_inv (<[i := w1]> ws) d1 i) in He2
      as (Hinv2 & Hfr2 & _ & Hid2); [|done|by apply list_lookup_insert_eq].
    rewrite list_insert_insert_eq in Hinv2.
    apply (erase_newest_inv (<[i := w2]> ws) d2 i) in He3
      as (Hinv3 & Hfr3 & _ & Hid3); [|done|by apply list_lookup_insert_eq].
    rewrite list_insert_insert_eq in Hinv3.
    split_and!; [done| |congruence].
    eauto using same_frame_trans.
  - intros [= <- <- <-]. rewrite list_insert_id by done.
    split_and!; [done|apply same_frame_refl|done].
Qed.

(** A step of the worker [i] keeps the invariant, and leaves the rest of
    the display as it was. *)
Lemma worker_step_inv ws d i w h w' d' h' :
  inv ws d → ws !! i = Some w →
  worker_step w d h = Ok (w', d', h') →
  inv (<[i := w']> ws) d' ∧ same_frame d d' ∧ w_id w' = w_id w.
Proof.
  intros Hinv Hw. unfold worker_step.
  assert (Hi : (i < length ws)%nat) by by eapply lookup_lt_Some.
  destruct (init_block w d h) as [[[w1 d1] h1]| |] eqn:H1; cbn; [|done..].
  destruct (write_block w1 d1 h1) as [[[w2 d2] h2]| |] eqn:H2; cbn; [|done..].
  destruct (erase_block w2 d2 h2) as [[[w3 d3] h3]| |] eqn:H3; cbn; [|done..].
  intros H4.
  apply (init_block_step_inv ws d i) in H1 as (Hinv1 & Hfr1 & Hid1); [|done..].
  apply (write_block_step_inv (<[i := w1]> ws) d1 i) in H2
    as (Hinv2 & Hfr2 & Hid2); [|done|by apply list_lookup_insert_eq].
  rewrite list_insert_insert_eq in Hinv2.
  apply (erase_block_step_inv (<[i := w2]> ws) d2 i) in H3
    as (Hinv3 & Hfr3 & Hid3); [|done|by apply list_lookup_insert_eq].
  rewrite list_insert_insert_eq in Hinv3.
  apply (exit_block_step_inv (<[i := w3]> ws) d3 i) in H4
    as (Hinv4 & Hfr4 & Hid4); [|done|by apply list_lookup_insert_eq].
  rewrite list_insert_insert_eq in Hinv4.
  split_and!; [done| |congruence].
  eauto using same_frame_trans.
Qed.

(** ** The invariant along a run *)

Lemma inv_set_workers ws f (d : MatrixDisplay) :
  inv ws d → inv ws (set_workers f d).
Proof. intros []. by split. Qed.

Lemma draw_intervals_length (n : nat) (lo hi : Z) (h : Host) dts h' :
  draw_intervals n lo hi h = Ok (dts, h') → length dts = n.
Proof.
  revert h dts h'. induction n as [|n IH]; intros h dts h'; cbn.
  - by intros [= <- <-].
  - destruct (randint lo hi h) as [[cps h1]| |]; cbn; [|done..].
    destruct (one_over cps) as [dt| |]; cbn; [|done..].
    destruct (draw_intervals n lo hi h1) as [[dts1 h2]| |] eqn:Hd; cbn; [|done..].
    intros [= <- <-]. cbn. f_equal. by eapply IH.
Qed.

Lemma first_wake_times_length (dts : list Q) (warm_up : Q) (h : Host) :
  length (first_wake_times dts warm_up h).1 = length dts.
Proof.
  revert h. induction dts as [|dt dts IH]; intros h; cbn; [done|].
  specialize (IH (random_random (time_time h).2).2).
  destruct (first_wake_times dts warm_up _) as [ts h1]. cbn in *. by f_equal.
Qed.

Lemma MatrixDisplay_init_lengths cfg size h d h' :
  MatrixDisplay_init cfg size h = Ok (d, h') →
  length (worker_intervals d) = WORKERS cfg
  ∧ length (next_worker_wake_time d) = WORKERS cfg.
Proof.
  unfold MatrixDisplay_init.
  destruct (one_over _) as [dt| |]; cbn; [|done..].
  destruct (draw_intervals _ _ _ _) as [[dts h1]| |] eqn:Hd; cbn; [|done..].
  pose proof (first_wake_times_length dts (WARM_UP_DURATION cfg)
                (time_time h1).2) as Hlen.
  destruct (first_wake_times _ _ _) as [ts h2]. intros [= <- <-]. cbn in *.
  apply draw_intervals_length in Hd. split; congruence.
Qed.

Lemma MatrixDisplay_init_sys_inv cfg size h d h' :
  MatrixDisplay_init cfg size h = Ok (d, h') → sys_inv d.
Proof.
  intros Hi. pose proof (MatrixDisplay_init_lengths _ _ _ _ _ Hi) as [Hl1 Hl2].
  apply MatrixDisplay_init_inv in Hi as (Hcfg & Hscr & _ & Hws & Hc & Ha & Hr).
  unfold sys_inv. rewrite Hws. split; rewrite ?Hc, ?Ha, ?Hr, ?Hscr, ?Hcfg.
  - intros i w [j [-> [-> _]%lookup_seq]]%list_lookup_fmap_Some. done.
  - intros w [j [-> _]]%list_elem_of_fmap. split; cbn; [done|done|].
    intros c Hc'. by apply elem_of_nil in Hc'.
  - intros c o v. by rewrite lookup_empty.
  - set_solver.
  - set_solver.
  - cbn. intros y x v a Hk. by apply elem_of_nil in Hk.
  - by rewrite length_map, length_seq.
Qed.

Lemma sys_step_inv (d d' : MatrixDisplay) :
  sys_inv d → sys_step d d' → sys_inv d'.
Proof.
  unfold sys_inv. intros Hinv Hstep.
  destruct Hstep as [d i w h w' d' h' Hw Hs|d d' Hr|d|d|d i due dt Hdue Hdt].
  - apply (worker_step_inv (workers d) d i) in Hs as (Hinv' & Hfr & _); [|done..].
    destruct Hfr as (_ & _ & Hws & _). cbn. rewrite Hws.
    by apply inv_set_workers.
  - apply refresh_inv in Hr as (s & -> & Hsz & Hk). cbn.
    destruct Hinv as [Hid Hok Hown Hrem Hadd Hcalls Hlen].
    split; cbn; rewrite ?Hsz; try done.
    intros y x v a [?|[?|(c & v' & a' & Hc & [= -> -> _ _])]]%Hk;
      [by eapply Hcalls|done|].
    apply elem_of_union in Hc as [?|Hc]; [destruct c; by apply Hrem|].
    apply Hadd, elem_of_dom in Hc as [[o v''] Hc].
    destruct (Hown _ _ _ Hc) as (w & Hw & Hin).
    destruct c. eapply ok_cells; [|done]. eapply Hok. by eapply list_elem_of_lookup_2.
  - destruct Hinv as [Hid Hok Hown Hrem Hadd Hcalls Hlen]. split; cbn; try done.
    + intros i w [w0 [-> Hw0]]%list_lookup_fmap_Some. cbn. by eapply Hid.
    + intros w [w0 [-> Hw0]]%list_elem_of_fmap.
      destruct (Hok _ Hw0) as [_ _ Hcs]. by split.
    + intros c o v Hc. destruct (Hown _ _ _ Hc) as (w & Hw & Hin).
      exists (set_w_state Exit w). split; [|done].
      by rewrite list_lookup_fmap, Hw.
    + by rewrite length_map.
  - destruct Hinv. by split.
  - destruct Hinv as [Hid Hok Hown Hrem Hadd Hcalls Hlen]. split; cbn; try done.
    by rewrite length_insert.
Qed.

Lemma reachable_sys_inv (d : MatrixDisplay) : reachable d → sys_inv d.
Proof.
  induction 1 as [cfg size h d h' Hi|ls d _ IH|d d' _ IH Hstep].
  - by eapply MatrixDisplay_init_sys_inv.
  - destruct IH. by split.
  - by eapply sys_step_inv.
Qed.

(** ** The worker alone: what a step does to its list of cells *)

Lemma set_w_cells_id (w : MatrixWorker) : set_w_cells (w_cells w) w = w.
Proof. by destruct w. Qed.

Lemma erase_oldest_worker (w : MatrixWorker) (d : MatrixDisplay) :
  (erase_oldest w d).1 = set_w_cells (tail (w_cells w)) w.
Proof.
  unfold erase_oldest. destruct (w_cells w) as [|c cs] eqn:Hcs; cbn; [|done].
  by rewrite <- Hcs, set_w_cells_id.
Qed.

Lemma erase_newest_worker (w : MatrixWorker) (d : MatrixDisplay) :
  (erase_newest w d).1 = set_w_cells (removelast (w_cells w)) w.
Proof.
  unfold erase_newest. destruct (last (w_cells w)) as [c|] eqn:Hl; cbn; [done|].
  apply last_None in Hl. rewrite Hl. cbn. by rewrite <- Hl, set_w_cells_id.
Qed.

Lemma increment_position_frame (xm ym : Z) (w : MatrixWorker) (h : Host) w' h' :
  increment_position xm ym w h = Ok (w', h') →
  ∃ y x, w' = set_w_pos y x w.
Proof.
  unfold increment_position, py_mod.
  destruct (w_x w) as [x|]; [|done]. destruct (w_y w) as [y|]; [|done].
  repeat (case_decide || case_match || done
          || (cbn; intros [= <- <-]; by eauto)
          || (destruct (randint 0 _ h) as [[v h1]| |]; cbn)).
Qed.

Lemma length_removelast {A : Type} (l : list A) :
  length (removelast l) = pred (length l).
Proof.
  destruct l as [|a l] using rev_ind; [done|].
  rewrite removelast_last, length_app. cbn. lia.
Qed.

Section worker_length.
Context (M : Z) (HM : (0 ≤ M)%Z).

Lemma init_block_length w d h w' d' h' :
  init_block w d h = Ok (w', d', h') →
  (Z.of_nat (length (w_cells w)) ≤ M)%Z →
  (Z.of_nat (length (w_cells w')) ≤ M)%Z.
Proof.
  intros [_ [(_ & -> & _)|(_ & l & y & x & _ & _ & ->)]]%init_block_inv;
    [done|]. cbn. lia.
Qed.

Lemma write_block_length w d h w' d' h' :
  M = MAX_LEN (conf d) →
  write_block w d h = Ok (w', d', h') →
  (Z.of_nat (length (w_cells w)) ≤ M)%Z →
  (Z.of_nat (length (w_cells w')) ≤ M)%Z.
Proof.
  intros -> [(_ & -> & _)|[(_ & _ & -> & _)|(_ & Hrest)]]%write_block_inv;
    [done..|].
  destruct Hrest as (v & rest & y & x & w1 & _ & _ & _ & Hinc & Hend).
  apply increment_position_frame in Hinc as (y' & x' & ->).
  destruct Hend as [(Hle & -> & _)|(_ & c & cs & Hcs & -> & _)]; [done|].
  cbn in *. apply (f_equal length) in Hcs.
  rewrite length_app in Hcs. cbn in Hcs. lia.
Qed.

Lemma erase_block_length w d h w' d' h' :
  erase_block w d h = Ok (w', d', h') →
  (Z.of_nat (length (w_cells w)) ≤ M)%Z →
  (Z.of_nat (length (w_cells w')) ≤ M)%Z.
Proof.
  unfold erase_block. case_decide; [|by intros [= <- <- <-]].
  pose proof (erase_oldest_worker w d) as Hw.
  destruct (erase_oldest w d) as [w1 d1]. cbn in Hw. subst w1.
  intros Hstep Hlen. cbn in Hstep.
  assert (Z.of_nat (length (tail (w_cells w))) ≤ M)%Z.
  { destruct (w_cells w); cbn in *; lia. }
  destruct (tail (w_cells w)); by injection Hstep as <- <- <-.
Qed.

Lemma exit_block_length w d h w' d' h' :
  exit_block w d h = Ok (w', d', h') →
  (Z.of_nat (length (w_cells w)) ≤ M)%Z →
  (Z.of_nat (length (w_cells w')) ≤ M)%Z.
Proof.
  unfold exit_block. case_decide; [|by intros [= <- <- <-]].
  pose proof (erase_oldest_worker w d) as Hw1.
  destruct (erase_oldest w d) as [w1 d1]. cbn in Hw1. subst w1.
  pose proof (erase_oldest_worker (set_w_cells (tail (w_cells w)) w) d1) as Hw2.
  destruct (erase_oldest _ d1) as [w2 d2]. cbn in Hw2. subst w2.
  pose proof (erase_newest_worker
                (set_w_cells (tail (tail (w_cells w)))
                             (set_w_cells (tail (w_cells w)) w)) d2) as Hw3.
  destruct (erase_newest _ d2) as [w3 d3]. cbn in Hw3. subst w3.
  intros [= <- <- <-] Hlen. cbn. rewrite length_removelast.
  destruct (w_cells w) as [|? [|? ?]]; cbn in *; lia.
Qed.

(** A step never leaves the worker with more than [MAX_LEN] cells. *)
Lemma worker_step_length w d h w' d' h' :
  M = MAX_LEN (conf d) →
  worker_step w d h = Ok (w', d', h') →
  (Z.of_nat (length (w_cells w)) ≤ M)%Z →
  (Z.of_nat (length (w_cells w')) ≤ M)%Z.
Proof.
  intros HMd. unfold worker_step.
  destruct (init_block w d h) as [[[w1 d1] h1]| |] eqn:H1; cbn; [|done..].
  destruct (write_block w1 d1 h1) as [[[w2 d2] h2]| |] eqn:H2; cbn; [|done..].
  destruct (erase_block w2 d2 h2) as [[[w3 d3] h3]| |] eqn:H3; cbn; [|done..].
  intros H4 Hlen.
  pose proof (init_block_inv _ _ _ _ _ _ H1) as [-> _].
  eauto using init_block_length, write_block_length, erase_block_length,
    exit_block_length.
Qed.
End worker_length.

(** ** The scheduler only makes moves *)

Lemma wake_reachable (i : nat) (d : MatrixDisplay) (h : Host) d' h' :
  reachable d → wake i d h = Ok (d', h') → reachable d'.
Proof.
  intros Hr. unfold wake. cbn.
  destruct (next_worker_wake_time d !! i) as [due|] eqn:Hdue; [|done].
  destruct (Qgtb _ _); [|by intros [= <- <-]].
  destruct (worker_intervals d !! i) as [dt|] eqn:Hdt; [|done].
  cbn. destruct (workers d !! i) as [w|] eqn:Hw; [|done].
  destruct (worker_step _ _ _) as [[[w1 d1] h1]| |] eqn:Hs; cbn; [|done..].
  intros [= <- <-].
  assert (Hr1 : reachable (set_next_worker_wake_time <[i := (due + dt)%Q]> d)).
  { eapply reach_step; [exact Hr|]. by apply sys_wake_due. }
  eapply reach_step; [exact Hr1|]. by eapply sys_worker.
Qed.

Lemma wake_each_reachable (ids : list nat) (d : MatrixDisplay) (h : Host) d' h' :
  reachable d → wake_each ids d h = Ok (d', h') → reachable d'.
Proof.
  revert d h. induction ids as [|i ids IH]; intros d h Hr; cbn [wake_each].
  - by intros [= <- <-].
  - destruct (wake i d h) as [[d1 h1]| |] eqn:Hw; cbn; [|done..].
    eauto using wake_reachable.
Qed.

Lemma display_step_reachable (d : MatrixDisplay) (h : Host) d' h' :
  reachable d → display_step d h = Ok (d', h') → reachable d'.
Proof.
  intros Hr. unfold display_step. cbn.
  destruct (Qgtb _ _).
  - destruct (refresh _) as [d1| |] eqn:Href; cbn; [|done..].
    apply wake_each_reachable.
    eapply reach_step; [|by apply sys_refresh].
    eapply reach_step; [exact Hr|apply sys_refresh_due].
  - cbn. by apply wake_each_reachable.
Qed.

Lemma drain_reachable (fuel : nat) (d : MatrixDisplay) (h : Host) d' h' :
  reachable d → drain fuel d h = Ok (d', h') → reachable d'.
Proof.
  revert d h. induction fuel as [|fuel IH]; intros d h Hr; cbn [drain].
  - destruct (busy d); [done|by intros [= <- <-]].
  - destruct (busy d); [|by intros [= <- <-]].
    destruct (display_step d h) as [[d1 h1]| |] eqn:Hs; cbn; [|done..].
    eauto using display_step_reachable.
Qed.

Lemma shutdown_reachable (fuel : nat) (d : MatrixDisplay) (h : Host) d' h' :
  reachable d → shutdown fuel d h = Ok (d', h') → reachable d'.
Proof.
  intros Hr. unfold shutdown.
  destruct (drain _ _ _) as [[d1 h1]| |] eqn:Hd; cbn; [|done..].
  destruct (refresh d1) as [d2| |] eqn:Href; cbn; [|done..].
  intros [= <- <-]. eapply reach_step; [|by apply sys_refresh].
  eapply drain_reachable; [|done]. eapply reach_step; [exact Hr|apply sys_exit].
Qed.

Lemma run_loop_reachable (fuel : nat) (limit : Q) (d : MatrixDisplay)
  (h : Host) d' h' :
  reachable d → run_loop fuel limit d h = Ok (d', h') → reachable d'.
Proof.
  revert d h. induction fuel as [|fuel IH]; intros d h Hr;
    cbn [run_loop time_time].
  - destruct (Qltb _ _); [done|by intros [= <- <-]].
  - destruct (Qltb _ _); [|by intros [= <- <-]].
    destruct (display_step d _) as [[d1 h1]| |] eqn:Hs; cbn; [|done..].
    apply display_step_reachable in Hs; [|done].
    destruct (keyboard h1 (key_polls h1)); eauto using shutdown_reachable.
Qed.

(** Every display that [run] returns is a reachable one. *)
Lemma run_reachable (fuel : nat) (secs : Q) (d : MatrixDisplay) (h : Host) d' h' :
  reachable d → run fuel secs d h = Ok (d', h') → reachable d'.
Proof. unfold run. cbn. apply run_loop_reachable. Qed.

(** ** The bound on the list of cells *)

Lemma sys_step_conf (d d' : MatrixDisplay) :
  sys_inv d → sys_step d d' → conf d' = conf d.
Proof.
  intros Hinv Hstep.
  destruct Hstep as [d i w h w' d1 h' Hw Hs|d d1 Hr|d|d|d i due dt _ _];
    try done.
  - apply (worker_step_inv (workers d) d i) in Hs as (_ & Hfr & _); [|done..].
    apply Hfr.
  - by apply refresh_inv in Hr as (s & -> & _).
Qed.

Lemma sys_step_short (d d' : MatrixDisplay) :
  (0 ≤ MAX_LEN (conf d))%Z → sys_inv d → short d → sys_step d d' → short d'.
Proof.
  intros HM Hinv Hsh Hstep. unfold short.
  rewrite (sys_step_conf d d' Hinv Hstep).
  destruct Hstep as [d i w h w' d' h' Hw Hs|d d' Hr|d|d|d i due dt _ _];
    try done.
  - pose proof (worker_step_inv (workers d) d i _ _ _ _ _ Hinv Hw Hs)
      as (_ & (_ & _ & Hws & _) & _).
    cbn. rewrite Hws. intros w0 [j Hj]%list_elem_of_lookup_1.
    apply list_lookup_insert_Some in Hj as [(_ & <- & _)|[_ Hj]].
    + eapply worker_step_length; [done|done|done|].
      apply Hsh. by eapply list_elem_of_lookup_2.
    + apply Hsh. by eapply list_elem_of_lookup_2.
  - apply refresh_inv in Hr as (s & -> & _). apply Hsh.
  - cbn. intros w [w0 [-> Hw0]]%list_elem_of_fmap. cbn. by apply Hsh.
Qed.

Lemma reachable_short (d : MatrixDisplay) :
  reachable d → (0 ≤ MAX_LEN (conf d))%Z → short d.
Proof.
  induction 1 as [cfg size h d h' Hi|ls d Hr IH|d d' Hr IH Hstep]; intros HM.
  - apply MatrixDisplay_init_inv in Hi as (_ & _ & _ & Hws & _).
    unfold short. rewrite Hws. intros w [j [-> _]]%list_elem_of_fmap. cbn. lia.
  - by apply IH.
  - pose proof (reachable_sys_inv d Hr) as Hinv.
    rewrite (sys_step_conf d d' Hinv Hstep) in HM.
    eapply sys_step_short; eauto.
Qed.


(** ** The rows and columns that are drawn *)

(** C10. In every display of a run, every [addstr] the window has received
    (the writes of the workers among them) is at a row of [0, height-2] and
    a column of [0, width-1]: the last row of the window is never drawn.
    Every worker about to write stands at such a position, the cells it
    lists are such cells, and a step of a worker leads to a display of
    which the same holds. *)
Theorem last_row_never_written (d : MatrixDisplay) :
  reachable d →
  let height := (getmaxyx (screen d)).1 in
  let width := (getmaxyx (screen d)).2 in
  (∀ y x value a, addstr y x value a ∈ calls (screen d) →
                  (0 ≤ y ≤ height - 2)%Z ∧ (0 ≤ x ≤ width - 1)%Z)
  ∧ (∀ w, w ∈ workers d →
          (w_state w = Write →
           ∃ y x, w_y w = Some y ∧ w_x w = Some x
                  ∧ (0 ≤ y ≤ height - 2)%Z ∧ (0 ≤ x ≤ width - 1)%Z)
          ∧ (∀ y x, (y, x) ∈ w_cells w →
                    (0 ≤ y ≤ height - 2)%Z ∧ (0 ≤ x ≤ width - 1)%Z))
  ∧ (∀ i w h w' d' h',
        workers d !! i = Some w →
        worker_step w d h = Ok (w', d', h') →
        getmaxyx (screen d') = getmaxyx (screen d)
        ∧ (w_state w' = Write →
           ∃ y x, w_y w' = Some y ∧ w_x w' = Some x
                  ∧ (0 ≤ y ≤ height - 2)%Z ∧ (0 ≤ x ≤ width - 1)%Z)
        ∧ ∀ y x value a, addstr y x value a ∈ calls (screen d') →
                         (0 ≤ y ≤ height - 2)%Z ∧ (0 ≤ x ≤ width - 1)%Z).
Proof.
  intros Hr. pose proof (reachable_sys_inv d Hr) as Hinv. cbv zeta.
  split_and!.
  - intros y x v a Hk. by apply (inv_calls _ _ Hinv) in Hk.
  - intros w Hw. destruct (inv_workers _ _ Hinv w Hw) as [Hwr _ Hcs]. split.
    + intros (y & x & t & ? & ? & _ & ?)%Hwr. by exists y, x.
    + intros y x Hc. by apply Hcs in Hc.
  - intros i w h w' d' h' Hw Hs.
    destruct (worker_step_inv _ _ i _ _ _ _ _ Hinv Hw Hs)
      as (Hinv' & (_ & _ & _ & Hsz & _) & _).
    split_and!; [done| |].
    + assert (Hin : w' ∈ <[i := w']> (workers d)).
      { eapply list_elem_of_lookup_2, list_lookup_insert_eq.
        by eapply lookup_lt_Some. }
      destruct (inv_workers _ _ Hinv' w' Hin) as [Hwr _ _].
      rewrite Hsz in Hwr. intros (y & x & t & ? & ? & _ & ?)%Hwr. by exists y, x.
    + intros y x v a Hk. apply (inv_calls _ _ Hinv') in Hk. by rewrite Hsz in Hk.
Qed.

(** ** The advance of the position *)

(** Every column can come out of a re-sampling: the dice decide. *)
Lemma randint_onto (a b v : Z) (h : Host) :
  (a ≤ v ≤ b)%Z →
  randint a b (mkHost (clock h) (clock_reads h) (λ _, Z.to_N (v - a))
                      (dice_rolls h) (keyboard h) (key_polls h))
  = Ok (v, mkHost (clock h) (clock_reads h) (λ _, Z.to_N (v - a))
                  (S (dice_rolls h)) (keyboard h) (key_polls h)).
Proof.
  intros Hv. unfold randint. destruct (b <? a)%Z eqn:Hlt; [lia|].
  cbn. rewrite Z2N.id by lia. rewrite Z.mod_small by lia.
  do 2 f_equal. lia.
Qed.

(** C6. Direction (0, 1) on a grid of [H] rows and [W] columns: a worker
    at the last row, [H - 1], advances to row 0, the row taken modulo [H],
    and to a column drawn anew from [0, W-1], any of which the draw can
    give.  A worker at an earlier row advances to the next row of the same
    column and draws nothing: the column, which the direction does not
    move, is neither checked out of its bounds nor changed. *)
Theorem wrap_last_row (H W : Z) (w : MatrixWorker) (h : Host) (y x : Z) :
  w_dx w = 0%Z → w_dy w = 1%Z →
  w_y w = Some y → w_x w = Some x →
  (0 ≤ y ≤ H - 1)%Z → (0 ≤ x ≤ W - 1)%Z →
  (y = (H - 1)%Z →
     ∃ x', increment_position (W - 1) (H - 1) w h
           = Ok (set_w_pos 0 x' w, (roll h).2)
           ∧ ((y + 1) mod H = 0)%Z
           ∧ x' = (Z.of_N (roll h).1 mod W)%Z
           ∧ (0 ≤ x' ≤ W - 1)%Z)
  ∧ (y = (H - 1)%Z → ∀ v, (0 ≤ v ≤ W - 1)%Z →
       ∃ h1, increment_position (W - 1) (H - 1) w h1
             = Ok (set_w_pos 0 v w, (roll h1).2))
  ∧ ((y < H - 1)%Z →
       increment_position (W - 1) (H - 1) w h = Ok (set_w_pos (y + 1) x w, h)).
Proof.
  intros Hdx Hdy Hy Hx Hyr Hxr.
  assert (Hwrap : ∀ h0 : Host, y = (H - 1)%Z →
            increment_position (W - 1) (H - 1) w h0
            = '(x', h') ← randint 0 (W - 1) h0; Ok (set_w_pos 0 x' w, h')).
  { intros h0 ->. unfold increment_position, py_mod, within.
    rewrite Hx, Hy, Hdx, Hdy.
    replace (H - 1 + 1 <=? H - 1)%Z with false by lia.
    rewrite andb_false_r. cbn [negb].
    rewrite decide_False by lia. cbn.
    replace (H - 1 + 1)%Z with H by lia. rewrite Z.mod_same by lia.
    by destruct (randint 0 (W - 1) h0) as [[? ?]| |]. }
  split_and!.
  - intros ->. exists (Z.of_N (roll h).1 mod W)%Z. rewrite Hwrap by done.
    unfold randint. replace (W - 1 <? 0)%Z with false by lia. cbn.
    replace (W - 1 - 0 + 1)%Z with W by lia.
    pose proof (Z.mod_pos_bound (Z.of_N (dice h (dice_rolls h))) W).
    split_and!; [done| |done|lia|lia].
    replace (H - 1 + 1)%Z with H by lia. apply Z.mod_same. lia.
  - intros -> v Hv.
    exists (mkHost (clock h) (clock_reads h) (λ _, Z.to_N (v - 0))
                   (dice_rolls h) (keyboard h) (key_polls h)).
    rewrite Hwrap by done. by rewrite randint_onto.
  - intros Hlt. unfold increment_position, within.
    rewrite Hx, Hy, Hdx, Hdy.
    replace (0 <=? y + 1)%Z with true by lia.
    replace (y + 1 <=? H - 1)%Z with true by lia.
    replace (0 <=? x + 0)%Z with true by lia.
    replace (x + 0 <=? W - 1)%Z with true by lia.
    cbn. by rewrite Z.add_0_r.
Qed.

(** ** The blocks a step passes over *)

Lemma init_block_skip w d h : w_state w ≠ Init → init_block w d h = Ok (w, d, h).
Proof. intros. unfold init_block. by rewrite decide_False. Qed.

Lemma write_block_skip w d h : w_state w ≠ Write → write_block w d h = Ok (w, d, h).
Proof. intros. unfold write_block. by rewrite decide_False. Qed.

Lemma erase_block_skip w d h : w_state w ≠ Erase → erase_block w d h = Ok (w, d, h).
Proof. intros. unfold erase_block. by rewrite decide_False. Qed.

Lemma exit_block_skip w d h : w_state w ≠ Exit → exit_block w d h = Ok (w, d, h).
Proof. intros. unfold exit_block. by rewrite decide_False. Qed.

Lemma bind_Ok {A B : Type} (a : A) (k : A → result B) : Ok a ≫= k = k a.
Proof. done. Qed.

(** ** A stream of two glyphs *)

Lemma write_conf value c actor d : conf (write value c actor d) = conf d.
Proof. apply write_frame. Qed.

Lemma write_getmaxyx value c actor d :
  getmaxyx (screen (write value c actor d)) = getmaxyx (screen d).
Proof. apply write_frame. Qed.

Lemma erase_conf c actor d : conf (erase c actor d) = conf d.
Proof. apply erase_frame. Qed.

Lemma erase_getmaxyx c actor d :
  getmaxyx (screen (erase c actor d)) = getmaxyx (screen d).
Proof. apply erase_frame. Qed.

(** C7. On a window of 5 rows and 10 columns with [MAX_LEN = 3], whatever
    else the display holds: the first step writes 'A' at (0, 3) and moves
    to row 1; the second writes 'B' at (1, 3) and leaves the queue empty;
    the third turns to [Erase] and erases (0, 3); the fourth erases (1, 3),
    which empties the list, and turns to [Init]. *)
Theorem scenario_AB (d0 : MatrixDisplay) (h : Host) :
  getmaxyx (screen d0) = (5, 10)%Z →
  MAX_LEN (conf d0) = 3%Z →
  let d1 := write 65%N (0, 3)%Z 0 d0 in
  let d2 := write 66%N (1, 3)%Z 0 d1 in
  let d3 := erase (0, 3)%Z 0 d2 in
  let d4 := erase (1, 3)%Z 0 d3 in
  worker_step scenario_worker d0 h
  = Ok (mkWorker 0 (Some [66%N]) (Some 3%Z) (Some 1%Z) 0 1 [(0, 3)%Z] Write,
        d1, h)
  ∧ worker_step
      (mkWorker 0 (Some [66%N]) (Some 3%Z) (Some 1%Z) 0 1 [(0, 3)%Z] Write) d1 h
    = Ok (mkWorker 0 (Some []) (Some 3%Z) (Some 2%Z) 0 1
                   [(0, 3)%Z; (1, 3)%Z] Write, d2, h)
  ∧ worker_step
      (mkWorker 0 (Some []) (Some 3%Z) (Some 2%Z) 0 1
                [(0, 3)%Z; (1, 3)%Z] Write) d2 h
    = Ok (mkWorker 0 (Some []) (Some 3%Z) (Some 2%Z) 0 1 [(1, 3)%Z] Erase,
          d3, h)
  ∧ worker_step
      (mkWorker 0 (Some []) (Some 3%Z) (Some 2%Z) 0 1 [(1, 3)%Z] Erase) d3 h
    = Ok (mkWorker 0 (Some []) (Some 3%Z) (Some 2%Z) 0 1 [] Init, d4, h)
  ∧ cells d1 !! (0, 3)%Z = Some (0%nat, 65%N)
  ∧ cells d2 !! (0, 3)%Z = Some (0%nat, 65%N)
  ∧ cells d2 !! (1, 3)%Z = Some (0%nat, 66%N)
  ∧ cells d3 !! (0, 3)%Z = None
  ∧ cells d3 !! (1, 3)%Z = Some (0%nat, 66%N)
  ∧ cells d4 !! (0, 3)%Z = None
  ∧ cells d4 !! (1, 3)%Z = None.
Proof.
  intros Hsz HM. cbv zeta.
  assert (H1 : cells (write 65%N (0, 3)%Z 0 d0) !! (0, 3)%Z = Some (0%nat, 65%N)).
  { destruct (write_grid d0 65%N (0, 3)%Z 0) as (-> & _).
    by rewrite lookup_insert_eq. }
  set (d1 := write 65%N (0, 3)%Z 0 d0) in *.
  assert (H2 : cells (write 66%N (1, 3)%Z 0 d1) !! (0, 3)%Z = Some (0%nat, 65%N)
               ∧ cells (write 66%N (1, 3)%Z 0 d1) !! (1, 3)%Z
                 = Some (0%nat, 66%N)).
  { destruct (write_grid d1 66%N (1, 3)%Z 0) as (-> & _).
    by rewrite lookup_insert_eq, lookup_insert_ne. }
  set (d2 := write 66%N (1, 3)%Z 0 d1) in *. destruct H2 as [H2a H2b].
  assert (H3 : cells (erase (0, 3)%Z 0 d2) !! (0, 3)%Z = None
               ∧ cells (erase (0, 3)%Z 0 d2) !! (1, 3)%Z = Some (0%nat, 66%N)).
  { destruct (erase_owner d2 (0, 3)%Z 0 65%N H2a) as (-> & _).
    by rewrite lookup_delete_eq, lookup_delete_ne. }
  set (d3 := erase (0, 3)%Z 0 d2) in *. destruct H3 as [H3a H3b].
  assert (H4 : cells (erase (1, 3)%Z 0 d3) !! (0, 3)%Z = None
               ∧ cells (erase (1, 3)%Z 0 d3) !! (1, 3)%Z = None).
  { destruct (erase_owner d3 (1, 3)%Z 0 66%N H3b) as (-> & _).
    by rewrite lookup_delete_eq, lookup_delete_ne. }
  destruct H4 as [H4a H4b].
  subst d1 d2 d3. split_and!; try done.
  - unfold worker_step, scenario_worker.
    rewrite init_block_skip, bind_Ok by done.
    unfold write_block. rewrite decide_True by done. cbn -[write erase].
    rewrite Hsz. cbn -[write erase]. rewrite write_conf, HM.
    by cbv -[write erase].
  - unfold worker_step.
    rewrite init_block_skip, bind_Ok by done.
    unfold write_block. rewrite decide_True by done. cbn -[write erase].
    rewrite write_getmaxyx, Hsz. cbn -[write erase].
    rewrite !write_conf, HM.
    by cbv -[write erase].
Qed.

(** ** The queue of glyphs *)

Lemma keeps_spec (c : char) :
  keeps c = printable_ascii c && negb (c =? 32)%N.
Proof.
  unfold keeps, printable_ascii, ord.
  destruct (N.eqb_spec c 32) as [->|Hne]; [done|].
  rewrite andb_true_r. f_equal; lia.
Qed.

(** C8, as stated, fails on a line with a space: the space is a printable
    character of ASCII, and the queue does not hold it. *)
Lemma queue_drops_the_space :
  lines spaced_display = [[65%N; 32%N; 66%N]]
  ∧ ∃ w' h',
      init_block (MatrixWorker_init 0 (0, 1)%Z) spaced_display demo_host
      = Ok (w', spaced_display, h')
      ∧ w_text w' = Some [65%N; 66%N]
      ∧ w_text w' ≠ Some (List.filter printable_ascii [65%N; 32%N; 66%N]).
Proof.
  split; [by vm_compute|]. do 2 eexists. split_and!.
  - vm_compute. reflexivity.
  - done.
  - by vm_compute.
Qed.

(** C8, amended.  In the [init] block the queue becomes the chosen line of
    the corpus filtered, in order, to the characters of code 33 to 126:
    printable ASCII without the space.  When no character of the line is
    kept, the queue is empty, the [write] block turns the worker to
    [Erase] in the same step, and the step returns with no cell written
    and no cell listed (the [erase] block, with nothing to erase, has
    turned the worker back to [Init]). *)
Theorem queue_is_the_filtered_line (w : MatrixWorker) (d : MatrixDisplay)
  (h : Host) :
  w_state w = Init →
  lines d ≠ [] →
  (2 ≤ (getmaxyx (screen d)).1)%Z → (1 ≤ (getmaxyx (screen d)).2)%Z →
  ∃ line w1 h1,
    random_choice (lines d) h = Ok (line, (roll h).2)
    ∧ line ∈ lines d
    ∧ init_block w d h = Ok (w1, d, h1)
    ∧ w_state w1 = Write ∧ w_cells w1 = []
    ∧ w_text w1 = Some (List.filter keeps line)
    ∧ (∀ c, keeps c = true ↔ (32 < ord c < 127)%Z)
    ∧ (∀ c, keeps c = printable_ascii c && negb (c =? 32)%N)
    ∧ (List.filter keeps line = [] →
       write_block w1 d h1 = Ok (set_w_state Erase w1, d, h1)
       ∧ ∃ w', worker_step w d h = Ok (w', d, h1)
               ∧ w_cells w' = [] ∧ w_state w' = Init).
Proof.
  intros Hst Hlines Hh Hw.
  destruct (getmaxyx (screen d)) as [height width] eqn:Hsz. cbn in Hh, Hw.
  destruct (lines d) as [|l0 ls] eqn:Hl; [done|].
  set (line := nth (N.to_nat (roll h).1 mod length (l0 :: ls)) (l0 :: ls) l0).
  assert (Hch : random_choice (l0 :: ls) h = Ok (line, (roll h).2)) by done.
  destruct (randint_ok 0 (height - 2) (roll h).2) as [y Hy]; [lia|].
  destruct (randint_ok 0 (width - 1) (roll (roll h).2).2) as [x Hx]; [lia|].
  set (w1 := mkWorker (w_id w) (Some (List.filter keeps line)) (Some x) (Some y)
                      (w_dx w) (w_dy w) [] Write).
  assert (Hinit : init_block w d h = Ok (w1, d, (roll (roll (roll h).2).2).2)).
  { unfold init_block. rewrite decide_True by done.
    rewrite Hsz, Hl, Hch. cbn [mbind result_bind]. rewrite Hy.
    cbn [mbind result_bind]. by rewrite Hx. }
  exists line, w1, (roll (roll (roll h).2).2).2. split_and!; try done.
  - by apply random_choice_inv in Hch as [? _].
  - intros c. unfold keeps. lia.
  - apply keeps_spec.
  - intros Hempty.
    assert (Hwr : write_block w1 d (roll (roll (roll h).2).2).2
                  = Ok (set_w_state Erase w1, d, (roll (roll (roll h).2).2).2)).
    { unfold write_block. rewrite decide_True by done.
      unfold w1 at 1. cbn [w_text]. by rewrite Hempty. }
    split; [done|]. exists (set_w_state Init (set_w_state Erase w1)).
    split; [|done]. unfold worker_step.
    rewrite Hinit, bind_Ok, Hwr, bind_Ok.
    unfold erase_block. rewrite decide_True by done. cbn -[roll].
    by rewrite exit_block_skip.
Qed.

(** ** An empty corpus *)

(** C9, as stated, fails: with an empty corpus the display is built, [run]
    enters its loop, the first round of the loop returns, and the second
    round raises [IndexError] in the step of a worker. *)
Lemma empty_corpus_fails_inside_the_loop :
  ∃ d h,
    MatrixDisplay_init demo_config demo_size stepping_host = Ok (d, h)
    ∧ lines d = []
    ∧ (∃ d1 h1, display_step d (time_time (time_time h).2).2 = Ok (d1, h1))
    ∧ run 1 10%Q d h = OutOfFuel
    ∧ run 2 10%Q d h = Raise IndexError.
Proof.
  do 2 eexists. split_and!.
  - vm_compute. reflexivity.
  - done.
  - do 2 eexists. vm_compute. reflexivity.
  - by vm_compute.
  - by vm_compute.
Qed.

(** C9, amended.  With an empty corpus nothing is checked ahead of the
    loop.  A round in which a worker is not yet due passes it by without
    an error; the step of a worker in [Init] raises the [IndexError] of
    [random.choice], and so does the round of the scheduler in which such
    a worker comes due. *)
Theorem empty_corpus_IndexError (d : MatrixDisplay) (h : Host) :
  lines d = [] →
  (∀ w, w_state w = Init → worker_step w d h = Raise IndexError)
  ∧ (∀ i due, next_worker_wake_time d !! i = Some due →
              Qgtb (clock h (clock_reads h)) due = false →
              wake i d h = Ok (d, (time_time h).2))
  ∧ (∀ i w due dt,
        workers d !! i = Some w → w_state w = Init →
        next_worker_wake_time d !! i = Some due →
        worker_intervals d !! i = Some dt →
        Qgtb (clock h (clock_reads h)) due = true →
        wake i d h = Raise IndexError).
Proof.
  intros Hl.
  assert (Hstep : ∀ (d' : MatrixDisplay) h' w,
            lines d' = [] → w_state w = Init →
            worker_step w d' h' = Raise IndexError).
  { intros d' h' w Hl' Hst. unfold worker_step, init_block.
    rewrite decide_True by done. destruct (getmaxyx (screen d')).
    by rewrite Hl'. }
  split_and!.
  - intros w Hst. by apply Hstep.
  - intros i due Hdue Hq. unfold wake. cbn. by rewrite Hdue, Hq.
  - intros i w due dt Hw Hst Hdue Hdt Hq. unfold wake. cbn.
    rewrite Hdue, Hq, Hdt. cbn. rewrite Hw. by rewrite Hstep.
Qed.

(** ** Worked examples *)

Lemma demo_display_reachable : reachable demo_display.
Proof. eapply reach_fresh, demo_display_init. Qed.

Lemma spaced_display_reachable : reachable spaced_display.
Proof. apply reach_add_file, demo_display_reachable. Qed.

Lemma demo_running_reachable : reachable demo_running.
Proof.
  apply (display_step_reachable spaced_display late_host demo_running
           (mkHost (clock late_host) 3 (dice late_host) 6 (keyboard late_host) 0)).
  - apply spaced_display_reachable.
  - vm_compute. reflexivity.
Qed.

Lemma erase_only_by_owner_witness :
  (erase (0, 0)%Z 0 taken_display = taken_display
   ∧ ∀ n : nat, Nat.iter n (erase (0, 0)%Z 0) taken_display = taken_display)
  ∧ ∃ value, cells taken_display !! (0, 0)%Z = Some (1%nat, value).
Proof.
  split.
  - apply (erase_only_by_owner taken_display (0, 0)%Z 0).
    right. exists 1%nat, 65%N. split; [vm_compute; reflexivity|lia].
  - apply (erase_only_by_owner taken_display (0, 0)%Z 1).
    left. vm_compute. discriminate.
Defined.

Lemma pending_sets_disjoint_witness :
  grid_reachable (erase (0, 0)%Z 1 taken_display)
  ∧ recent_additions (erase (0, 0)%Z 1 taken_display)
    ## recent_removals (erase (0, 0)%Z 1 taken_display).
Proof.
  assert (Hr : grid_reachable (erase (0, 0)%Z 1 taken_display)).
  { apply grid_erase, grid_write. eapply grid_fresh. apply demo_display_init. }
  split; [done|].
  apply (pending_sets_disjoint (erase (0, 0)%Z 1 taken_display) Hr).
Defined.


Lemma last_row_never_written_witness :
  reachable demo_running
  ∧ addstr 0 0 65%N init_color ∈ calls (screen demo_running)
  ∧ ∀ y x value a, addstr y x value a ∈ calls (screen demo_running) →
                   (0 ≤ y ≤ 5 - 2)%Z ∧ (0 ≤ x ≤ 10 - 1)%Z.
Proof.
  split_and!; [apply demo_running_reachable|vm_compute; set_solver|].
  apply (last_row_never_written demo_running demo_running_reachable).
Defined.

Lemma wrap_last_row_witness :
  ∃ x', increment_position (10 - 1) (4 - 1)
          (mkWorker 0 None (Some 3%Z) (Some 3%Z) 0 1 [] Write) demo_host
        = Ok (set_w_pos 0 x' (mkWorker 0 None (Some 3%Z) (Some 3%Z) 0 1 [] Write),
              (roll demo_host).2)
        ∧ ((3 + 1) mod 4 = 0)%Z
        ∧ x' = (Z.of_N (roll demo_host).1 mod 10)%Z
        ∧ (0 ≤ x' ≤ 10 - 1)%Z.
Proof.
  apply (wrap_last_row 4 10 (mkWorker 0 None (Some 3%Z) (Some 3%Z) 0 1 [] Write)
           demo_host 3 3); try reflexivity; lia.
Defined.

Lemma scenario_AB_witness :
  worker_step scenario_worker demo_display demo_host
  = Ok (mkWorker 0 (Some [66%N]) (Some 3%Z) (Some 1%Z) 0 1 [(0, 3)%Z] Write,
        write 65%N (0, 3)%Z 0 demo_display, demo_host).
Proof.
  apply (scenario_AB demo_display demo_host); reflexivity.
Defined.

Lemma queue_is_the_filtered_line_witness :
  ∃ line w1 h1,
    random_choice (lines spaced_display) demo_host = Ok (line, (roll demo_host).2)
    ∧ line ∈ lines spaced_display
    ∧ init_block (MatrixWorker_init 0 (0, 1)%Z) spaced_display demo_host
      = Ok (w1, spaced_display, h1)
    ∧ w_state w1 = Write ∧ w_cells w1 = []
    ∧ w_text w1 = Some (List.filter keeps line).
Proof.
  destruct (queue_is_the_filtered_line (MatrixWorker_init 0 (0, 1)%Z)
              spaced_display demo_host)
    as (line & w1 & h1 & H1 & H2 & H3 & H4 & H5 & H6 & _).
  - reflexivity.
  - vm_compute. discriminate.
  - vm_compute. discriminate.
  - vm_compute. discriminate.
  - by exists line, w1, h1.
Defined.

Lemma empty_corpus_IndexError_witness :
  lines demo_display = []
  ∧ worker_step (MatrixWorker_init 0 (0, 1)%Z) demo_display demo_host
    = Raise IndexError.
Proof.
  split; [reflexivity|].
  apply (empty_corpus_IndexError demo_display demo_host); reflexivity.
Defined.

(** ** The shutdown *)

Lemma length_shed (cs : list cell) : length (shed cs) = (length cs - 3)%nat.
Proof.
  unfold shed. rewrite length_removelast.
  destruct cs as [|? [|? ?]]; cbn; lia.
Qed.

(** A step of a worker in [Exit]: two cells off the old end, one off the
    new end, the state as it was, no draw from the dice. *)
Lemma exit_step (w : MatrixWorker) (d : MatrixDisplay) (h : Host) :
  w_state w = Exit →
  worker_step w d h = Ok (set_w_cells (shed (w_cells w)) w, exit_grid w d, h).
Proof.
  intros Hst. unfold worker_step.
  rewrite init_block_skip, bind_Ok by (rewrite Hst; done).
  rewrite write_block_skip, bind_Ok by (rewrite Hst; done).
  rewrite erase_block_skip, bind_Ok by (rewrite Hst; done).
  unfold exit_block, exit_grid. rewrite decide_True by done.
  pose proof (erase_oldest_worker w d) as Hw1.
  destruct (erase_oldest w d) as [w1 d1]. cbn in Hw1. subst w1.
  pose proof (erase_oldest_worker (set_w_cells (tail (w_cells w)) w) d1) as Hw2.
  destruct (erase_oldest _ d1) as [w2 d2]. cbn in Hw2. subst w2.
  pose proof (erase_newest_worker
                (set_w_cells (tail (tail (w_cells w)))
                             (set_w_cells (tail (w_cells w)) w)) d2) as Hw3.
  destruct (erase_newest _ d2) as [w3 d3]. cbn in Hw3. by subst w3.
Qed.

Lemma erase_oldest_vacant (w : MatrixWorker) (d : MatrixDisplay) :
  cells d = ∅ → (erase_oldest w d).2 = d.
Proof.
  intros Hc. unfold erase_oldest. destruct (w_cells w) as [|c cs]; [done|].
  cbn. apply erase_vacant. by rewrite Hc, lookup_empty.
Qed.

Lemma erase_newest_vacant (w : MatrixWorker) (d : MatrixDisplay) :
  cells d = ∅ → (erase_newest w d).2 = d.
Proof.
  intros Hc. unfold erase_newest. destruct (last (w_cells w)) as [c|]; [|done].
  cbn. apply erase_vacant. by rewrite Hc, lookup_empty.
Qed.

(** On a grid with no occupied cell the erasures change nothing. *)
Lemma exit_grid_vacant (w : MatrixWorker) (d : MatrixDisplay) :
  cells d = ∅ → exit_grid w d = d.
Proof.
  intros Hc. unfold exit_grid.
  pose proof (erase_oldest_vacant w d Hc) as H1.
  destruct (erase_oldest w d) as [w1 d1]. cbn in H1. subst d1.
  pose proof (erase_oldest_vacant w1 d Hc) as H2.
  destruct (erase_oldest w1 d) as [w2 d2]. cbn in H2. subst d2.
  by apply erase_newest_vacant.
Qed.

Lemma exit_grid_frame (w : MatrixWorker) (d : MatrixDisplay) :
  same_frame d (exit_grid w d).
Proof.
  unfold exit_grid.
  assert (Ho : ∀ w0 d0, same_frame d0 (erase_oldest w0 d0).2).
  { intros w0 d0. unfold erase_oldest. destruct (w_cells w0); cbn;
      [apply same_frame_refl|apply same_frame_erase]. }
  assert (Hn : ∀ w0 d0, same_frame d0 (erase_newest w0 d0).2).
  { intros w0 d0. unfold erase_newest. destruct (last (w_cells w0)); cbn;
      [apply same_frame_erase|apply same_frame_refl]. }
  pose proof (Ho w d) as H1. destruct (erase_oldest w d) as [w1 d1].
  pose proof (Ho w1 d1) as H2. destruct (erase_oldest w1 d1) as [w2 d2].
  pose proof (Hn w2 d2) as H3. cbn in *. eauto using same_frame_trans.
Qed.

(** The round of one worker in [Exit] that is due. *)
Lemma wake_exit_due (i : nat) (d : MatrixDisplay) (h : Host) w due dt :
  workers d !! i = Some w → w_state w = Exit →
  next_worker_wake_time d !! i = Some due →
  worker_intervals d !! i = Some dt →
  Qgtb (clock h (clock_reads h)) due = true →
  wake i d h
  = Ok (set_workers <[i := set_w_cells (shed (w_cells w)) w]>
          (exit_grid w (set_next_worker_wake_time <[i := (due + dt)%Q]> d)),
        (time_time h).2).
Proof.
  intros Hw Hst Hdue Hdt Hq. unfold wake. cbn [time_time].
  rewrite Hdue, Hq, Hdt. cbn [workers set_next_worker_wake_time].
  rewrite Hw. by rewrite exit_step.
Qed.

Lemma busy_false (d : MatrixDisplay) :
  busy d = false ↔ cells d = ∅ ∧ recent_removals d = ∅.
Proof.
  unfold busy. rewrite negb_false_iff, andb_true_iff, !bool_decide_eq_true.
  done.
Qed.

Lemma drain_more_fuel (f f' : nat) (d : MatrixDisplay) (h : Host) r :
  drain f d h = Ok r → (f ≤ f')%nat → drain f' d h = Ok r.
Proof.
  revert f' d h. induction f as [|f IH]; intros f' d h; cbn [drain].
  - destruct (busy d) eqn:Hb; [done|]. intros <- _.
    destruct f'; cbn [drain]; by rewrite Hb.
  - destruct (busy d) eqn:Hb.
    + destruct (display_step d h) as [[d1 h1]| |] eqn:Hs; cbn; [|done..].
      intros Hd Hle. destruct f' as [|f']; [lia|]. cbn [drain].
      rewrite Hb, Hs. cbn. apply IH; [done|lia].
    + intros <- _. destruct f'; cbn [drain]; by rewrite Hb.
Qed.

(** A refresh with nothing pending only flushes the window. *)
Lemma refresh_idle (d : MatrixDisplay) :
  recent_removals d = ∅ → recent_additions d = ∅ →
  refresh d
  = Ok (set_recent_additions (λ _, ∅)
          (set_recent_removals (λ _, ∅) (set_screen (draw screen_refresh) d))).
Proof.
  intros Hr Ha. unfold refresh, blank_removed.
  cbn [recent_removals set_screen]. rewrite Hr, elements_empty. cbn [foldl].
  cbn [recent_additions set_recent_removals set_screen]. rewrite Ha.
  by rewrite elements_empty.
Qed.

Lemma all_exit_broadcast (d : MatrixDisplay) : all_exit (broadcast_exit d).
Proof. intros w [w0 [-> _]]%list_elem_of_fmap. done. Qed.

(** ** Rounds in which nothing is due *)

Lemma waited_0 (h : Host) : waited 0 h = h.
Proof. by destruct h. Qed.

Lemma waited_waited (n m : nat) (h : Host) :
  waited n (waited m h) = waited (n + m) h.
Proof. unfold waited. cbn. f_equal. lia. Qed.

Lemma wake_not_due (i : nat) (d : MatrixDisplay) (h : Host) (due : Q) :
  next_worker_wake_time d !! i = Some due →
  Qgtb (clock h (clock_reads h)) due = false →
  wake i d h = Ok (d, waited 1 h).
Proof. intros Hdue Hq. unfold wake. cbn [time_time]. by rewrite Hdue, Hq. Qed.

Lemma wake_each_idle (ids : list nat) (d : MatrixDisplay) (h : Host) :
  (∀ k i, ids !! k = Some i →
     ∃ due, next_worker_wake_time d !! i = Some due
            ∧ Qgtb (clock h (k + clock_reads h)%nat) due = false) →
  wake_each ids d h = Ok (d, waited (length ids) h).
Proof.
  revert h. induction ids as [|i ids IH]; intros h Hidle; cbn [wake_each].
  - by rewrite waited_0.
  - destruct (Hidle 0%nat i) as (due & Hdue & Hq); [done|].
    rewrite (wake_not_due i d h due) by done. rewrite bind_Ok.
    rewrite IH.
    + rewrite waited_waited. cbn [length]. do 2 f_equal. f_equal. lia.
    + intros k j Hj. destruct (Hidle (S k) j) as (duej & ? & Hqj); [done|].
      exists duej. split; [done|]. cbn.
      by replace (k + S (clock_reads h))%nat with (S k + clock_reads h)%nat
        by lia.
Qed.

(** A round of the scheduler in which nothing is due changes nothing: it
    only reads the clock, once and once per worker. *)
Lemma idle_round (d : MatrixDisplay) (h : Host) :
  length (next_worker_wake_time d) = WORKERS (conf d) →
  (∀ r, (clock_reads h ≤ r < clock_reads h + (1 + WORKERS (conf d)))%nat →
        nothing_due h d r) →
  display_step d h = Ok (d, waited (1 + WORKERS (conf d)) h).
Proof.
  intros Hlen Hidle. unfold display_step. cbn [time_time].
  destruct (Hidle (clock_reads h)) as [Hq _]; [lia|]. rewrite Hq, bind_Ok.
  change (mkHost (clock h) (S (clock_reads h)) (dice h) (dice_rolls h)
                 (keyboard h) (key_polls h)) with (waited 1 h).
  rewrite wake_each_idle.
  - rewrite waited_waited, length_seq. do 2 f_equal. f_equal. lia.
  - intros k i [-> Hk]%lookup_seq. cbn [Nat.add].
    destruct (lookup_lt_is_Some_2 (next_worker_wake_time d) k) as [due Hdue];
      [lia|].
    exists due. split; [done|]. cbn.
    destruct (Hidle (k + S (clock_reads h))%nat) as [_ Hw]; [lia|].
    by apply (Hw k).
Qed.

(** While nothing is due the loop of the shutdown only waits: it is still
    looping when its rounds are used up. *)
Lemma drain_waits (fuel : nat) (d : MatrixDisplay) (h : Host) :
  busy d = true →
  length (next_worker_wake_time d) = WORKERS (conf d) →
  (∀ r, (clock_reads h ≤ r < clock_reads h + fuel * (1 + WORKERS (conf d)))%nat →
        nothing_due h d r) →
  drain fuel d h = OutOfFuel.
Proof.
  intros Hb Hlen. revert h. induction fuel as [|fuel IH]; intros h Hidle;
    cbn [drain]; rewrite Hb; [done|].
  rewrite idle_round; [|done|intros r Hr; apply Hidle; lia].
  rewrite bind_Ok. apply IH. intros r Hr. unfold waited in Hr.
  cbn [clock_reads] in Hr. apply (Hidle r). lia.
Qed.

(** ** Rounds of workers in [Exit] *)

Lemma sum_list_with_insert {A} (f : A → nat) (l : list A) (i : nat) (x y : A) :
  l !! i = Some x →
  (sum_list_with f (<[i := y]> l) + f x = sum_list_with f l + f y)%nat.
Proof.
  revert i. induction l as [|a l IH]; intros [|i] Hi; try done; simpl in *.
  - injection Hi as ->. lia.
  - specialize (IH i Hi). lia.
Qed.

Lemma sum_list_with_pos {A} (f : A → nat) (l : list A) :
  sum_list_with f l ≠ 0%nat → ∃ i x, l !! i = Some x ∧ f x ≠ 0%nat.
Proof.
  induction l as [|a l IH]; cbn; [done|]. intros Hs.
  destruct (decide (f a = 0%nat)) as [Ha|Ha].
  - destruct IH as (i & x & Hi & Hx); [lia|]. by exists (S i), x.
  - by exists 0%nat, a.
Qed.

Lemma sum_list_with_zero {A} (f : A → nat) (l : list A) (x : A) :
  sum_list_with f l = 0%nat → x ∈ l → f x = 0%nat.
Proof.
  induction l as [|a l IH]; cbn; intros Hs Hin; [by apply elem_of_nil in Hin|].
  apply elem_of_cons in Hin as [->|Hin]; [lia|]. apply IH; [lia|done].
Qed.

Lemma winds_down_refl (d : MatrixDisplay) : all_exit d → winds_down d d.
Proof. intros Hex. unfold winds_down. by split_and!. Qed.

Lemma winds_down_trans (d1 d2 d3 : MatrixDisplay) :
  winds_down d1 d2 → winds_down d2 d3 → winds_down d1 d3.
Proof.
  unfold winds_down.
  intros (? & ? & ? & ? & ? & ? & ? & ? & Hv1) (? & ? & ? & ? & ? & ? & ? & ? & Hv2).
  split_and!; try congruence; [done|lia|].
  intros Hc. destruct (Hv1 Hc) as [Hc2 Hr2]. destruct (Hv2 Hc2) as [Hc3 Hr3].
  split; congruence.
Qed.

(** The round of one worker in [Exit]: when the worker is due it sheds its
    cells and its due time advances; when it is not, nothing changes. *)
Lemma wake_exit (i : nat) (d : MatrixDisplay) (h : Host) :
  all_exit d → (i < length (workers d))%nat →
  length (worker_intervals d) = length (workers d) →
  length (next_worker_wake_time d) = length (workers d) →
  ∃ d' w due,
    wake i d h = Ok (d', waited 1 h)
    ∧ winds_down d d'
    ∧ workers d !! i = Some w
    ∧ next_worker_wake_time d !! i = Some due
    ∧ (∀ j, j ≠ i → workers d' !! j = workers d !! j
                    ∧ next_worker_wake_time d' !! j
                      = next_worker_wake_time d !! j)
    ∧ (if Qgtb (clock h (clock_reads h)) due
       then w_cells w ≠ [] → (backlog d' < backlog d)%nat
       else d' = d).
Proof.
  intros Hex Hi Hli Hlk.
  destruct (lookup_lt_is_Some_2 (workers d) i) as [w Hw]; [lia|].
  destruct (lookup_lt_is_Some_2 (next_worker_wake_time d) i) as [due Hdue];
    [lia|].
  destruct (lookup_lt_is_Some_2 (worker_intervals d) i) as [dt Hdt]; [lia|].
  assert (Hst : w_state w = Exit) by (apply Hex; by eapply list_elem_of_lookup_2).
  destruct (Qgtb (clock h (clock_reads h)) due) eqn:Hq.
  - set (d0 := set_next_worker_wake_time <[i := (due + dt)%Q]> d).
    set (w' := set_w_cells (shed (w_cells w)) w).
    exists (set_workers <[i := w']> (exit_grid w d0)), w, due.
    destruct (exit_grid_frame w d0)
      as (Hconf & _ & Hws & _ & Hint & Hwake & Hri & Hnr).
    cbn in Hconf, Hws, Hint, Hwake, Hri, Hnr.
    assert (Hsum : (backlog (set_workers <[i := w']> (exit_grid w d0))
                    + length (w_cells w)
                    = backlog d + length (shed (w_cells w)))%nat).
    { unfold backlog. cbn [workers set_workers]. rewrite Hws.
      by apply (sum_list_with_insert (λ w, length (w_cells w)) _ i w w'). }
    rewrite length_shed in Hsum.
    split_and!.
    + by rewrite (wake_exit_due i d h w due dt).
    + unfold winds_down. cbn [conf worker_intervals next_refresh
        refresh_interval workers next_worker_wake_time set_workers].
      rewrite Hconf, Hint, Hnr, Hri, Hws, Hwake, !length_insert.
      split_and!; try done.
      * unfold all_exit. cbn [workers set_workers]. rewrite Hws.
        intros x [j Hj]%list_elem_of_lookup_1.
        apply list_lookup_insert_Some in Hj as [(_ & <- & _)|[_ Hj]];
          [done|]. apply Hex. by eapply list_elem_of_lookup_2.
      * lia.
      * intros Hc.
        assert (Hd0 : exit_grid w d0 = d0) by by apply exit_grid_vacant.
        cbn [cells recent_removals set_workers]. by rewrite Hd0.
    + done.
    + done.
    + intros j Hj. cbn [workers next_worker_wake_time set_workers].
      rewrite Hws, Hwake.
      by rewrite !list_lookup_insert_ne by done.
    + rewrite Hq. intros Hne.
      assert (length (w_cells w) ≠ 0%nat) by (by destruct (w_cells w)). lia.
  - exists d, w, due. rewrite Hq.
    split_and!; [by apply (wake_not_due i d h due)
                |by apply winds_down_refl|done..].
Qed.

Lemma wake_each_exit (ids : list nat) (d : MatrixDisplay) (h : Host) :
  NoDup ids → all_exit d →
  (∀ i, i ∈ ids → (i < length (workers d))%nat) →
  length (worker_intervals d) = length (workers d) →
  length (next_worker_wake_time d) = length (workers d) →
  ∃ d',
    wake_each ids d h = Ok (d', waited (length ids) h)
    ∧ winds_down d d'
    ∧ (∀ j, j ∉ ids → workers d' !! j = workers d !! j
                      ∧ next_worker_wake_time d' !! j
                        = next_worker_wake_time d !! j)
    ∧ (∀ k i w due,
         ids !! k = Some i → workers d !! i = Some w → w_cells w ≠ [] →
         next_worker_wake_time d !! i = Some due →
         if Qgtb (clock h (k + clock_reads h)%nat) due
         then (backlog d' < backlog d)%nat
         else workers d' !! i = Some w
              ∧ next_worker_wake_time d' !! i = Some due).
Proof.
  revert d h. induction ids as [|i ids IH]; intros d h Hnd Hex Hids Hli Hlk;
    cbn [wake_each].
  - exists d. rewrite waited_0.
    split_and!; [done|by apply winds_down_refl|done|done].
  - apply NoDup_cons in Hnd as [Hi Hnd].
    destruct (wake_exit i d h Hex) as (d1 & w0 & due0 & Hw & Hwd & Hw0 & Hdue0
                                        & Hother & Hdone); [set_solver|done..|].
    rewrite Hw, bind_Ok.
    pose proof Hwd as (_ & Hint1 & _ & _ & Hlw1 & Hlk1 & Hex1 & Hb1 & _).
    destruct (IH d1 (waited 1 h) Hnd Hex1)
      as (d' & Hrun & Hwd' & Hout & Hin).
    { intros j Hj. rewrite Hlw1. apply Hids. set_solver. }
    { by rewrite Hint1, Hlw1. }
    { by rewrite Hlk1, Hlw1. }
    exists d'. split_and!.
    + rewrite Hrun, waited_waited. cbn [length]. do 2 f_equal. f_equal. lia.
    + by eapply winds_down_trans.
    + intros j Hj. destruct (Hout j) as [-> ->]; [set_solver|].
      apply Hother. set_solver.
    + pose proof Hwd' as (_ & _ & _ & _ & _ & _ & _ & Hb' & _).
      intros k i' w due Hk Hw' Hne Hdue. destruct k as [|k]; cbn in Hk.
      * injection Hk as <-.
        assert (w = w0) as -> by congruence.
        assert (due = due0) as -> by congruence.
        cbn [Nat.add]. destruct (Qgtb _ _).
        -- specialize (Hdone Hne). lia.
        -- subst d1. destruct (Hout i Hi) as [-> ->]. done.
      * assert (i' ≠ i).
        { intros ->. apply Hi. by eapply list_elem_of_lookup_2. }
        destruct (Hother i') as [Hwi Hki]; [done|].
        specialize (Hin k i' w due Hk). rewrite Hwi, Hki in Hin.
        specialize (Hin Hw' Hne Hdue). unfold waited in Hin.
        cbn [clock clock_reads Nat.add] in Hin.
        replace (S k + clock_reads h)%nat with (k + S (clock_reads h))%nat
          by lia.
        destruct (Qgtb (clock h (k + S (clock_reads h))) due); [lia|done].
Qed.

(** A round of the scheduler on workers that are all in [Exit].  It
    returns; the workers stay in [Exit] and list no more cells than
    before.  A worker that lists cells sheds some when the reading made
    for it is beyond its due time, and is otherwise left as it was, with
    its due time.  On a grid with no occupied cell the round occupies none,
    and the pending removals are emptied when the refresh is due and left
    as they were, with the due time of the refresh, when it is not. *)
Lemma exit_round (d : MatrixDisplay) (h : Host) :
  reachable d → all_exit d →
  ∃ d',
    display_step d h = Ok (d', waited (1 + WORKERS (conf d)) h)
    ∧ reachable d' ∧ all_exit d' ∧ conf d' = conf d
    ∧ (backlog d' ≤ backlog d)%nat
    ∧ (∀ i w due,
         workers d !! i = Some w → w_cells w ≠ [] →
         next_worker_wake_time d !! i = Some due →
         if Qgtb (clock h (clock_reads h + 1 + i)%nat) due
         then (backlog d' < backlog d)%nat
         else workers d' !! i = Some w
              ∧ next_worker_wake_time d' !! i = Some due)
    ∧ (cells d = ∅ →
       cells d' = ∅
       ∧ if Qgtb (clock h (clock_reads h)) (next_refresh d)
         then recent_removals d' = ∅
         else recent_removals d' = recent_removals d
              ∧ next_refresh d' = next_refresh d).
Proof.
  intros Hr Hex.
  pose proof (reachable_sys_inv d Hr) as Hinv.
  destruct (inv_lengths _ _ Hinv) as (Hlw & Hli & Hlk).
  assert (Hstep : ∃ d0,
            (if Qgtb (clock h (clock_reads h)) (next_refresh d)
             then refresh (set_next_refresh
                             (next_refresh d + refresh_interval d)%Q d)
             else Ok d) = Ok d0
            ∧ workers d0 = workers d ∧ conf d0 = conf d
            ∧ worker_intervals d0 = worker_intervals d
            ∧ next_worker_wake_time d0 = next_worker_wake_time d
            ∧ cells d0 = cells d
            ∧ if Qgtb (clock h (clock_reads h)) (next_refresh d)
              then recent_removals d0 = ∅
              else recent_removals d0 = recent_removals d
                   ∧ next_refresh d0 = next_refresh d).
  { destruct (Qgtb _ _).
    - destruct (refresh_ok (set_next_refresh
                              (next_refresh d + refresh_interval d)%Q d))
        as [dr Hdr]; [apply Hinv|].
      exists dr. split; [done|].
      by apply refresh_inv in Hdr as (s & -> & _ & _).
    - exists d. by split_and!. }
  destruct Hstep as (d0 & Hd0 & Hws0 & Hc0 & Hi0 & Hk0 & Hcells0 & Hrem0).
  destruct (wake_each_exit (seq 0 (WORKERS (conf d0))) d0 (waited 1 h))
    as (d' & Hrun & Hwd & _ & Hin).
  { apply NoDup_seq. }
  { intros w Hw. apply Hex. by rewrite <- Hws0. }
  { intros i [_ Hi]%elem_of_seq. rewrite Hws0. rewrite Hc0 in Hi. lia. }
  { by rewrite Hi0, Hws0, Hli, Hlw. }
  { by rewrite Hk0, Hws0, Hlk, Hlw. }
  assert (Hs : display_step d h = Ok (d', waited (1 + WORKERS (conf d)) h)).
  { unfold display_step. cbn [time_time].
    change (mkHost (clock h) (S (clock_reads h)) (dice h) (dice_rolls h)
                   (keyboard h) (key_polls h)) with (waited 1 h).
    rewrite Hd0, bind_Ok, Hrun, waited_waited, length_seq, Hc0.
    do 2 f_equal. f_equal. lia. }
  destruct Hwd as (Hc' & _ & Hnr' & _ & _ & _ & Hex' & Hb' & Hv').
  assert (Hb0 : backlog d0 = backlog d) by (unfold backlog; by rewrite Hws0).
  exists d'. split_and!; [done| |done|congruence|lia| |].
  - by eapply display_step_reachable.
  - intros i w due Hw Hne Hdue.
    assert (Hi : (i < WORKERS (conf d))%nat)
      by (apply lookup_lt_Some in Hw; lia).
    specialize (Hin i i w due). rewrite Hws0, Hk0, Hc0 in Hin.
    rewrite lookup_seq in Hin. specialize (Hin (conj eq_refl Hi) Hw Hne Hdue).
    unfold waited in Hin. cbn [clock clock_reads Nat.add] in Hin.
    replace (clock_reads h + 1 + i)%nat with (i + S (clock_reads h))%nat
      by lia.
    destruct (Qgtb (clock h (i + S (clock_reads h))) due); [lia|done].
  - intros Hc. destruct Hv' as [Hc1 Hr1]; [congruence|]. split; [done|].
    destruct (Qgtb (clock h (clock_reads h)) (next_refresh d)).
    + congruence.
    + destruct Hrem0. split; congruence.
Qed.

(** With no cell occupied, the loop ends at the first round that finds the
    refresh due. *)
Lemma drain_vacant (k : nat) (d : MatrixDisplay) (h : Host) :
  reachable d → all_exit d → cells d = ∅ →
  (∀ r, (k + clock_reads h ≤ r)%nat →
        Qgtb (clock h r) (next_refresh d) = true) →
  ∃ fuel d',
    drain fuel d h = Ok (d', waited (fuel * (1 + WORKERS (conf d))) h)
    ∧ busy d' = false ∧ reachable d' ∧ all_exit d' ∧ conf d' = conf d.
Proof.
  revert d h. induction k as [|k IH]; intros d h Hr Hex Hc Hlate.
  all: destruct (busy d) eqn:Hb;
    [|exists 0%nat, d; cbn [drain]; rewrite Hb, waited_0; by split_and!].
  all: destruct (exit_round d h Hr Hex)
         as (d1 & Hs & Hr1 & Hex1 & Hconf & _ & _ & Hv).
  all: destruct (Hv Hc) as [Hc1 Hrem]; clear Hv.
  - rewrite Hlate in Hrem by lia.
    exists 1%nat, d1. cbn [drain]. rewrite Hb, Hs, bind_Ok.
    assert (Hb1 : busy d1 = false) by by apply busy_false.
    rewrite Hb1. split_and!; try done. do 2 f_equal. f_equal. lia.
  - destruct (Qgtb (clock h (clock_reads h)) (next_refresh d)).
    + exists 1%nat, d1. cbn [drain]. rewrite Hb, Hs, bind_Ok.
      assert (Hb1 : busy d1 = false) by by apply busy_false.
      rewrite Hb1. split_and!; try done. do 2 f_equal. f_equal. lia.
    + destruct Hrem as [_ Hnr].
      destruct (IH d1 (waited (1 + WORKERS (conf d)) h))
        as (fuel & d' & Hd & Hb' & Hr' & Hex' & Hconf'); try done.
      { intros r Hle. cbn in Hle. rewrite Hnr. apply Hlate. lia. }
      exists (S fuel), d'. cbn [drain]. rewrite Hb, Hs, bind_Ok, Hd.
      rewrite waited_waited, Hconf.
      split_and!; try done; [|congruence]. do 2 f_equal. f_equal. lia.
Qed.

(** Under a clock whose readings end up beyond every time, the loop
    ends. *)
Lemma drain_ends (n : nat) (d : MatrixDisplay) (h : Host) :
  reachable d → all_exit d → advancing (clock h) → (backlog d ≤ n)%nat →
  ∃ fuel d',
    drain fuel d h = Ok (d', waited (fuel * (1 + WORKERS (conf d))) h)
    ∧ busy d' = false ∧ reachable d' ∧ all_exit d' ∧ conf d' = conf d.
Proof.
  revert d h. induction n as [|n IH]; intros d h Hr Hex Hadv Hn.
  all: destruct (decide (backlog d = 0%nat)) as [Hz|Hnz].
  1,3: destruct (Hadv (next_refresh d)) as [m Hm];
       apply (drain_vacant m d h); try done;
       [|intros r Hle; apply Hm; lia];
       pose proof (reachable_sys_inv d Hr) as Hinv;
       apply map_empty; intros c;
       destruct (cells d !! c) as [[o v]|] eqn:Hc; [|done];
       destruct (inv_owned _ _ Hinv c o v Hc) as (w & Hw & Hin);
       apply list_elem_of_lookup_2 in Hw;
       pose proof (sum_list_with_zero (λ w, length (w_cells w)) _ w Hz Hw)
         as Hlen; cbn in Hlen;
       destruct (w_cells w); [by apply elem_of_nil in Hin|done].
  - lia.
  - destruct (sum_list_with_pos (λ w, length (w_cells w)) (workers d) Hnz)
      as (i & w & Hw & Hlen).
    assert (Hne : w_cells w ≠ []) by (by destruct (w_cells w)).
    pose proof (reachable_sys_inv d Hr) as Hinv.
    destruct (inv_lengths _ _ Hinv) as (Hlw & _ & Hlk).
    destruct (lookup_lt_is_Some_2 (next_worker_wake_time d) i) as [due Hdue].
    { apply lookup_lt_Some in Hw. lia. }
    destruct (Hadv due) as [m Hm].
    assert (Hlate : ∀ r, (m + clock_reads h ≤ r)%nat →
                         Qgtb (clock h r) due = true)
      by (intros r Hle; apply Hm; lia).
    clear Hm Hinv Hlw Hlk Hnz Hlen.
    revert d h Hr Hex Hadv Hn Hw Hdue Hlate.
    induction m as [|m IHm]; intros d h Hr Hex Hadv Hn Hw Hdue Hlate.
    all: destruct (busy d) eqn:Hb;
      [|exists 0%nat, d; cbn [drain]; rewrite Hb, waited_0; by split_and!].
    all: destruct (exit_round d h Hr Hex)
           as (d1 & Hs & Hr1 & Hex1 & Hconf & Hle1 & Hin & _).
    all: specialize (Hin i w due Hw Hne Hdue).
    + rewrite Hlate in Hin by lia.
      destruct (IH d1 (waited (1 + WORKERS (conf d)) h))
        as (fuel & d' & Hd & Hb' & Hr' & Hex' & Hconf'); try done; [lia|].
      exists (S fuel), d'. cbn [drain]. rewrite Hb, Hs, bind_Ok, Hd.
      rewrite waited_waited, Hconf.
      split_and!; try done; [|congruence]. do 2 f_equal. f_equal. lia.
    + destruct (Qgtb (clock h (clock_reads h + 1 + i)%nat) due).
      * destruct (IH d1 (waited (1 + WORKERS (conf d)) h))
          as (fuel & d' & Hd & Hb' & Hr' & Hex' & Hconf'); try done; [lia|].
        exists (S fuel), d'. cbn [drain]. rewrite Hb, Hs, bind_Ok, Hd.
        rewrite waited_waited, Hconf.
        split_and!; try done; [|congruence]. do 2 f_equal. f_equal. lia.
      * destruct Hin as [Hw1 Hdue1].
        destruct (IHm d1 (waited (1 + WORKERS (conf d)) h))
          as (fuel & d' & Hd & Hb' & Hr' & Hex' & Hconf'); try done; [lia| |].
        { intros r Hle. cbn in Hle. apply Hlate. lia. }
        exists (S fuel), d'. cbn [drain]. rewrite Hb, Hs, bind_Ok, Hd.
        rewrite waited_waited, Hconf.
        split_and!; try done; [|congruence]. do 2 f_equal. f_equal. lia.
Qed.

Lemma length_iter_shed (k : nat) (cs : list cell) :
  length (Nat.iter k shed cs) = (length cs - 3 * k)%nat.
Proof.
  induction k as [|k IH]; [cbn; lia|].
  rewrite Nat.iter_succ, length_shed, IH. lia.
Qed.

(** C3, as stated, fails.  In the run of the examples under a clock that
    stalls, one cell is occupied at the key press, whatever the length [n]
    of the stall.  With no stall the loop of the shutdown ends
    in two rounds ([run] returns on a budget of three).  With a stall of
    [n] readings, [run] is still looping after [n / 3] rounds of that loop:
    the rounds in which nothing is due change nothing.  (With [n = 30] it
    returns on a budget of thirteen.)  So the number of rounds is not
    bounded by the number of occupied cells. *)
Lemma shutdown_waits_for_the_clock :
  size (cells signal_display) = 1%nat
  ∧ (∀ n, MatrixDisplay_init demo_config demo_size (stalled_host n)
          = Ok (demo_display, stalled_start n))
  ∧ (∀ n, display_step spaced_display (waited 2 (stalled_start n))
          = Ok (signal_display, waited 5 (mkHost (stalled_clock n) 3 (λ _, 0%N)
                                                 10 (λ _, true) 0)))
  ∧ (∃ r, run 3 1000 spaced_display (stalled_start 0) = Ok r)
  ∧ (∀ n fuel, (3 * fuel ≤ n)%nat →
       run (S fuel) 1000 spaced_display (stalled_start n) = OutOfFuel)
  ∧ (∃ r, run 13 1000 spaced_display (stalled_start 30) = Ok r).
Proof.
  assert (Hsig : ∀ n,
            display_step spaced_display (waited 2 (stalled_start n))
            = Ok (signal_display,
                  waited 5 (mkHost (stalled_clock n) 3 (λ _, 0%N) 10
                                   (λ _, true) 0)))
    by (intros n; vm_compute; reflexivity).
  split_and!.
  - by vm_compute.
  - intros n. vm_compute. reflexivity.
  - exact Hsig.
  - eexists. vm_compute. reflexivity.
  - intros n fuel Hfuel.
    assert (Hrun : run (S fuel) 1000 spaced_display (stalled_start n)
                   = shutdown fuel signal_display
                       (mkHost (stalled_clock n) 8 (λ _, 0%N) 10 (λ _, true) 1)).
    { transitivity
        ('(d, h) ← display_step spaced_display (waited 2 (stalled_start n));
         let '(key, h) := key_pressed h in
         if key then shutdown fuel d h
         else run_loop fuel (100 + 1000)%Q d h); [reflexivity|].
      rewrite Hsig, bind_Ok. reflexivity. }
    rewrite Hrun. unfold shutdown. rewrite drain_waits; [done| | |].
    + by vm_compute.
    + by vm_compute.
    + assert (HW : WORKERS (conf (broadcast_exit signal_display)) = 2%nat)
        by (by vm_compute).
      rewrite HW. cbn [clock_reads clock]. intros r Hr.
      assert (Hclk : stalled_clock n r = (10003 # 100)%Q).
      { unfold stalled_clock.
        destruct (Nat.ltb_spec r 5); [lia|].
        destruct (Nat.ltb_spec r (8 + n)); [done|lia]. }
      unfold nothing_due. cbn [clock]. rewrite Hclk. split.
      * by vm_compute.
      * intros [|[|i]] due Hdue; vm_compute in Hdue;
          [injection Hdue as <-; by vm_compute..|discriminate].
  - eexists. vm_compute. reflexivity.
Qed.

(** C3, amended.  After the exit broadcast a step of a worker takes two
    cells off the old end and one off the new end of its list and leaves
    the worker in [Exit]; with a non-negative [MAX_LEN], a list is empty
    after [ceil(MAX_LEN / 3)] such steps.  The number of rounds of the
    scheduler that the shutdown takes is not bounded by the occupied cells,
    it follows the clock: while no reading of the clock is beyond a due
    time, the rounds change nothing, and the loop is still running when
    they are used up.  Under a clock whose readings end up beyond every
    time, the loop ends after finitely many rounds, each of which has read
    the clock once and once per worker, with the occupancy map and the
    pending removals empty; the final refresh then only flushes the
    window, and the workers are still in [Exit]. *)
Theorem shutdown_drains (d : MatrixDisplay) (h : Host) :
  reachable d →
  (∀ w d0 h0, w_state w = Exit →
     ∃ w' d1, worker_step w d0 h0 = Ok (w', d1, h0)
              ∧ w_state w' = Exit
              ∧ w_cells w' = removelast (tail (tail (w_cells w))))
  ∧ ((0 ≤ MAX_LEN (conf d))%Z →
     ∀ w, w ∈ workers (broadcast_exit d) →
       Nat.iter (Z.to_nat ((MAX_LEN (conf d) + 2) / 3)) shed (w_cells w) = [])
  ∧ (∀ fuel,
       busy (broadcast_exit d) = true →
       (∀ r, (clock_reads h ≤ r
              < clock_reads h + fuel * (1 + WORKERS (conf d)))%nat →
             nothing_due h (broadcast_exit d) r) →
       drain fuel (broadcast_exit d) h = OutOfFuel
       ∧ shutdown fuel d h = OutOfFuel)
  ∧ (advancing (clock h) →
     ∃ n d1 d',
       drain n (broadcast_exit d) h
       = Ok (d1, waited (n * (1 + WORKERS (conf d))) h)
       ∧ cells d1 = ∅ ∧ recent_removals d1 = ∅
       ∧ refresh d1 = Ok d'
       ∧ (∀ fuel, (n ≤ fuel)%nat →
            shutdown fuel d h
            = Ok (d', waited (n * (1 + WORKERS (conf d))) h))
       ∧ calls (screen d') = calls (screen d1) ++ [screen_refresh]
       ∧ cells d' = ∅ ∧ recent_removals d' = ∅ ∧ recent_additions d' = ∅
       ∧ all_exit d').
Proof.
  intros Hr.
  assert (Hr0 : reachable (broadcast_exit d))
    by (eapply reach_step; [exact Hr|apply sys_exit]).
  pose proof (all_exit_broadcast d) as Hex0.
  split_and!.
  - intros w d0 h0 Hst. do 2 eexists. split; [by apply exit_step|done].
  - intros HM w [w0 [-> Hw0]]%list_elem_of_fmap. cbn [w_cells set_w_state].
    pose proof (reachable_short d Hr HM w0 Hw0) as Hlen.
    pose proof (Z.div_mod (MAX_LEN (conf d) + 2) 3).
    pose proof (Z.mod_pos_bound (MAX_LEN (conf d) + 2) 3).
    apply length_zero_iff_nil. rewrite length_iter_shed. lia.
  - intros fuel Hb Hidle.
    assert (Hd : drain fuel (broadcast_exit d) h = OutOfFuel).
    { apply drain_waits; [done| |done].
      destruct (inv_lengths _ _ (reachable_sys_inv _ Hr0)) as (_ & _ & Hlk).
      exact Hlk. }
    split; [done|]. unfold shutdown. by rewrite Hd.
  - intros Hadv.
    destruct (drain_ends (backlog (broadcast_exit d)) (broadcast_exit d) h)
      as (n & d1 & Hd & Hb & Hr1 & Hex1 & _); try done.
    apply busy_false in Hb as [Hc1 Hrem1].
    assert (Ha1 : recent_additions d1 = ∅).
    { pose proof (inv_additions _ _ (reachable_sys_inv d1 Hr1)) as Hsub.
      rewrite Hc1, dom_empty_L in Hsub. set_solver. }
    pose proof (refresh_idle d1 Hrem1 Ha1) as Href.
    cbn [conf broadcast_exit set_workers] in Hd.
    eexists n, d1, _. split_and!; try done.
    intros fuel Hfuel. unfold shutdown.
    rewrite (drain_more_fuel n fuel _ _ _ Hd Hfuel), bind_Ok, Href. done.
Qed.

Lemma ticking_fresh_init :
  MatrixDisplay_init demo_config demo_size ticking_host
  = Ok (ticking_fresh, ticking_start).
Proof. vm_compute. reflexivity. Qed.

Lemma ticking_signal_step :
  display_step ticking_display (waited 2 ticking_start)
  = Ok (ticking_signal,
        mkHost (clock ticking_host) 8 (dice ticking_host) 10
               (keyboard ticking_host) 0).
Proof. vm_compute. reflexivity. Qed.

Lemma ticking_signal_reachable : reachable ticking_signal.
Proof.
  eapply display_step_reachable; [|apply ticking_signal_step].
  apply reach_add_file. eapply reach_fresh, ticking_fresh_init.
Qed.

Lemma ticking_run (fuel : nat) :
  run (S fuel) 1000 ticking_display ticking_start
  = shutdown fuel ticking_signal ticking_signal_host.
Proof.
  transitivity
    ('(d, h) ← display_step ticking_display (waited 2 ticking_start);
     let '(key, h) := key_pressed h in
     if key then shutdown fuel d h
     else run_loop fuel ((10003 # 100) + 1000)%Q d h); [reflexivity|].
  rewrite ticking_signal_step, bind_Ok. reflexivity.
Qed.

Lemma ticking_advancing : advancing (clock ticking_signal_host).
Proof.
  intros [a b]. exists (Z.to_nat (100 * Z.abs a) + 1)%nat. intros r Hr.
  cbn [clock ticking_signal_host ticking_host].
  unfold Qgtb. apply negb_true_iff, not_true_iff_false.
  rewrite Qle_bool_iff. unfold Qle. cbn [Qnum Qden].
  pose proof (Pos2Z.is_pos b). nia.
Qed.

Lemma shutdown_drains_witness :
  MatrixDisplay_init demo_config demo_size ticking_host
  = Ok (ticking_fresh, ticking_start)
  ∧ (∀ fuel, run (S fuel) 1000 ticking_display ticking_start
             = shutdown fuel ticking_signal ticking_signal_host)
  ∧ reachable ticking_signal
  ∧ advancing (clock ticking_signal_host)
  ∧ busy (broadcast_exit ticking_signal) = true
  ∧ ∃ n d1 d',
      drain n (broadcast_exit ticking_signal) ticking_signal_host
      = Ok (d1, waited (n * (1 + WORKERS (conf ticking_signal)))
                       ticking_signal_host)
      ∧ cells d1 = ∅ ∧ recent_removals d1 = ∅
      ∧ refresh d1 = Ok d'
      ∧ (∀ fuel, (n ≤ fuel)%nat →
           shutdown fuel ticking_signal ticking_signal_host
           = Ok (d', waited (n * (1 + WORKERS (conf ticking_signal)))
                            ticking_signal_host))
      ∧ calls (screen d') = calls (screen d1) ++ [screen_refresh]
      ∧ cells d' = ∅ ∧ recent_removals d' = ∅ ∧ recent_additions d' = ∅
      ∧ all_exit d'.
Proof.
  split_and!; [apply ticking_fresh_init|apply ticking_run
              |apply ticking_signal_reachable|apply ticking_advancing
              |by vm_compute|].
  exact (proj2 (proj2 (proj2 (shutdown_drains ticking_signal
                                ticking_signal_host
                                ticking_signal_reachable)))
           ticking_advancing).
Defined.

(** * Further properties *)

(** ** Writes and erasures of the same cell *)

(** X1. Once a worker has written a cell, the erasure of that cell by any
    other worker changes nothing, whoever held the cell before: the cell
    stays with the last writer and its glyph. *)
Theorem late_erase_spares_the_new_owner (d : MatrixDisplay) (c : cell)
  (a b : nat) (v : char) :
  a ≠ b →
  erase c a (write v c b d) = write v c b d
  ∧ cells (erase c a (write v c b d)) !! c = Some (b, v)
  ∧ c ∈ recent_additions (erase c a (write v c b d))
  ∧ c ∉ recent_removals (erase c a (write v c b d)).
Proof.
  intros Hne.
  destruct (write_grid d v c b) as (Hc & Ha & Hr & _).
  assert (Hown : cells (write v c b d) !! c = Some (b, v))
    by by rewrite Hc, lookup_insert_eq.
  assert (Hid : erase c a (write v c b d) = write v c b d)
    by (eapply erase_foreign; [exact Hown|congruence]).
  rewrite Hid, Ha, Hr. split_and!; [done..| |]; set_solver.
Qed.

(** X2. A write followed by the erasure of the same cell by the same
    worker leaves the cell vacant and pending for removal only; the
    erasure followed by a write leaves it occupied and pending for
    addition only.  Either way the later call cancels what the earlier one
    left pending. *)
Theorem write_and_erase_cancel (d : MatrixDisplay) (c : cell) (a : nat)
  (v : char) :
  (cells (erase c a (write v c a d)) = delete c (cells d)
   ∧ recent_removals (erase c a (write v c a d)) = recent_removals d ∪ {[c]}
   ∧ recent_additions (erase c a (write v c a d)) = recent_additions d ∖ {[c]})
  ∧ (cells (write v c a (erase c a d)) = <[c := (a, v)]> (cells d)
     ∧ recent_additions (write v c a (erase c a d)) = recent_additions d ∪ {[c]}
     ∧ recent_removals (write v c a (erase c a d)) = recent_removals d ∖ {[c]}).
Proof.
  split.
  - destruct (write_grid d v c a) as (Hc & Ha & Hr & _).
    assert (Hown : cells (write v c a d) !! c = Some (a, v))
      by by rewrite Hc, lookup_insert_eq.
    destruct (erase_owner _ c a v Hown) as (Hc' & Hr' & Ha' & _).
    rewrite Hc', Hr', Ha', Hc, Ha, Hr. split_and!.
    + by rewrite delete_insert_eq.
    + apply set_eq. intros x. destruct (decide (x = c)); set_solver.
    + set_solver.
  - destruct (write_grid (erase c a d) v c a) as (Hc & Ha & Hr & _).
    rewrite Hc, Ha, Hr.
    destruct (cells d !! c) as [[o v0]|] eqn:Hd.
    + destruct (decide (o = a)) as [->|Hne].
      * destruct (erase_owner d c a v0 Hd) as (Hc' & Hr' & Ha' & _).
        rewrite Hc', Hr', Ha'. split_and!.
        -- by rewrite insert_delete_eq.
        -- apply set_eq. intros x. destruct (decide (x = c)); set_solver.
        -- set_solver.
      * by rewrite (erase_foreign d c a o v0 Hd Hne).
    + by rewrite (erase_vacant d c a Hd).
Qed.

Lemma with_calls_id (d : MatrixDisplay) :
  set_screen (λ s, mkScreen (getmaxyx s) (calls s ++ [])) d = d.
Proof. destruct d as [? [? ?] ? ? ? ? ? ? ? ? ?]. unfold set_screen. cbn. by rewrite app_nil_r. Qed.

Lemma blank_removed_exact_aux (d : MatrixDisplay) (cs : list cell) :
  ∀ d0, cells d0 = cells d →
    foldl (λ d c, if decide (c ∈ dom (cells d)) then d
                  else set_screen (draw (addstr c.1 c.2 32%N no_attr)) d) d0 cs
    = set_screen (λ s, mkScreen (getmaxyx s)
        (calls s ++ map blank_call
           (List.filter (λ c, negb (bool_decide (c ∈ dom (cells d)))) cs))) d0.
Proof.
  induction cs as [|c cs IH]; intros d0 Hc; cbn [foldl List.filter map].
  - by rewrite with_calls_id.
  - rewrite Hc. case_decide as Hin.
    + rewrite bool_decide_eq_true_2 by done. cbn [negb]. by apply IH.
    + rewrite bool_decide_eq_false_2 by done. cbn [negb map].
      rewrite IH by done. unfold set_screen, draw, blank_call. cbn.
      by rewrite <- app_assoc.
Qed.

Lemma blank_removed_exact (d : MatrixDisplay) :
  blank_removed d
  = set_screen (λ s, mkScreen (getmaxyx s)
                       (calls s ++ map blank_call (vacant_removals d))) d.
Proof. by apply (blank_removed_exact_aux d). Qed.

Lemma settle_added_exact (d : MatrixDisplay) (cs : list cell) :
  ∀ d0, cells d0 = cells d →
        (∀ c, c ∈ cs → is_Some (cells d !! c)) →
        settle_added cs d0
        = Ok (set_screen (λ s, mkScreen (getmaxyx s)
                            (calls s ++ map (settle_call d) cs)) d0).
Proof.
  induction cs as [|c cs IH]; intros d0 Hc Hin; cbn [settle_added map].
  - by rewrite with_calls_id.
  - rewrite Hc. destruct (Hin c) as [[o v] Hv]; [set_solver|]. rewrite Hv.
    rewrite IH; [|done|intros; apply Hin; set_solver].
    unfold set_screen, draw, settle_call, glyph_at. cbn. rewrite Hv.
    by rewrite <- app_assoc.
Qed.

Lemma settle_added_KeyError (cs : list cell) (d : MatrixDisplay) (c : cell) :
  c ∈ cs → cells d !! c = None → settle_added cs d = Raise KeyError.
Proof.
  revert d. induction cs as [|c0 cs IH]; intros d Hin Hc; [set_solver|].
  cbn [settle_added]. destruct (cells d !! c0) as [[o v]|] eqn:H0; [|done].
  apply IH; [|done]. apply elem_of_cons in Hin as [->|?]; [congruence|done].
Qed.

Lemma refresh_exact (d : MatrixDisplay) :
  recent_additions d ⊆ dom (cells d) →
  refresh d
  = Ok (set_recent_additions (λ _, ∅)
          (set_recent_removals (λ _, ∅)
             (set_screen
                (λ s, mkScreen (getmaxyx s)
                        (calls s ++ screen_refresh
                           :: map blank_call (vacant_removals d)
                           ++ map (settle_call d)
                                (elements (recent_additions d)))) d))).
Proof.
  intros Hsub. unfold refresh. rewrite blank_removed_exact.
  rewrite (settle_added_exact d); [|done|].
  - cbn. unfold set_recent_additions, set_recent_removals, set_screen, draw.
    cbn. do 3 f_equal. rewrite <- !app_assoc. done.
  - intros c Hc%elem_of_elements. apply elem_of_dom. cbn in Hc. set_solver.
Qed.

(** X3. [refresh] returns exactly when every pending addition is an
    occupied cell, and otherwise raises [KeyError].  When it returns, the
    occupancy map is as before, both pending sets are empty, and the
    window has received, in this order: the flush, a blank for every
    pending removal that is vacant, and for every pending addition its
    glyph in the steady colour. *)
Theorem refresh_flushes_or_KeyError (d : MatrixDisplay) :
  (recent_additions d ⊆ dom (cells d) →
   ∃ d', refresh d = Ok d'
         ∧ cells d' = cells d
         ∧ recent_additions d' = ∅ ∧ recent_removals d' = ∅
         ∧ same_frame d d'
         ∧ calls (screen d')
           = calls (screen d)
             ++ screen_refresh
                :: map blank_call (vacant_removals d)
                ++ map (settle_call d) (elements (recent_additions d)))
  ∧ (∀ c, c ∈ recent_additions d → cells d !! c = None →
          refresh d = Raise KeyError).
Proof.
  split.
  - intros Hsub. eexists. split; [by apply refresh_exact|].
    by split_and!.
  - intros c Hc Hv. unfold refresh. rewrite blank_removed_exact.
    erewrite settle_added_KeyError; [done| |exact Hv].
    apply elem_of_elements. exact Hc.
Qed.

Lemma filter_all {A : Type} (f : A → bool) (l : list A) :
  (∀ x, x ∈ l → f x = true) → List.filter f l = l.
Proof.
  induction l as [|a l IH]; intros Hall; cbn; [done|].
  rewrite Hall by set_solver. f_equal. apply IH. intros; apply Hall. set_solver.
Qed.

Lemma removals_vacant_reachable (d : MatrixDisplay) :
  grid_reachable d → recent_removals d ## dom (cells d).
Proof.
  induction 1 as [cfg size h d h' Hi | v c a d _ IH | c a d _ IH
                 | d d' _ IH Hr].
  - apply MatrixDisplay_init_inv in Hi as (_ & _ & _ & _ & Hc & Ha & Hr).
    rewrite Hr. set_solver.
  - destruct (write_grid d v c a) as (Hc & Ha & Hr & _).
    rewrite Hc, Hr, dom_insert_L. set_solver.
  - destruct (cells d !! c) as [[o v]|] eqn:Hc.
    + destruct (decide (o = a)) as [->|Hne].
      * destruct (erase_owner d c a v Hc) as (Hc' & Hr & Ha & _).
        rewrite Hc', Hr, dom_delete_L. set_solver.
      * by rewrite (erase_foreign d c a o v Hc Hne).
    + by rewrite (erase_vacant d c a Hc).
  - apply refresh_inv in Hr as (s & -> & _ & _). cbn. set_solver.
Qed.

(** X4. In every grid state reached through [write], [erase] and
    [refresh] a pending removal is a vacant cell: a write to the cell would
    have cancelled the removal.  So the test [cell not in self.cells] of
    [refresh] never fails there, and [refresh] blanks every pending
    removal. *)
Theorem pending_removals_are_vacant (d : MatrixDisplay) :
  grid_reachable d →
  recent_removals d ## dom (cells d)
  ∧ vacant_removals d = elements (recent_removals d)
  ∧ ∃ d', refresh d = Ok d'
          ∧ calls (screen d')
            = calls (screen d)
              ++ screen_refresh
                 :: map blank_call (elements (recent_removals d))
                 ++ map (settle_call d) (elements (recent_additions d)).
Proof.
  intros Hr. pose proof (removals_vacant_reachable d Hr) as Hdis.
  assert (Hvac : vacant_removals d = elements (recent_removals d)).
  { unfold vacant_removals. apply filter_all.
    intros c Hc%elem_of_elements. rewrite bool_decide_eq_false_2; [done|].
    set_solver. }
  split_and!; [done..|].
  destruct (pending_ok_reachable d Hr) as [_ Hsub].
  eexists. split; [by apply refresh_exact|]. cbn. by rewrite Hvac.
Qed.

(** ** The advance of the position, whatever the direction *)

Lemma increment_position_total (xm ym : Z) (w : MatrixWorker) (h : Host)
  (y x : Z) :
  (0 ≤ xm)%Z → (0 ≤ ym)%Z → w_y w = Some y → w_x w = Some x →
  ∃ y' x' h',
    increment_position xm ym w h = Ok (set_w_pos y' x' w, h')
    ∧ (0 ≤ y' ≤ ym)%Z ∧ (0 ≤ x' ≤ xm)%Z
    ∧ (h' = h ∨ h' = (roll h).2)
    ∧ ((0 ≤ y + w_dy w ≤ ym)%Z → (0 ≤ x + w_dx w ≤ xm)%Z →
       y' = (y + w_dy w)%Z ∧ x' = (x + w_dx w)%Z ∧ h' = h).
Proof.
  intros Hxm Hym Hy Hx. unfold increment_position, py_mod, within.
  rewrite Hx, Hy.
  pose proof (Z.mod_pos_bound (x + w_dx w) (xm + 1)).
  pose proof (Z.mod_pos_bound (y + w_dy w) (ym + 1)).
  destruct (randint_ok 0 xm h) as [vx Hvx]; [done|].
  destruct (randint_ok 0 ym h) as [vy Hvy]; [done|].
  pose proof (randint_inv _ _ _ _ _ Hvx) as [? _].
  pose proof (randint_inv _ _ _ _ _ Hvy) as [? _].
  destruct (0 <=? y + w_dy w)%Z eqn:Hy0, (y + w_dy w <=? ym)%Z eqn:Hy1; cbn;
    [destruct (0 <=? x + w_dx w)%Z eqn:Hx0, (x + w_dx w <=? xm)%Z eqn:Hx1;
     cbn|..];
    try (rewrite decide_False by lia; cbn; rewrite ?Hvx, ?Hvy; cbn);
    do 3 eexists; (split; [reflexivity|]); split_and!; auto; lia.
Qed.

(** X5. With at least one usable row and column, [increment_position]
    returns for every direction vector and every position a worker has,
    inside the grid or not, and leaves the worker at a position of the
    grid; when the advanced position is inside the grid it is taken as it
    is and nothing is drawn.  A worker without a position makes it raise
    [TypeError]; a grid without a usable row, [ZeroDivisionError]. *)
Theorem increment_position_lands_inside (xm ym : Z) (w : MatrixWorker)
  (h : Host) :
  ((0 ≤ xm)%Z → (0 ≤ ym)%Z →
   ∀ y x, w_y w = Some y → w_x w = Some x →
     ∃ y' x' h',
       increment_position xm ym w h = Ok (set_w_pos y' x' w, h')
       ∧ (0 ≤ y' ≤ ym)%Z ∧ (0 ≤ x' ≤ xm)%Z
       ∧ (h' = h ∨ h' = (roll h).2)
       ∧ ((0 ≤ y + w_dy w ≤ ym)%Z → (0 ≤ x + w_dx w ≤ xm)%Z →
          y' = (y + w_dy w)%Z ∧ x' = (x + w_dx w)%Z ∧ h' = h))
  ∧ (w_x w = None ∨ w_y w = None →
     increment_position xm ym w h = Raise TypeError)
  ∧ (ym = (-1)%Z → is_Some (w_y w) → is_Some (w_x w) →
     increment_position xm ym w h = Raise ZeroDivisionError).
Proof.
  split_and!.
  - intros Hxm Hym y x Hy Hx. by apply increment_position_total.
  - unfold increment_position. intros [-> | Hy]; [done|].
    rewrite Hy. by destruct (w_x w).
  - intros -> [y Hy] [x Hx]. unfold increment_position, py_mod, within.
    rewrite Hx, Hy.
    replace ((0 <=? y + w_dy w)%Z && (y + w_dy w <=? -1)%Z) with false by lia.
    cbn. done.
Qed.

(** ** What a step of a worker touches *)

Lemma rolled_0 (h : Host) : rolled 0 h h.
Proof. unfold rolled. split_and!; try done; lia. Qed.

Lemma rolled_1 (h : Host) : rolled 1 h (roll h).2.
Proof. unfold rolled. cbn. split_and!; try done; lia. Qed.

Lemma rolled_trans (n m : nat) (h1 h2 h3 : Host) :
  rolled n h1 h2 → rolled m h2 h3 → rolled (n + m) h1 h3.
Proof. unfold rolled. intros ? ?. destruct_and!. split_and!; try congruence; lia. Qed.

Lemma increment_position_host (xm ym : Z) (w : MatrixWorker) (h : Host) w' h' :
  increment_position xm ym w h = Ok (w', h') → h' = h ∨ h' = (roll h).2.
Proof.
  unfold increment_position, py_mod.
  destruct (w_x w) as [x|]; [|done]. destruct (w_y w) as [y|]; [|done].
  destruct (negb (within _ ym)).
  - case_decide; [done|]. cbn.
    destruct (randint 0 xm h) as [[v h1]| |] eqn:Hr; cbn; [|done..].
    apply randint_inv in Hr as [_ ->]. intros [= <- <-]. by right.
  - destruct (negb (within _ xm)).
    + case_decide; [done|]. cbn.
      destruct (randint 0 ym h) as [[v h1]| |] eqn:Hr; cbn; [|done..].
      apply randint_inv in Hr as [_ ->]. intros [= <- <-]. by right.
    + intros [= <- <-]. by left.
Qed.

Lemma init_block_host (w : MatrixWorker) (d : MatrixDisplay) (h : Host) w' d' h' :
  init_block w d h = Ok (w', d', h') →
  (w_state w ≠ Init ∧ w' = w ∧ h' = h)
  ∨ (w_state w = Init ∧ w_state w' = Write ∧ w_cells w' = []
     ∧ w_id w' = w_id w ∧ w_dx w' = w_dx w ∧ w_dy w' = w_dy w
     ∧ is_Some (w_text w') ∧ is_Some (w_y w') ∧ is_Some (w_x w')
     ∧ rolled 3 h h').
Proof.
  unfold init_block. case_decide as Hst; [|intros [= <- <- <-]; by left].
  destruct (getmaxyx (screen d)) as [height width].
  destruct (random_choice _ _) as [[line h1]| |] eqn:Hl; cbn; [|done..].
  destruct (randint 0 (height - 2) h1) as [[y h2]| |] eqn:Hy; cbn; [|done..].
  destruct (randint 0 (width - 1) h2) as [[x h3]| |] eqn:Hx; cbn; [|done..].
  intros [= <- <- <-]. right. cbn. split_and!; try done.
  apply random_choice_inv in Hl as [_ ->].
  apply randint_inv in Hy as [_ ->]. apply randint_inv in Hx as [_ ->].
  apply (rolled_trans 2 1 _ (roll (roll h).2).2); [|apply rolled_1].
  apply (rolled_trans 1 1 _ (roll h).2); apply rolled_1.
Qed.

Lemma erase_oldest_frame (w : MatrixWorker) (d : MatrixDisplay) :
  same_frame d (erase_oldest w d).2.
Proof.
  unfold erase_oldest. destruct (w_cells w); cbn;
    [apply same_frame_refl|apply same_frame_erase].
Qed.

(** What a returning step leaves as it was, and how much of the host it
    uses. *)
Lemma worker_step_frame (w : MatrixWorker) (d : MatrixDisplay) (h : Host)
  w' d' h' :
  worker_step w d h = Ok (w', d', h') →
  same_frame d d'
  ∧ w_id w' = w_id w ∧ w_dx w' = w_dx w ∧ w_dy w' = w_dy w
  ∧ ∃ n, (n ≤ 4)%nat ∧ rolled n h h'
         ∧ (w_state w = Erase ∨ w_state w = Exit → n = 0%nat).
Proof.
  unfold worker_step.
  destruct (init_block w d h) as [[[w1 d1] h1]| |] eqn:H1; cbn; [|done..].
  destruct (write_block w1 d1 h1) as [[[w2 d2] h2]| |] eqn:H2; cbn; [|done..].
  destruct (erase_block w2 d2 h2) as [[[w3 d3] h3]| |] eqn:H3; cbn; [|done..].
  intros H4.
  pose proof (init_block_inv _ _ _ _ _ _ H1) as [-> _].
  assert (Hi : w_id w1 = w_id w ∧ w_dx w1 = w_dx w ∧ w_dy w1 = w_dy w
               ∧ ∃ n, (n ≤ 3)%nat ∧ rolled n h h1
                      ∧ (w_state w ≠ Init → n = 0%nat ∧ w_state w1 = w_state w)).
  { apply init_block_host in H1
      as [(? & -> & ->)|(? & _ & _ & ? & ? & ? & _ & _ & _ & ?)].
    - do 3 (split; [done|]). exists 0%nat. split_and!; [lia|apply rolled_0|done].
    - do 3 (split; [done|]). exists 3%nat. split_and!; [lia|done|done]. }
  assert (Hw : same_frame d d2
               ∧ w_id w2 = w_id w1 ∧ w_dx w2 = w_dx w1 ∧ w_dy w2 = w_dy w1
               ∧ ∃ n, (n ≤ 1)%nat ∧ rolled n h1 h2
                      ∧ (w_state w1 ≠ Write → n = 0%nat ∧ w_state w2 = w_state w1)).
  { apply write_block_inv in H2
      as [(? & -> & -> & ->)|[(? & _ & -> & -> & ->)|(? & Hrest)]].
    - split; [apply same_frame_refl|]. do 3 (split; [done|]).
      exists 0%nat. split_and!; [lia|apply rolled_0|done].
    - split; [apply same_frame_refl|]. do 3 (split; [done|]).
      exists 0%nat. split_and!; [lia|apply rolled_0|done].
    - destruct Hrest as (v & rest & y & x & wa & _ & _ & _ & Hinc & Hend).
      pose proof (increment_position_host _ _ _ _ _ _ Hinc) as Hh.
      apply increment_position_frame in Hinc as (y' & x' & ->).
      assert (Hn : ∃ n, (n ≤ 1)%nat ∧ rolled n h1 h2
                        ∧ (w_state w1 ≠ Write → n = 0%nat ∧ w_state w2 = w_state w1)).
      { destruct Hh as [-> | ->].
        - exists 0%nat. split_and!; [lia|apply rolled_0|done].
        - exists 1%nat. split_and!; [lia|apply rolled_1|done]. }
      destruct Hend as [(_ & -> & ->)|(_ & c & cs & _ & -> & ->)].
      + split; [apply same_frame_write|]. by do 3 (split; [done|]).
      + split; [eapply same_frame_trans;
                 [apply same_frame_write|apply same_frame_erase]|].
        by do 3 (split; [done|]). }
  assert (He : same_frame d2 d3 ∧ h3 = h2
               ∧ w_id w3 = w_id w2 ∧ w_dx w3 = w_dx w2 ∧ w_dy w3 = w_dy w2).
  { revert H3. unfold erase_block. case_decide; [|by intros [= <- <- <-];
      split_and!; try done; apply same_frame_refl].
    pose proof (erase_oldest_frame w2 d2) as Hf.
    pose proof (erase_oldest_worker w2 d2) as Hw2.
    destruct (erase_oldest w2 d2) as [wb db]. cbn in Hf, Hw2. subst wb.
    cbn. destruct (tail (w_cells w2)); by intros [= <- <- <-]. }
  assert (Hx : same_frame d3 d' ∧ h' = h3
               ∧ w_id w' = w_id w3 ∧ w_dx w' = w_dx w3 ∧ w_dy w' = w_dy w3).
  { revert H4. unfold exit_block. case_decide as Hst; [|by intros [= <- <- <-];
      split_and!; try done; apply same_frame_refl].
    pose proof (exit_step w3 d3 h3 Hst) as Hs. unfold worker_step in Hs.
    rewrite init_block_skip, bind_Ok in Hs by (rewrite Hst; done).
    rewrite write_block_skip, bind_Ok in Hs by (rewrite Hst; done).
    rewrite erase_block_skip, bind_Ok in Hs by (rewrite Hst; done).
    unfold exit_block in Hs. rewrite decide_True in Hs by done.
    rewrite Hs. intros [= <- <- <-]. split_and!; try done.
    apply exit_grid_frame. }
  destruct Hi as (? & ? & ? & n1 & Hn1 & Hr1 & Hs1).
  destruct Hw as (Hf2 & ? & ? & ? & n2 & Hn2 & Hr2 & Hs2).
  destruct He as (Hf3 & -> & ? & ? & ?).
  destruct Hx as (Hf4 & -> & ? & ? & ?).
  split_and!; try congruence; [eauto using same_frame_trans|].
  exists (n1 + n2)%nat. split_and!; [lia|by eapply rolled_trans|].
  intros Hst.
  destruct Hs1 as [-> Hst1]; [destruct Hst as [-> | ->]; done|].
  destruct Hs2 as [-> _]; [rewrite Hst1; destruct Hst as [-> | ->]; done|].
  done.
Qed.

(** X6. A step of a worker that returns has left the worker's identifier
    and direction, the configuration, the corpus, the list of workers, the
    size of the window and every due time and interval as they were; it
    has read neither the clock nor the keyboard, and has drawn at most
    four random numbers, none at all when the worker was in [Erase] or
    [Exit]. *)
Theorem worker_step_touches_little (w : MatrixWorker) (d : MatrixDisplay)
  (h : Host) w' d' h' :
  worker_step w d h = Ok (w', d', h') →
  (w_id w' = w_id w ∧ w_dx w' = w_dx w ∧ w_dy w' = w_dy w)
  ∧ (conf d' = conf d ∧ lines d' = lines d ∧ workers d' = workers d
     ∧ getmaxyx (screen d') = getmaxyx (screen d)
     ∧ worker_intervals d' = worker_intervals d
     ∧ next_worker_wake_time d' = next_worker_wake_time d
     ∧ refresh_interval d' = refresh_interval d
     ∧ next_refresh d' = next_refresh d)
  ∧ (clock h' = clock h ∧ clock_reads h' = clock_reads h
     ∧ keyboard h' = keyboard h ∧ key_polls h' = key_polls h
     ∧ dice h' = dice h)
  ∧ (dice_rolls h ≤ dice_rolls h' ≤ dice_rolls h + 4)%nat
  ∧ (w_state w = Erase ∨ w_state w = Exit → h' = h).
Proof.
  intros (Hf & ? & ? & ? & n & Hn & Hr & Hz)%worker_step_frame.
  destruct Hr as (? & ? & ? & ? & ? & ?).
  split_and!; try done; try apply Hf; try lia.
  intros Hst. specialize (Hz Hst). subst n.
  destruct h, h'. cbn in *. f_equal; try done. lia.
Qed.

(** ** A run that never raises *)

Lemma init_block_ok (w : MatrixWorker) (d : MatrixDisplay) (h : Host) :
  lines d ≠ [] →
  (2 ≤ (getmaxyx (screen d)).1)%Z → (1 ≤ (getmaxyx (screen d)).2)%Z →
  ∃ w' h', init_block w d h = Ok (w', d, h').
Proof.
  intros Hl Hh Hw. unfold init_block. case_decide; [|by eauto].
  destruct (getmaxyx (screen d)) as [height width]. cbn in Hh, Hw.
  destruct (lines d) as [|l0 ls]; [done|]. cbn [random_choice].
  cbn [mbind result_bind roll].
  destruct (randint_ok 0 (height - 2) (roll h).2) as [y Hy]; [lia|].
  destruct (randint_ok 0 (width - 1) (roll (roll h).2).2) as [x Hx]; [lia|].
  cbn [roll snd] in Hy, Hx. rewrite Hy. cbn [mbind result_bind].
  rewrite Hx. cbn. by eauto.
Qed.

Lemma erase_block_ok (w : MatrixWorker) (d : MatrixDisplay) (h : Host) :
  ∃ w' d', erase_block w d h = Ok (w', d', h).
Proof.
  unfold erase_block. case_decide; [|by eauto].
  destruct (erase_oldest w d) as [w1 d1]. destruct (w_cells w1); by eauto.
Qed.

Lemma exit_block_ok (w : MatrixWorker) (d : MatrixDisplay) (h : Host) :
  ∃ w' d', exit_block w d h = Ok (w', d', h).
Proof.
  unfold exit_block. case_decide; [|by eauto].
  destruct (erase_oldest w d) as [w1 d1].
  destruct (erase_oldest w1 d1) as [w2 d2].
  destruct (erase_newest w2 d2) as [w3 d3]. by eauto.
Qed.

Lemma write_block_ok ws d i w h :
  inv ws d → ws !! i = Some w →
  ∃ w' d' h', write_block w d h = Ok (w', d', h').
Proof.
  intros Hinv Hw. pose proof (inv_worker_ok ws d i w Hinv Hw) as Hok.
  unfold write_block. case_decide as Hst; [|by eauto].
  destruct (ok_write _ _ Hok Hst) as (y & x & t & Hy & Hx & Ht & [Hiy Hix]).
  rewrite Ht. destruct t as [|v rest]; [by eauto|].
  destruct (getmaxyx (screen d)) as [height width] eqn:Hsz.
  rewrite Hy, Hx. cbn in Hiy, Hix.
  destruct (increment_position_total (width - 1) (height - 2)
              (set_w_cells (w_cells w ++ [(y, x)]) (set_w_text rest w)) h y x)
    as (y' & x' & h' & Hinc & _); [lia|lia|done|done|].
  rewrite Hinc. cbn. destruct (_ <? _)%Z; [|by eauto].
  destruct (w_cells w ++ [(y, x)]) eqn:Happ; [|by eauto].
  by apply app_eq_nil in Happ as [_ ?].
Qed.

Lemma worker_step_ok ws d i w h :
  inv ws d → ws !! i = Some w → lines d ≠ [] →
  (2 ≤ (getmaxyx (screen d)).1)%Z → (1 ≤ (getmaxyx (screen d)).2)%Z →
  ∃ w' d' h', worker_step w d h = Ok (w', d', h').
Proof.
  intros Hinv Hw Hl Hh Hwd. unfold worker_step.
  destruct (init_block_ok w d h Hl Hh Hwd) as (w1 & h1 & H1).
  rewrite H1. cbn [mbind result_bind].
  apply (init_block_step_inv ws d i) in H1 as (Hinv1 & _ & _); [|done..].
  assert (Hw1 : <[i := w1]> ws !! i = Some w1)
    by (apply list_lookup_insert_eq; by eapply lookup_lt_Some).
  destruct (write_block_ok _ d i w1 h1 Hinv1 Hw1) as (w2 & d2 & h2 & H2).
  rewrite H2. cbn [mbind result_bind].
  destruct (erase_block_ok w2 d2 h2) as (w3 & d3 & H3).
  rewrite H3. cbn [mbind result_bind].
  destruct (exit_block_ok w3 d3 h2) as (w4 & d4 & H4). by eauto.
Qed.

Lemma runnable_step (d d' : MatrixDisplay) :
  runnable d → sys_step d d' → runnable d' ∧ conf d' = conf d.
Proof.
  intros (Hr & Hl & Hh & Hw) Hstep.
  pose proof (reachable_sys_inv d Hr) as Hinv.
  split; [|by apply sys_step_conf].
  split; [by eapply reach_step|].
  destruct Hstep as [d i w h w' d1 h' Hwi Hs|d d1 Href|d|d|d i due dt _ _];
    try done.
  - apply worker_step_frame in Hs as ((_ & Hl1 & _ & Hsz & _) & _).
    cbn. by rewrite Hl1, Hsz.
  - apply refresh_inv in Href as (s & -> & Hsz & _). cbn. by rewrite Hsz.
Qed.

Lemma wake_ok (i : nat) (d : MatrixDisplay) (h : Host) :
  runnable d → (i < WORKERS (conf d))%nat →
  ∃ d' h', wake i d h = Ok (d', h') ∧ runnable d' ∧ conf d' = conf d.
Proof.
  intros Hrun Hi. pose proof Hrun as (Hr & Hl & Hh & Hw).
  destruct (inv_lengths _ _ (reachable_sys_inv d Hr)) as (Hlw & Hli & Hlk).
  destruct (lookup_lt_is_Some_2 (workers d) i) as [w Hwi]; [lia|].
  destruct (lookup_lt_is_Some_2 (next_worker_wake_time d) i) as [due Hdue];
    [lia|].
  destruct (lookup_lt_is_Some_2 (worker_intervals d) i) as [dt Hdt]; [lia|].
  unfold wake. cbn [time_time]. rewrite Hdue.
  destruct (Qgtb _ _); [|by eauto].
  rewrite Hdt. cbn [workers set_next_worker_wake_time]. rewrite Hwi.
  set (d2 := set_next_worker_wake_time <[i := (due + dt)%Q]> d).
  destruct (runnable_step d d2 Hrun) as [Hrun2 Hc2]; [by apply sys_wake_due|].
  destruct Hrun2 as (Hr2 & Hl2 & Hh2 & Hw2).
  destruct (worker_step_ok (workers d2) d2 i w
              (mkHost (clock h) (S (clock_reads h)) (dice h) (dice_rolls h)
                      (keyboard h) (key_polls h)))
    as (w' & d' & h' & Hs); try done; [by apply reachable_sys_inv|].
  rewrite Hs. cbn. do 2 eexists. split; [done|].
  apply (runnable_step d2); [done|]. by eapply sys_worker.
Qed.

Lemma wake_each_ok (ids : list nat) (d : MatrixDisplay) (h : Host) :
  runnable d → (∀ i, i ∈ ids → (i < WORKERS (conf d))%nat) →
  ∃ d' h', wake_each ids d h = Ok (d', h') ∧ runnable d' ∧ conf d' = conf d.
Proof.
  revert d h. induction ids as [|i ids IH]; intros d h Hrun Hids;
    cbn [wake_each]; [by eauto|].
  destruct (wake_ok i d h Hrun) as (d1 & h1 & Hw & Hrun1 & Hc1); [set_solver|].
  rewrite Hw. cbn [mbind result_bind].
  destruct (IH d1 h1 Hrun1) as (d' & h' & He & Hrun' & Hc').
  { intros j Hj. rewrite Hc1. apply Hids. set_solver. }
  exists d', h'. split_and!; [done..|congruence].
Qed.

Lemma display_step_ok (d : MatrixDisplay) (h : Host) :
  runnable d →
  ∃ d' h', display_step d h = Ok (d', h') ∧ runnable d' ∧ conf d' = conf d.
Proof.
  intros Hrun. unfold display_step. cbn [time_time].
  assert (Hpre : ∃ d1, (if Qgtb (clock h (clock_reads h)) (next_refresh d)
                        then refresh (set_next_refresh
                                        (next_refresh d + refresh_interval d)%Q d)
                        else Ok d) = Ok d1
                       ∧ runnable d1 ∧ conf d1 = conf d).
  { destruct (Qgtb _ _); [|by eauto].
    destruct (runnable_step d (set_next_refresh
                                 (next_refresh d + refresh_interval d)%Q d) Hrun)
      as [Hrun1 Hc1]; [apply sys_refresh_due|].
    destruct (refresh_ok (set_next_refresh
                            (next_refresh d + refresh_interval d)%Q d))
      as [d1 Hd1].
    { destruct Hrun1 as (Hr1 & _). apply (reachable_sys_inv _ Hr1). }
    exists d1. split; [done|].
    destruct (runnable_step _ d1 Hrun1) as [? ?]; [by apply sys_refresh|].
    split; [done|congruence]. }
  destruct Hpre as (d1 & -> & Hrun1 & Hc1). cbn [mbind result_bind].
  destruct (wake_each_ok (seq 0 (WORKERS (conf d1))) d1
              (mkHost (clock h) (S (clock_reads h)) (dice h) (dice_rolls h)
                      (keyboard h) (key_polls h)) Hrun1)
    as (d' & h' & He & Hrun' & Hc').
  { intros i [_ ?]%elem_of_seq. lia. }
  exists d', h'. split_and!; [done..|congruence].
Qed.

Lemma drain_never_raises (fuel : nat) (d : MatrixDisplay) (h : Host) :
  runnable d →
  drain fuel d h = OutOfFuel
  ∨ ∃ d' h', drain fuel d h = Ok (d', h') ∧ runnable d'.
Proof.
  revert d h. induction fuel as [|fuel IH]; intros d h Hrun; cbn [drain].
  - destruct (busy d); [by left|right; by eauto].
  - destruct (busy d); [|right; by eauto].
    destruct (display_step_ok d h Hrun) as (d1 & h1 & -> & Hrun1 & _).
    cbn [mbind result_bind]. by apply IH.
Qed.

Lemma shutdown_never_raises (fuel : nat) (d : MatrixDisplay) (h : Host) :
  runnable d →
  shutdown fuel d h = OutOfFuel
  ∨ ∃ d' h', shutdown fuel d h = Ok (d', h') ∧ runnable d'.
Proof.
  intros Hrun. unfold shutdown.
  destruct (runnable_step d (broadcast_exit d) Hrun) as [Hrun0 _];
    [apply sys_exit|].
  destruct (drain_never_raises fuel (broadcast_exit d) h Hrun0)
    as [-> | (d1 & h1 & -> & Hrun1)]; [by left|].
  cbn [mbind result_bind]. right.
  destruct (refresh_ok d1) as [d2 Hd2].
  { destruct Hrun1 as (Hr1 & _). apply (reachable_sys_inv _ Hr1). }
  rewrite Hd2. cbn. do 2 eexists. split; [done|].
  by destruct (runnable_step d1 d2 Hrun1); [apply sys_refresh|].
Qed.

Lemma run_loop_never_raises (fuel : nat) (limit : Q) (d : MatrixDisplay)
  (h : Host) :
  runnable d →
  run_loop fuel limit d h = OutOfFuel
  ∨ ∃ d' h', run_loop fuel limit d h = Ok (d', h') ∧ runnable d'.
Proof.
  revert d h. induction fuel as [|fuel IH]; intros d h Hrun;
    cbn [run_loop time_time].
  - destruct (Qltb _ _); [by left|right; by eauto].
  - destruct (Qltb _ _); [|right; by eauto].
    destruct (display_step_ok d
                (mkHost (clock h) (S (clock_reads h)) (dice h) (dice_rolls h)
                        (keyboard h) (key_polls h)) Hrun)
      as (d1 & h1 & -> & Hrun1 & _).
    cbn [mbind result_bind key_pressed].
    destruct (keyboard h1 (key_polls h1)).
    + by apply shutdown_never_raises.
    + by apply IH.
Qed.

(** X7. From a display of a run that has a corpus and a window of at
    least two rows and one column, nothing raises: a round of the
    scheduler returns, with a display of which the same holds, and [run]
    either returns or is still looping when its budget of rounds ends. *)
Theorem run_never_raises (d : MatrixDisplay) :
  reachable d → lines d ≠ [] →
  (2 ≤ (getmaxyx (screen d)).1)%Z → (1 ≤ (getmaxyx (screen d)).2)%Z →
  (∀ h, ∃ d' h', display_step d h = Ok (d', h')
                 ∧ reachable d' ∧ lines d' = lines d
                 ∧ getmaxyx (screen d') = getmaxyx (screen d))
  ∧ (∀ fuel secs h e, run fuel secs d h ≠ Raise e).
Proof.
  intros Hr Hl Hh Hw.
  assert (Hrun : runnable d) by done.
  split.
  - intros h. destruct (display_step_ok d h Hrun) as (d' & h' & Hs & Hrun' & _).
    exists d', h'. split; [done|]. split; [apply Hrun'|].
    clear Hrun'. revert Hs. unfold display_step. cbn [time_time].
    assert (Hfr : ∀ ids d0 h0 d1 h1,
              reachable d0 → wake_each ids d0 h0 = Ok (d1, h1) →
              lines d1 = lines d0
              ∧ getmaxyx (screen d1) = getmaxyx (screen d0)).
    { induction ids as [|i ids IH]; intros d0 h0 d1 h1 Hr0; cbn [wake_each].
      - by intros [= <- <-].
      - destruct (wake i d0 h0) as [[d2 h2]| |] eqn:Hwk; cbn; [|done..].
        intros He. pose proof (wake_reachable _ _ _ _ _ Hr0 Hwk) as Hr2.
        destruct (IH _ _ _ _ Hr2 He) as [-> ->]. revert Hwk. unfold wake.
        cbn [time_time].
        destruct (next_worker_wake_time d0 !! i); [|done].
        destruct (Qgtb _ _); [|by intros [= <- <-]].
        destruct (worker_intervals d0 !! i); [|done].
        cbn [workers set_next_worker_wake_time].
        destruct (workers d0 !! i); [|done].
        destruct (worker_step _ _ _) as [[[w1 d3] h3]| |] eqn:Hs; cbn; [|done..].
        intros [= <- <-].
        apply worker_step_frame in Hs as ((_ & Hl1 & _ & Hsz & _) & _).
        cbn. by rewrite Hl1, Hsz. }
    destruct (Qgtb _ _).
    + destruct (refresh _) as [d1| |] eqn:Href; cbn; [|done..].
      intros He.
      assert (Hr1 : reachable d1).
      { eapply reach_step; [|by apply sys_refresh].
        eapply reach_step; [exact Hr|apply sys_refresh_due]. }
      destruct (Hfr _ _ _ _ _ Hr1 He) as [-> ->].
      apply refresh_inv in Href as (s & -> & Hsz & _). cbn. by rewrite Hsz.
    + cbn. intros He. by destruct (Hfr _ _ _ _ _ Hr He) as [-> ->].
  - intros fuel secs h e. unfold run. cbn [time_time].
    destruct (run_loop_never_raises fuel (clock h (clock_reads h) + secs)%Q d
                (mkHost (clock h) (S (clock_reads h)) (dice h) (dice_rolls h)
                        (keyboard h) (key_polls h)) Hrun)
      as [-> | (d' & h' & -> & _)]; done.
Qed.

Lemma randint_empty (a b : Z) (h : Host) :
  (b < a)%Z → randint a b h = Raise ValueError.
Proof. intros Hlt. unfold randint. by rewrite (proj2 (Z.ltb_lt b a) Hlt). Qed.

(** X8. On a window of fewer than two rows, or of no column, a worker
    cannot spawn: with a corpus to choose from, its step in [Init] raises
    the [ValueError] of [random.randint] on an empty range. *)
Theorem spawn_needs_room (w : MatrixWorker) (d : MatrixDisplay) (h : Host) :
  w_state w = Init → lines d ≠ [] →
  ((getmaxyx (screen d)).1 < 2)%Z ∨ ((getmaxyx (screen d)).2 < 1)%Z →
  worker_step w d h = Raise ValueError.
Proof.
  intros Hst Hl Hsmall. unfold worker_step, init_block.
  rewrite decide_True by done.
  destruct (getmaxyx (screen d)) as [height width]. cbn in Hsmall.
  destruct (lines d) as [|l0 ls]; [done|]. cbn [random_choice].
  cbn [mbind result_bind roll].
  destruct (decide (height < 2)%Z) as [Hlt|Hge].
  - by rewrite randint_empty by lia.
  - destruct (randint_ok 0 (height - 2)
                (mkHost (clock h) (clock_reads h) (dice h) (S (dice_rolls h))
                        (keyboard h) (key_polls h))) as [y Hy]; [lia|].
    rewrite Hy. cbn [mbind result_bind]. by rewrite randint_empty by lia.
Qed.

(** ** The states of a worker *)

Lemma write_block_state (w : MatrixWorker) (d : MatrixDisplay) (h : Host)
  w' d' h' :
  write_block w d h = Ok (w', d', h') →
  (w_state w ≠ Write ∧ w' = w)
  ∨ (w_state w = Write
     ∧ (w_state w' = Erase ∧ w_cells w' = w_cells w
        ∨ w_state w' = Write ∧ is_Some (w_text w')
          ∧ is_Some (w_y w') ∧ is_Some (w_x w'))).
Proof.
  intros [(? & -> & _)|[(? & _ & -> & _)|(? & Hrest)]]%write_block_inv.
  - by left.
  - right. split; [done|]. by left.
  - right. split; [done|]. right.
    destruct Hrest as (v & rest & y & x & wa & _ & _ & _ & Hinc & Hend).
    apply increment_position_frame in Hinc as (y' & x' & ->).
    destruct Hend as [(_ & -> & _)|(_ & c & cs & _ & -> & _)]; cbn;
      by split_and!.
Qed.

Lemma erase_block_state (w : MatrixWorker) (d : MatrixDisplay) (h : Host)
  w' d' h' :
  erase_block w d h = Ok (w', d', h') →
  (w_state w ≠ Erase ∧ w' = w)
  ∨ (w_state w = Erase ∧ w_cells w' = tail (w_cells w)
     ∧ (w_cells w' = [] ∧ w_state w' = Init
        ∨ w_cells w' ≠ [] ∧ w_state w' = Erase)).
Proof.
  unfold erase_block. case_decide as Hst; [|intros [= <- <- <-]; by left].
  pose proof (erase_oldest_worker w d) as Hw.
  destruct (erase_oldest w d) as [w1 d1]. cbn in Hw. subst w1. cbn.
  destruct (tail (w_cells w)) as [|c cs] eqn:Ht; intros [= <- <- <-]; right;
    cbn; split_and!; auto.
Qed.

Lemma exit_block_state (w : MatrixWorker) (d : MatrixDisplay) (h : Host)
  w' d' h' :
  exit_block w d h = Ok (w', d', h') →
  (w_state w ≠ Exit ∧ w' = w) ∨ (w_state w = Exit ∧ w_state w' = Exit).
Proof.
  unfold exit_block. case_decide as Hst; [|intros [= <- <- <-]; by left].
  pose proof (erase_oldest_worker w d) as Hw1.
  destruct (erase_oldest w d) as [w1 d1]. cbn in Hw1. subst w1.
  pose proof (erase_oldest_worker (set_w_cells (tail (w_cells w)) w) d1) as Hw2.
  destruct (erase_oldest _ d1) as [w2 d2]. cbn in Hw2. subst w2.
  pose proof (erase_newest_worker
                (set_w_cells (tail (tail (w_cells w)))
                             (set_w_cells (tail (w_cells w)) w)) d2) as Hw3.
  destruct (erase_newest _ d2) as [w3 d3]. cbn in Hw3. subst w3.
  intros [= <- <- <-]. by right.
Qed.

Lemma worker_step_ends (w : MatrixWorker) (d : MatrixDisplay) (h : Host)
  w' d' h' :
  worker_step w d h = Ok (w', d', h') →
  (w_state w' = Exit ↔ w_state w = Exit)
  ∧ (w_state w' = Init → w_cells w' = [])
  ∧ (w_state w' = Erase → w_cells w' ≠ [])
  ∧ (w_state w' = Write →
     is_Some (w_text w') ∧ is_Some (w_y w') ∧ is_Some (w_x w'))
  ∧ (w_state w = Init → w_state w' ≠ Erase)
  ∧ (w_state w = Erase → w_state w' ≠ Write).
Proof.
  unfold worker_step.
  destruct (init_block w d h) as [[[w1 d1] h1]| |] eqn:H1; cbn; [|done..].
  destruct (write_block w1 d1 h1) as [[[w2 d2] h2]| |] eqn:H2; cbn; [|done..].
  destruct (erase_block w2 d2 h2) as [[[w3 d3] h3]| |] eqn:H3; cbn; [|done..].
  intros H4.
  apply init_block_host in H1
    as [(Hs1 & -> & _)|(Hs1 & Hs1' & Hc1 & _ & _ & _ & Ht1 & Hy1 & Hx1 & _)];
  apply write_block_state in H2
    as [(Hs2 & ->)|(Hs2 & [(Hs2' & Hc2)|(Hs2' & Ht2 & Hy2 & Hx2)])];
  apply erase_block_state in H3
    as [(Hs3 & ->)|(Hs3 & Hc3 & [(Hc3' & Hs3')|(Hc3' & Hs3')])];
  apply exit_block_state in H4 as [(Hs4 & ->)|(Hs4 & Hs4')];
  try congruence;
  destruct (w_state w) eqn:Hw; try congruence;
  repeat split; intros; try congruence;
  rewrite ?Hc2, ?Hc1 in *; cbn in *; congruence.
Qed.

(** X9. Where a step of a worker can end.  A worker is in [Exit] after
    the step exactly when it was before: no step enters or leaves [Exit].
    A step that ends in [Init] has left the list of cells empty, one that
    ends in [Erase] has left a cell to erase, and one that ends in [Write]
    has left the worker with a queue and a position.  A step begun in
    [Init] never ends in [Erase], and one begun in [Erase] never ends in
    [Write]. *)
Theorem where_a_step_ends (w : MatrixWorker) (d : MatrixDisplay) (h : Host)
  w' d' h' :
  worker_step w d h = Ok (w', d', h') →
  (w_state w' = Exit ↔ w_state w = Exit)
  ∧ (w_state w' = Init → w_cells w' = [])
  ∧ (w_state w' = Erase → w_cells w' ≠ [])
  ∧ (w_state w' = Write →
     is_Some (w_text w') ∧ is_Some (w_y w') ∧ is_Some (w_x w'))
  ∧ (w_state w = Init → w_state w' ≠ Erase)
  ∧ (w_state w = Erase → w_state w' ≠ Write).
Proof. apply worker_step_ends. Qed.

(** ** Who holds the cells *)

(** X10. In every display of a run, an occupied cell is held by a worker
    of the pool: its owner is below [WORKERS], is the identifier of the
    worker at that index, and that worker, which is not in [Init], still
    lists the cell; the cell lies in the rows and columns the workers
    use. *)
Theorem occupied_cells_are_listed (d : MatrixDisplay) :
  reachable d →
  ∀ c owner value, cells d !! c = Some (owner, value) →
    (owner < WORKERS (conf d))%nat
    ∧ ∃ w, workers d !! owner = Some w ∧ w_id w = owner
           ∧ c ∈ w_cells w ∧ w_state w ≠ Init
           ∧ (0 ≤ c.1 ≤ (getmaxyx (screen d)).1 - 2)%Z
           ∧ (0 ≤ c.2 ≤ (getmaxyx (screen d)).2 - 1)%Z.
Proof.
  intros Hr c o v Hc. pose proof (reachable_sys_inv d Hr) as Hinv.
  destruct (inv_owned _ _ Hinv c o v Hc) as (w & Hw & Hin).
  destruct (inv_lengths _ _ Hinv) as (Hlen & _).
  pose proof (lookup_lt_Some _ _ _ Hw) as Hlt.
  pose proof (inv_workers _ _ Hinv w (list_elem_of_lookup_2 _ _ _ Hw))
    as [_ Hinit Hcs].
  split; [lia|]. exists w. split_and!; try done.
  - by eapply inv_ids.
  - intros Hst. rewrite (Hinit Hst) in Hin. by apply elem_of_nil in Hin.
  - by apply (Hcs c Hin).
  - by apply (Hcs c Hin).
  - by apply (Hcs c Hin).
  - by apply (Hcs c Hin).
Qed.

Lemma size_list_to_set_le (l : list cell) :
  (size (list_to_set l : gset cell) ≤ length l)%nat.
Proof.
  induction l as [|c l IH]; cbn; [by rewrite size_empty|].
  rewrite size_union_alt, size_singleton.
  assert (size ((list_to_set l : gset cell) ∖ {[c]})
          ≤ size (list_to_set l : gset cell))%nat
    by (apply subseteq_size; set_solver).
  lia.
Qed.

Lemma size_listed (ws : list MatrixWorker) (M : nat) :
  (∀ w, w ∈ ws → (length (w_cells w) ≤ M)%nat) →
  (size (listed ws) ≤ length ws * M)%nat.
Proof.
  unfold listed. induction ws as [|w ws IH]; intros Hlen; cbn.
  - by rewrite size_empty.
  - rewrite size_union_alt.
    pose proof (size_list_to_set_le (w_cells w)).
    assert (length (w_cells w) ≤ M)%nat by (apply Hlen; set_solver).
    assert (size (⋃ map (λ w0, list_to_set (w_cells w0)) ws
                  ∖ (list_to_set (w_cells w) : gset cell))
            ≤ size (⋃ map (λ w0, list_to_set (w_cells w0) : gset cell) ws))%nat
      by (apply subseteq_size; set_solver).
    assert (size (⋃ map (λ w0, list_to_set (w_cells w0) : gset cell) ws)
            ≤ length ws * M)%nat by (apply IH; intros; apply Hlen; set_solver).
    lia.
Qed.

(** X11. In every display of a run with a non-negative [MAX_LEN], the
    number of occupied cells is at most [WORKERS * MAX_LEN]: every occupied
    cell is listed by its owner, and no list is longer than [MAX_LEN]. *)
Theorem occupancy_is_bounded (d : MatrixDisplay) :
  reachable d → (0 ≤ MAX_LEN (conf d))%Z →
  (size (cells d) ≤ WORKERS (conf d) * Z.to_nat (MAX_LEN (conf d)))%nat.
Proof.
  intros Hr HM. pose proof (reachable_sys_inv d Hr) as Hinv.
  pose proof (reachable_short d Hr HM) as Hsh.
  destruct (inv_lengths _ _ Hinv) as (<- & _).
  rewrite <- size_dom.
  transitivity (size (listed (workers d))).
  - apply subseteq_size. intros c [[o v] Hc]%elem_of_dom.
    destruct (inv_owned _ _ Hinv c o v Hc) as (w & Hw & Hin).
    unfold listed. apply elem_of_union_list.
    exists (list_to_set (w_cells w)). split; [|set_solver].
    apply list_elem_of_fmap. exists w. split; [done|].
    by eapply list_elem_of_lookup_2.
  - apply size_listed. intros w Hw. specialize (Hsh w Hw). lia.
Qed.

(** ** The due times *)

Lemma wake_schedule (i : nat) (d : MatrixDisplay) (h : Host) d' h' :
  wake i d h = Ok (d', h') →
  ∃ due,
    next_worker_wake_time d !! i = Some due
    ∧ clock h' = clock h ∧ clock_reads h' = S (clock_reads h)
    ∧ keyboard h' = keyboard h ∧ key_polls h' = key_polls h
    ∧ conf d' = conf d ∧ worker_intervals d' = worker_intervals d
    ∧ next_refresh d' = next_refresh d
    ∧ refresh_interval d' = refresh_interval d
    ∧ (if Qgtb (clock h (clock_reads h)) due
       then ∃ dt, worker_intervals d !! i = Some dt
                  ∧ next_worker_wake_time d'
                    = <[i := (due + dt)%Q]> (next_worker_wake_time d)
       else next_worker_wake_time d' = next_worker_wake_time d).
Proof.
  unfold wake. cbn [time_time].
  destruct (next_worker_wake_time d !! i) as [due|]; [|done].
  destruct (Qgtb _ _) eqn:Hq.
  - destruct (worker_intervals d !! i) as [dt|]; [|done].
    cbn [workers set_next_worker_wake_time].
    destruct (workers d !! i) as [w|]; [|done].
    destruct (worker_step _ _ _) as [[[w1 d1] h1]| |] eqn:Hs; cbn; [|done..].
    intros [= <- <-].
    apply worker_step_frame in Hs
      as ((Hc & _ & _ & _ & Hi & Hk & Hri & Hnr) & _ & _ & _ & n & _ & Hr & _).
    destruct Hr as (? & ? & _ & _ & ? & ?). cbn in *.
    exists due. rewrite Hq. split_and!; try done. by exists dt.
  - intros [= <- <-]. exists due. rewrite Hq. by split_and!.
Qed.

Lemma wake_each_schedule (ids : list nat) (d : MatrixDisplay) (h : Host) d' h' :
  NoDup ids →
  wake_each ids d h = Ok (d', h') →
  clock h' = clock h ∧ clock_reads h' = (clock_reads h + length ids)%nat
  ∧ keyboard h' = keyboard h ∧ key_polls h' = key_polls h
  ∧ conf d' = conf d ∧ worker_intervals d' = worker_intervals d
  ∧ next_refresh d' = next_refresh d
  ∧ refresh_interval d' = refresh_interval d
  ∧ (∀ j, j ∉ ids → next_worker_wake_time d' !! j = next_worker_wake_time d !! j)
  ∧ (∀ k i due, ids !! k = Some i → next_worker_wake_time d !! i = Some due →
       if Qgtb (clock h (clock_reads h + k)%nat) due
       then ∃ dt, worker_intervals d !! i = Some dt
                  ∧ next_worker_wake_time d' !! i = Some (due + dt)%Q
       else next_worker_wake_time d' !! i = Some due).
Proof.
  revert d h. induction ids as [|i ids IH]; intros d h Hnd; cbn [wake_each].
  - intros [= <- <-]. split_and!; try done; cbn; lia.
  - apply NoDup_cons in Hnd as [Hi Hnd].
    destruct (wake i d h) as [[d1 h1]| |] eqn:Hw; cbn; [|done..].
    intros He.
    apply wake_schedule in Hw
      as (due0 & Hdue0 & Hclk & Hreads & Hkb & Hkp & Hc & Hint & Hnr & Hri & Hk).
    destruct (IH d1 h1 Hnd He)
      as (Hclk' & Hreads' & Hkb' & Hkp' & Hc' & Hint' & Hnr' & Hri' & Hout & Hin).
    assert (Hother : ∀ j, j ≠ i →
              next_worker_wake_time d1 !! j = next_worker_wake_time d !! j).
    { intros j Hj. destruct (Qgtb _ _).
      - destruct Hk as (dt & _ & ->). by rewrite list_lookup_insert_ne.
      - by rewrite Hk. }
    split_and!; try congruence.
    + rewrite Hreads', Hreads. cbn. lia.
    + intros j Hj. rewrite Hout by set_solver. apply Hother. set_solver.
    + intros k i' due Hk' Hdue. destruct k as [|k]; cbn in Hk'.
      * injection Hk' as <-. rewrite Nat.add_0_r.
        assert (due = due0) as -> by congruence.
        rewrite Hout by done.
        destruct (Qgtb _ _).
        -- destruct Hk as (dt & Hdt & ->). exists dt. split; [done|].
           apply list_lookup_insert_eq. by eapply lookup_lt_Some.
        -- by rewrite Hk.
      * assert (i' ≠ i).
        { intros ->. apply Hi. by eapply list_elem_of_lookup_2. }
        specialize (Hin k i' due Hk'). rewrite Hother in Hin by done.
        specialize (Hin Hdue). rewrite Hclk, Hreads, Hint in Hin.
        by replace (clock_reads h + S k)%nat with (S (clock_reads h) + k)%nat
          by lia.
Qed.

(** X12. What a round of the scheduler does to the time.  It reads the
    clock once for the refresh and once for every worker, in the order of
    their identifiers, and never polls the keyboard.  The due time of the
    refresh, and of each worker, is left as it was when the reading made
    for it is not beyond it, and otherwise advanced by exactly its own
    interval, never set from the clock; the intervals do not change. *)
Theorem round_keeps_time (d : MatrixDisplay) (h : Host) d' h' :
  display_step d h = Ok (d', h') →
  clock h' = clock h
  ∧ clock_reads h' = (clock_reads h + 1 + WORKERS (conf d))%nat
  ∧ key_polls h' = key_polls h
  ∧ refresh_interval d' = refresh_interval d
  ∧ worker_intervals d' = worker_intervals d
  ∧ next_refresh d'
    = (if Qgtb (clock h (clock_reads h)) (next_refresh d)
       then (next_refresh d + refresh_interval d)%Q else next_refresh d)
  ∧ ∀ i due, (i < WORKERS (conf d))%nat →
      next_worker_wake_time d !! i = Some due →
      if Qgtb (clock h (clock_reads h + 1 + i)%nat) due
      then ∃ dt, worker_intervals d !! i = Some dt
                 ∧ next_worker_wake_time d' !! i = Some (due + dt)%Q
      else next_worker_wake_time d' !! i = Some due.
Proof.
  unfold display_step. cbn [time_time].
  set (h0 := mkHost (clock h) (S (clock_reads h)) (dice h) (dice_rolls h)
                    (keyboard h) (key_polls h)).
  intros Hs.
  assert (Hpre : ∃ d1,
            (if Qgtb (clock h (clock_reads h)) (next_refresh d)
             then refresh (set_next_refresh
                             (next_refresh d + refresh_interval d)%Q d)
             else Ok d) = Ok d1
            ∧ wake_each (seq 0 (WORKERS (conf d1))) d1 h0 = Ok (d', h')
            ∧ conf d1 = conf d
            ∧ worker_intervals d1 = worker_intervals d
            ∧ next_worker_wake_time d1 = next_worker_wake_time d
            ∧ refresh_interval d1 = refresh_interval d
            ∧ next_refresh d1
              = (if Qgtb (clock h (clock_reads h)) (next_refresh d)
                 then (next_refresh d + refresh_interval d)%Q
                 else next_refresh d)).
  { destruct (Qgtb _ _).
    - destruct (refresh _) as [d1| |] eqn:Href; cbn in Hs; [|done..].
      exists d1. split; [done|]. split; [done|].
      by apply refresh_inv in Href as (s & -> & _ & _).
    - cbn in Hs. exists d. by split_and!. }
  destruct Hpre as (d1 & _ & He & Hc1 & Hi1 & Hk1 & Hr1 & Hn1).
  apply wake_each_schedule in He
    as (Hclk & Hreads & _ & Hkp & Hc & Hint & Hnr & Hri & _ & Hin);
    [|apply NoDup_seq].
  rewrite length_seq, Hc1 in Hreads. cbn in Hclk, Hreads, Hkp.
  split_and!; try congruence; [lia|].
  intros i due Hi Hdue.
  specialize (Hin i i due). rewrite Hc1, Hk1, Hi1 in Hin.
  rewrite lookup_seq in Hin. specialize (Hin (conj eq_refl Hi) Hdue).
  cbn in Hin.
  by replace (clock_reads h + 1 + i)%nat with (S (clock_reads h + i))%nat by lia.
Qed.

(** ** The corpus *)

Section Stripping.
Context (isspace : char → bool).

Lemma lstrip_split (s : str) :
  ∃ a, s = a ++ lstrip isspace s ∧ forallb isspace a = true
       ∧ ∀ c, head (lstrip isspace s) = Some c → isspace c = false.
Proof.
  induction s as [|c s (a & Hs & Ha & Hh)]; cbn.
  - exists []. by split_and!.
  - destruct (isspace c) eqn:Hc.
    + exists (c :: a). cbn. rewrite Hc, Ha. split_and!; [by f_equal|done..].
    + exists []. split_and!; [done..|]. cbn. by intros ? [= <-].
Qed.

Lemma rstrip_split (s : str) :
  ∃ b, s = rstrip isspace s ++ b ∧ forallb isspace b = true
       ∧ ∀ c, last (rstrip isspace s) = Some c → isspace c = false.
Proof.
  unfold rstrip. destruct (lstrip_split (reverse s)) as (a & Hs & Ha & Hh).
  exists (reverse a). split_and!.
  - rewrite <- reverse_app, <- Hs. by rewrite reverse_involutive.
  - rewrite forallb_forall in Ha. apply forallb_forall.
    intros c Hc. apply Ha. apply list_elem_of_In. apply elem_of_reverse.
    by apply list_elem_of_In.
  - intros c. rewrite last_reverse. apply Hh.
Qed.

Lemma head_app_prefix (a b : str) (c : char) :
  head (a ++ b) = Some c → a ≠ [] → head a = Some c.
Proof. by destruct a. Qed.

(** What [strip] returns: the string without a run of whitespace at
    either end, and with no whitespace left at its ends. *)
Lemma strip_split (s : str) :
  ∃ a b, s = a ++ strip isspace s ++ b
         ∧ forallb isspace a = true ∧ forallb isspace b = true
         ∧ stripped isspace (strip isspace s).
Proof.
  unfold strip.
  destruct (lstrip_split s) as (a & Hs & Ha & Hh).
  destruct (rstrip_split (lstrip isspace s)) as (b & Hl & Hb & Ht).
  exists a, b. split_and!; [by rewrite <- Hl|done..|].
  split; [|done].
  intros c Hc. destruct (rstrip isspace (lstrip isspace s)) as [|c0 r] eqn:Hr;
    [done|].
  cbn in Hc. injection Hc as ->. apply Hh. by rewrite Hl.
Qed.

Lemma lstrip_id (s : str) :
  (∀ c, head s = Some c → isspace c = false) → lstrip isspace s = s.
Proof. destruct s as [|c s]; [done|]. intros Hh. cbn. by rewrite Hh. Qed.

Lemma strip_stripped (s : str) :
  stripped isspace s → strip isspace s = s.
Proof.
  intros [Hh Ht]. unfold strip, rstrip. rewrite (lstrip_id s Hh).
  rewrite lstrip_id; [by rewrite reverse_involutive|].
  intros c. rewrite head_reverse. apply Ht.
Qed.

Lemma add_file_lines (filename : str) (file_lines : list str)
  (d : MatrixDisplay) (l : str) :
  l ∈ lines (add_file isspace filename file_lines d) →
  l ∈ lines d
  ∨ filename ≠ [] ∧ l ≠ []
    ∧ ∃ raw, raw ∈ file_lines ∧ l = strip isspace raw.
Proof.
  unfold add_file. destruct filename as [|f fs]; [by left|].
  cbn. intros [?|Hin]%elem_of_app; [by left|]. right.
  apply list_elem_of_In, filter_In in Hin as [Hin Hlen].
  apply in_map_iff in Hin as (raw & <- & Hraw).
  split_and!; [done| |].
  - intros Hnil. rewrite Hnil in Hlen. done.
  - exists raw. split; [by apply list_elem_of_In|done].
Qed.

Lemma loaded_lines (d : MatrixDisplay) (l : str) :
  loaded isspace d → l ∈ lines d →
  l ≠ [] ∧ stripped isspace l.
Proof.
  induction 1 as [cfg size h d h' Hi|f fl d _ IH]; intros Hl.
  - apply MatrixDisplay_init_inv in Hi as (_ & _ & Hlines & _).
    rewrite Hlines in Hl. by apply elem_of_nil in Hl.
  - apply add_file_lines in Hl as [?|(_ & Hne & raw & _ & ->)]; [by apply IH|].
    split; [done|]. destruct (strip_split raw) as (a & b & _ & _ & _ & Hs).
    done.
Qed.

Lemma loaded_reachable (d : MatrixDisplay) : loaded isspace d → reachable d.
Proof.
  induction 1 as [cfg size h d h' Hi|f fl d _ IH].
  - by eapply reach_fresh.
  - unfold add_file. destruct f; [done|]. by apply reach_add_file.
Qed.
End Stripping.

Lemma lstrip_blank (isspace : char → bool) (s : str) :
  forallb isspace s = true → lstrip isspace s = [].
Proof.
  induction s as [|c s IH]; cbn; [done|].
  intros [-> ?]%andb_true_iff. by apply IH.
Qed.

Lemma strip_blank (isspace : char → bool) (s : str) :
  forallb isspace s = true → strip isspace s = [].
Proof. intros Hs. unfold strip. by rewrite lstrip_blank. Qed.

(** X13. [add_file] with an empty file name changes nothing.  Otherwise it
    appends to the corpus, in order, the lines of the file stripped of
    the whitespace at their two ends, leaving out those that are empty
    once stripped (the lines of whitespace only among them); the lines
    that were in the corpus stay in front, and nothing else of the display
    changes.  Every appended line is non-empty and has no whitespace at
    either end. *)
Theorem add_file_appends_stripped_lines (isspace : char → bool)
  (filename : str) (file_lines : list str) (d : MatrixDisplay) :
  let d' := add_file isspace filename file_lines d in
  (filename = [] → d' = d)
  ∧ (filename ≠ [] →
     ∃ new,
       lines d' = lines d ++ new
       ∧ new = List.filter (λ line, negb (length line =? 0)%nat)
                           (map (strip isspace) file_lines)
       ∧ (∀ l, l ∈ new ↔
               l ≠ [] ∧ ∃ raw, raw ∈ file_lines ∧ l = strip isspace raw)
       ∧ (∀ l, l ∈ new →
               stripped isspace l
               ∧ ∃ raw a b, raw ∈ file_lines ∧ raw = a ++ l ++ b
                            ∧ forallb isspace a = true
                            ∧ forallb isspace b = true)
       ∧ (∀ raw, raw ∈ file_lines → forallb isspace raw = true →
                 strip isspace raw ∉ new))
  ∧ (cells d' = cells d ∧ workers d' = workers d ∧ conf d' = conf d
     ∧ screen d' = screen d
     ∧ recent_additions d' = recent_additions d
     ∧ recent_removals d' = recent_removals d).
Proof.
  cbv zeta. split_and!.
  - by intros ->.
  - intros Hf. destruct filename as [|f fs]; [done|]. cbn.
    eexists. split; [done|]. split; [done|].
    assert (Hiff : ∀ l,
              l ∈ List.filter (λ line, negb (length line =? 0)%nat)
                              (map (strip isspace) file_lines)
              ↔ l ≠ [] ∧ ∃ raw, raw ∈ file_lines ∧ l = strip isspace raw).
    { intros l. rewrite list_elem_of_In, filter_In, in_map_iff. split.
      - intros [(raw & <- & Hraw) Hlen]. split.
        + intros Hnil. by rewrite Hnil in Hlen.
        + exists raw. by rewrite list_elem_of_In.
      - intros [Hne (raw & Hraw & ->)]. split.
        + exists raw. by rewrite <- list_elem_of_In.
        + by destruct (strip isspace raw). }
    split_and!; [done| |].
    + intros l [Hne (raw & Hraw & ->)]%Hiff.
      destruct (strip_split isspace raw) as (a & b & Hs & Ha & Hb & Hst).
      split; [done|]. by exists raw, a, b.
    + intros raw Hraw Hblank [Hne _]%Hiff. by rewrite strip_blank in Hne.
  - by destruct filename.
  - by destruct filename.
  - by destruct filename.
  - by destruct filename.
  - by destruct filename.
  - by destruct filename.
Qed.

(** X14. A display built by [__init__] and filled by any number of
    [add_file] calls is a display of a run with an empty grid, and its
    corpus holds no empty line and no line with whitespace at an end:
    [random.choice] never hands a worker an empty string.  (The queue of
    glyphs can still come out empty, when no character of the line is
    kept.) *)
Theorem loaded_corpus_has_no_empty_line (isspace : char → bool)
  (d : MatrixDisplay) :
  loaded isspace d →
  reachable d
  ∧ cells d = ∅
  ∧ (∀ l, l ∈ lines d → l ≠ [] ∧ stripped isspace l ∧ strip isspace l = l)
  ∧ (∀ h line h', random_choice (lines d) h = Ok (line, h') → line ≠ []).
Proof.
  intros Hl. split_and!.
  - by eapply loaded_reachable.
  - induction Hl as [cfg size h d h' Hi|f fl d _ IH].
    + by apply MatrixDisplay_init_inv in Hi as (_ & _ & _ & _ & ? & _).
    + by destruct f.
  - intros l Hin. destruct (loaded_lines isspace d l Hl Hin) as [? ?].
    split_and!; [done..|]. by apply strip_stripped.
  - intros h line h' [Hin _]%random_choice_inv.
    by destruct (loaded_lines isspace d line Hl Hin).
Qed.

(** ** The choice of files *)

Lemma take_until_app (sep : char) (a b : str) :
  sep ∉ a → take_until sep (a ++ sep :: b) = a.
Proof.
  induction a as [|c a IH]; intros Hn; cbn.
  - by rewrite N.eqb_refl.
  - destruct (N.eqb_spec c sep) as [->|Hne]; [set_solver|].
    f_equal. apply IH. set_solver.
Qed.

Lemma take_until_split (sep : char) (s : str) :
  sep ∈ s → ∃ b, s = take_until sep s ++ sep :: b.
Proof.
  induction s as [|c s IH]; intros Hin; [set_solver|]. cbn.
  destruct (N.eqb_spec c sep) as [->|Hne]; [by exists s|].
  destruct IH as [b Hb]; [set_solver|]. exists b. cbn. by f_equal.
Qed.

(** X15. The bootstrap takes a file exactly when its name ends in a dot
    followed by [py], [txt], [cmd] or [md], in lower case: only the part
    after the last dot counts, a name without a dot is never taken, and
    the name [.py] is. *)
Theorem eligible_names (text_file : str) :
  eligible text_file = true
  ↔ ∃ stem ext, text_file = stem ++ 46%N :: ext ∧ ext ∈ extensions.
Proof.
  unfold eligible. rewrite andb_true_iff, !bool_decide_eq_true. split.
  - intros [Hdot Hext].
    apply elem_of_reverse in Hdot.
    destruct (take_until_split 46%N (reverse text_file) Hdot) as [b Hb].
    exists (reverse b), (after_last 46%N text_file). split; [|done].
    unfold after_last. apply (f_equal reverse) in Hb.
    rewrite reverse_involutive in Hb. rewrite Hb at 1.
    rewrite reverse_app, reverse_cons. by rewrite <- app_assoc.
  - intros (stem & ext & -> & Hext). split; [set_solver|].
    assert (Hnodot : 46%N ∉ ext).
    { unfold extensions in Hext. set_unfold. 
      destruct Hext as [->|[->|[->|[->|[]]]]]; set_unfold; naive_solver. }
    unfold after_last. rewrite reverse_app, reverse_cons, <- app_assoc. cbn.
    rewrite take_until_app; [by rewrite reverse_involutive|].
    by rewrite elem_of_reverse.
Qed.

(** ** A run without a key press *)

Lemma wake_none_exit (i : nat) (d : MatrixDisplay) (h : Host) d' h' :
  none_exit d → wake i d h = Ok (d', h') →
  none_exit d' ∧ keyboard h' = keyboard h ∧ key_polls h' = key_polls h
  ∧ clock h' = clock h.
Proof.
  intros Hne Hw.
  destruct (wake_schedule _ _ _ _ _ Hw) as (_ & _ & ? & _ & ? & ? & _).
  split; [|done]. revert Hw. unfold wake. cbn [time_time].
  destruct (next_worker_wake_time d !! i) as [due|]; [|done].
  destruct (Qgtb _ _); [|by intros [= <- <-]].
  destruct (worker_intervals d !! i) as [dt|]; [|done].
  cbn [workers set_next_worker_wake_time].
  destruct (workers d !! i) as [w|] eqn:Hwi; [|done].
  destruct (worker_step _ _ _) as [[[w1 d1] h1]| |] eqn:Hs; cbn; [|done..].
  intros [= <- <-].
  pose proof (worker_step_ends _ _ _ _ _ _ Hs) as (Hex & _).
  apply worker_step_frame in Hs as ((_ & _ & Hws & _) & _).
  cbn in Hws. intros w' [j Hj]%list_elem_of_lookup_1. cbn in Hj.
  rewrite Hws in Hj.
  apply list_lookup_insert_Some in Hj as [(_ & <- & _)|[_ Hj]].
  - rewrite Hex. apply Hne. by eapply list_elem_of_lookup_2.
  - apply Hne. by eapply list_elem_of_lookup_2.
Qed.

Lemma wake_each_none_exit (ids : list nat) (d : MatrixDisplay) (h : Host) d' h' :
  none_exit d → wake_each ids d h = Ok (d', h') →
  none_exit d' ∧ keyboard h' = keyboard h ∧ key_polls h' = key_polls h
  ∧ clock h' = clock h.
Proof.
  revert d h. induction ids as [|i ids IH]; intros d h Hne; cbn [wake_each].
  - by intros [= <- <-].
  - destruct (wake i d h) as [[d1 h1]| |] eqn:Hw; cbn; [|done..].
    intros He. apply wake_none_exit in Hw as (Hne1 & ? & ? & ?); [|done].
    destruct (IH _ _ Hne1 He) as (? & ? & ? & ?). split_and!; [done|congruence..].
Qed.

Lemma display_step_none_exit (d : MatrixDisplay) (h : Host) d' h' :
  none_exit d → display_step d h = Ok (d', h') →
  none_exit d' ∧ keyboard h' = keyboard h ∧ key_polls h' = key_polls h
  ∧ clock h' = clock h.
Proof.
  intros Hne. unfold display_step. cbn [time_time].
  destruct (Qgtb _ _).
  - destruct (refresh _) as [d1| |] eqn:Href; cbn; [|done..].
    intros He. apply wake_each_none_exit in He; [done|].
    by apply refresh_inv in Href as (s & -> & _ & _).
  - cbn. intros He. by apply wake_each_none_exit in He.
Qed.

Lemma run_loop_without_key (fuel : nat) (limit : Q) (d : MatrixDisplay)
  (h : Host) d' h' :
  none_exit d → (∀ n, keyboard h n = false) →
  run_loop fuel limit d h = Ok (d', h') →
  none_exit d' ∧ clock h' = clock h
  ∧ (0 < clock_reads h')%nat
  ∧ Qltb (clock h (pred (clock_reads h'))) limit = false.
Proof.
  revert d h. induction fuel as [|fuel IH]; intros d h Hne Hkey;
    cbn [run_loop time_time].
  - destruct (Qltb _ _) eqn:Hq; [done|]. intros [= <- <-]. cbn.
    split_and!; [done|done|lia|done].
  - destruct (Qltb _ _) eqn:Hq; [|intros [= <- <-]; cbn;
                                   split_and!; [done|done|lia|done]].
    destruct (display_step d _) as [[d1 h1]| |] eqn:Hs; cbn; [|done..].
    apply display_step_none_exit in Hs as (Hne1 & Hkb & _ & Hclk); [|done].
    cbn in Hkb, Hclk. rewrite Hkb, Hkey.
    intros Hrun. apply IH in Hrun as (? & Hclk' & ? & Hlim); [|done|].
    + cbn in Hclk'. rewrite Hclk in Hclk'. rewrite Hclk in Hlim.
      by split_and!.
    + cbn. intros n. apply Hkey.
Qed.

(** X16. While no key is pressed, no worker is ever put in [Exit], and
    [run] returns only through its time limit: the last reading of the
    clock it made was not below the limit, which is the first reading plus
    [time_seconds]. *)
Theorem run_without_a_key (fuel : nat) (secs : Q) (d : MatrixDisplay)
  (h : Host) d' h' :
  (∀ w, w ∈ workers d → w_state w ≠ Exit) →
  (∀ n, keyboard h n = false) →
  run fuel secs d h = Ok (d', h') →
  (∀ w, w ∈ workers d' → w_state w ≠ Exit)
  ∧ (0 < clock_reads h')%nat
  ∧ Qltb (clock h (pred (clock_reads h')))
         (clock h (clock_reads h) + secs)%Q = false.
Proof.
  intros Hne Hkey. unfold run. cbn [time_time]. intros Hrun.
  apply run_loop_without_key in Hrun as (? & _ & ? & ?); done.
Qed.

(** ** The constructor *)

Lemma draw_intervals_ok (n : nat) (lo hi : Z) (h : Host) :
  (lo ≤ hi)%Z → (0 < lo ∨ hi < 0)%Z →
  ∃ dts h', draw_intervals n lo hi h = Ok (dts, h')
    ∧ length dts = n ∧ rolled n h h'
    ∧ ∀ dt, dt ∈ dts → ∃ cps, (lo ≤ cps ≤ hi)%Z ∧ dt = (1 / inject_Z cps)%Q.
Proof.
  intros Hle Hnz. revert h.
  induction n as [|n IH]; intros h; cbn [draw_intervals].
  - exists [], h. split_and!; [done|done|apply rolled_0|set_solver].
  - destruct (randint_ok lo hi h Hle) as [v Hv].
    pose proof (randint_inv _ _ _ _ _ Hv) as [Hb _]. rewrite Hv.
    cbn [mbind result_bind].
    unfold one_over. rewrite decide_False by lia. cbn [mbind result_bind].
    destruct (IH (roll h).2) as (dts & h' & -> & Hlen & Hr & Hall).
    cbn [mbind result_bind].
    exists ((1 / inject_Z v)%Q :: dts), h'.
    split_and!; [done|cbn; lia| |].
    + change (S n) with (1 + n)%nat.
      eapply rolled_trans; [apply rolled_1|done].
    + intros dt [->|Hin]%elem_of_cons; [by exists v|by apply Hall].
Qed.

Lemma draw_intervals_ValueError (n : nat) (lo hi : Z) (h : Host) :
  (0 < n)%nat → (hi < lo)%Z → draw_intervals n lo hi h = Raise ValueError.
Proof.
  intros Hn Hlt. destruct n as [|n]; [lia|]. cbn [draw_intervals].
  unfold randint. apply Z.ltb_lt in Hlt. by rewrite Hlt.
Qed.

Lemma random_random_range (h : Host) :
  (0 <= (random_random h).1)%Q ∧ ((random_random h).1 < 1)%Q.
Proof.
  unfold random_random, roll. cbn [fst]. unfold Qle, Qlt. cbn [Qnum Qden].
  set (x := dice h (dice_rolls h)).
  assert (Hx : (x mod 2 ^ 53 < 2 ^ 53)%N) by (by apply N.mod_upper_bound).
  assert (E : Z.pos (2 ^ 53) = Z.of_N (2 ^ 53)%N) by reflexivity.
  rewrite E. clearbody x. clear E.
  set (m := (2 ^ 53)%N) in *. clearbody m.
  set (a := (x mod m)%N) in *. clearbody a. lia.
Qed.

Lemma first_wake_times_spec (dts : list Q) (wu : Q) (h : Host) :
  ∃ ts h', first_wake_times dts wu h = (ts, h')
    ∧ length ts = length dts
    ∧ clock h' = clock h
    ∧ clock_reads h' = (clock_reads h + length dts)%nat
    ∧ dice h' = dice h
    ∧ dice_rolls h' = (dice_rolls h + length dts)%nat
    ∧ keyboard h' = keyboard h ∧ key_polls h' = key_polls h
    ∧ ∀ i dt, dts !! i = Some dt →
        ∃ r, (0 <= r)%Q ∧ (r < 1)%Q
          ∧ ts !! i = Some (dt + clock h (clock_reads h + i)%nat + wu * r)%Q.
Proof.
  revert h. induction dts as [|dt dts IH]; intros h; cbn [first_wake_times].
  - exists [], h. cbn. split_and!; try done; lia.
  - cbn [time_time].
    pose proof (random_random_range
                  (mkHost (clock h) (S (clock_reads h)) (dice h) (dice_rolls h)
                          (keyboard h) (key_polls h))) as Hr.
    destruct (random_random _) as [r h1] eqn:Hrr.
    assert (Hh1 : h1 = mkHost (clock h) (S (clock_reads h)) (dice h)
                              (S (dice_rolls h)) (keyboard h) (key_polls h)).
    { by injection Hrr as _ <-. }
    destruct (IH h1) as (ts & h' & -> & Hlen & Hc & Hcr & Hd & Hdr & Hk & Hkp
                         & Hall).
    subst h1. cbn in *.
    eexists _, h'. split; [done|].
    split_and!; try done; cbn; try lia.
    intros [|i] dt' Hi; cbn in Hi.
    + injection Hi as <-. exists r. split_and!; [apply Hr..|].
      cbn. by rewrite Nat.add_0_r.
    + destruct (Hall i dt' Hi) as (r' & ? & ? & Hts). exists r'.
      split_and!; [done..|].
      replace (clock_reads h + S i)%nat with (S (clock_reads h + i)) by lia.
      exact Hts.
Qed.

(** X17. What [__init__] gives.  With [FPS_MAX] zero it raises
    [ZeroDivisionError] before anything is drawn; with a worker to make
    and [MAX_CHAR_PER_SECOND] below [MIN_CHAR_PER_SECOND], the [ValueError]
    of [random.randint].  With a range of rates that is not empty and does
    not hold zero it returns: the grid is empty and nothing is drawn on
    the window, there are [WORKERS] workers, intervals and due times, every
    interval is one over a rate of the range, the refresh is due one
    interval after the first reading of the clock, and worker [i] is due at
    its interval after the reading made for it, plus a share in [0, 1) of
    the warm-up.  The clock has been read once and once per worker, and
    two numbers have been drawn per worker. *)
Theorem init_outcomes (cfg : Config) (size : Z * Z) (h : Host) :
  (FPS_MAX cfg = 0%Z →
   MatrixDisplay_init cfg size h = Raise ZeroDivisionError)
  ∧ (FPS_MAX cfg ≠ 0%Z → (0 < WORKERS cfg)%nat →
     (MAX_CHAR_PER_SECOND cfg < MIN_CHAR_PER_SECOND cfg)%Z →
     MatrixDisplay_init cfg size h = Raise ValueError)
  ∧ (FPS_MAX cfg ≠ 0%Z →
     (MIN_CHAR_PER_SECOND cfg ≤ MAX_CHAR_PER_SECOND cfg)%Z →
     (0 < MIN_CHAR_PER_SECOND cfg ∨ MAX_CHAR_PER_SECOND cfg < 0)%Z →
     ∃ d h',
       MatrixDisplay_init cfg size h = Ok (d, h')
       ∧ (cells d = ∅ ∧ calls (screen d) = [] ∧ lines d = [])
       ∧ (length (workers d) = WORKERS cfg
          ∧ length (worker_intervals d) = WORKERS cfg
          ∧ length (next_worker_wake_time d) = WORKERS cfg)
       ∧ refresh_interval d = (1 / inject_Z (FPS_MAX cfg))%Q
       ∧ next_refresh d
         = (clock h (clock_reads h) + 1 / inject_Z (FPS_MAX cfg))%Q
       ∧ (∀ i dt, worker_intervals d !! i = Some dt →
            (∃ cps, (MIN_CHAR_PER_SECOND cfg ≤ cps ≤ MAX_CHAR_PER_SECOND cfg)%Z
                    ∧ dt = (1 / inject_Z cps)%Q)
            ∧ ∃ r, (0 <= r)%Q ∧ (r < 1)%Q
                ∧ next_worker_wake_time d !! i
                  = Some (dt + clock h (clock_reads h + 1 + i)%nat
                          + WARM_UP_DURATION cfg * r)%Q)
       ∧ clock_reads h' = (clock_reads h + 1 + WORKERS cfg)%nat
       ∧ dice_rolls h' = (dice_rolls h + 2 * WORKERS cfg)%nat
       ∧ key_polls h' = key_polls h).
Proof.
  split_and!.
  - intros H0. unfold MatrixDisplay_init, one_over. by rewrite decide_True.
  - intros H0 Hn Hlt. unfold MatrixDisplay_init, one_over.
    rewrite decide_False by done. cbn.
    by rewrite draw_intervals_ValueError.
  - intros H0 Hle Hnz. unfold MatrixDisplay_init, one_over.
    rewrite decide_False by done. cbn.
    destruct (draw_intervals_ok (WORKERS cfg) _ _ h Hle Hnz)
      as (dts & h1 & -> & Hlen & (Hc & Hcr & Hd & Hdr & Hk & Hkp) & Hall).
    cbn [mbind result_bind time_time].
    destruct (first_wake_times_spec dts (WARM_UP_DURATION cfg)
                (mkHost (clock h1) (S (clock_reads h1)) (dice h1)
                        (dice_rolls h1) (keyboard h1) (key_polls h1)))
      as (ts & h2 & -> & Hlts & Hc2 & Hcr2 & Hd2 & Hdr2 & Hk2 & Hkp2 & Hts).
    cbn in *. eexists _, h2. split; [done|]. cbn.
    split_and!; try done; try lia; try congruence.
    + by rewrite length_map, length_seq.
    + intros i dt Hi. split; [apply Hall; by eapply list_elem_of_lookup_2|].
      destruct (Hts i dt Hi) as (r & ? & ? & Hw). exists r.
      split_and!; [done..|]. rewrite Hw, Hc, Hcr.
      by replace (clock_reads h + 1 + i)%nat with (S (clock_reads h + i)) by lia.
Qed.

(** ** Worked examples of the further properties *)

Lemma late_erase_spares_the_new_owner_witness :
  0%nat ≠ 1%nat
  ∧ erase (0, 0)%Z 0 (write 65%N (0, 0)%Z 1 demo_display)
    = write 65%N (0, 0)%Z 1 demo_display.
Proof.
  assert (Hne : 0%nat ≠ 1%nat) by lia.
  split; [done|].
  apply (late_erase_spares_the_new_owner demo_display (0, 0)%Z 0 1 65%N Hne).
Defined.

Lemma refresh_flushes_or_KeyError_witness :
  (∃ d', refresh taken_display = Ok d'
         ∧ cells d' = cells taken_display
         ∧ recent_additions d' = ∅ ∧ recent_removals d' = ∅)
  ∧ refresh stale_display = Raise KeyError.
Proof.
  split.
  - destruct (proj1 (refresh_flushes_or_KeyError taken_display))
      as (d' & ? & ? & ? & ? & _).
    + vm_compute. set_solver.
    + by exists d'.
  - apply (proj2 (refresh_flushes_or_KeyError stale_display) (0, 0)%Z).
    + vm_compute. set_solver.
    + reflexivity.
Defined.

Lemma pending_removals_are_vacant_witness :
  grid_reachable (erase (0, 0)%Z 1 taken_display)
  ∧ (0, 0)%Z ∈ recent_removals (erase (0, 0)%Z 1 taken_display)
  ∧ recent_removals (erase (0, 0)%Z 1 taken_display)
    ## dom (cells (erase (0, 0)%Z 1 taken_display)).
Proof.
  assert (Hr : grid_reachable (erase (0, 0)%Z 1 taken_display)).
  { apply grid_erase, grid_write. eapply grid_fresh. apply demo_display_init. }
  split_and!; [done|vm_compute; set_solver|].
  apply (pending_removals_are_vacant _ Hr).
Defined.

Lemma increment_position_lands_inside_witness :
  ∃ y' x' h',
    increment_position 9 3 scenario_worker demo_host
    = Ok (set_w_pos y' x' scenario_worker, h')
    ∧ (0 ≤ y' ≤ 3)%Z ∧ (0 ≤ x' ≤ 9)%Z.
Proof.
  destruct (proj1 (increment_position_lands_inside 9 3 scenario_worker
                     demo_host)) with (y := 0%Z) (x := 3%Z)
    as (y' & x' & h' & ? & ? & ? & _); [lia|lia|reflexivity|reflexivity|].
  by exists y', x', h'.
Defined.

Lemma worker_step_touches_little_witness :
  worker_step scenario_worker demo_display demo_host
  = Ok (mkWorker 0 (Some [66%N]) (Some 3%Z) (Some 1%Z) 0 1 [(0, 3)%Z] Write,
        write 65%N (0, 3)%Z 0 demo_display, demo_host)
  ∧ workers (write 65%N (0, 3)%Z 0 demo_display) = workers demo_display
  ∧ (dice_rolls demo_host ≤ dice_rolls demo_host ≤ dice_rolls demo_host + 4)%nat.
Proof.
  assert (Hs : worker_step scenario_worker demo_display demo_host
               = Ok (mkWorker 0 (Some [66%N]) (Some 3%Z) (Some 1%Z) 0 1
                              [(0, 3)%Z] Write,
                     write 65%N (0, 3)%Z 0 demo_display, demo_host))
    by reflexivity.
  split; [done|].
  destruct (worker_step_touches_little _ _ _ _ _ _ Hs)
    as (_ & (_ & _ & ? & _) & _ & ? & _).
  by split.
Defined.

Lemma run_never_raises_witness :
  (∀ h, ∃ d' h', display_step spaced_display h = Ok (d', h')
                 ∧ reachable d' ∧ lines d' = lines spaced_display
                 ∧ getmaxyx (screen d') = getmaxyx (screen spaced_display))
  ∧ (∀ fuel secs h e, run fuel secs spaced_display h ≠ Raise e).
Proof.
  apply (run_never_raises spaced_display spaced_display_reachable).
  - vm_compute. discriminate.
  - vm_compute. discriminate.
  - vm_compute. discriminate.
Defined.

Lemma spawn_needs_room_witness :
  worker_step (MatrixWorker_init 0 (0, 1)%Z) flat_display demo_host
  = Raise ValueError.
Proof.
  apply (spawn_needs_room (MatrixWorker_init 0 (0, 1)%Z) flat_display
           demo_host).
  - reflexivity.
  - vm_compute. discriminate.
  - left. vm_compute. reflexivity.
Defined.

Lemma where_a_step_ends_witness :
  ∃ w' d' h',
    worker_step (MatrixWorker_init 0 (0, 1)%Z) spaced_display demo_host
    = Ok (w', d', h')
    ∧ w_state w' = Write
    ∧ is_Some (w_text w') ∧ is_Some (w_y w') ∧ is_Some (w_x w').
Proof.
  destruct (worker_step (MatrixWorker_init 0 (0, 1)%Z) spaced_display
              demo_host) as [[[w' d'] h']| |] eqn:Hs;
    [|vm_compute in Hs; discriminate..].
  exists w', d', h'.
  assert (Hw : w_state w' = Write).
  { vm_compute in Hs. by injection Hs as <- _ _. }
  split_and!; [done|done|..];
    apply (where_a_step_ends _ _ _ _ _ _ Hs); exact Hw.
Defined.

Lemma occupied_cells_are_listed_witness :
  cells demo_running !! (0, 0)%Z = Some (1%nat, 65%N)
  ∧ ∃ w, workers demo_running !! 1%nat = Some w ∧ w_id w = 1%nat
         ∧ (0, 0)%Z ∈ w_cells w ∧ w_state w ≠ Init.
Proof.
  assert (Hc : cells demo_running !! (0, 0)%Z = Some (1%nat, 65%N))
    by (vm_compute; reflexivity).
  split; [exact Hc|].
  destruct (occupied_cells_are_listed demo_running demo_running_reachable
              _ _ _ Hc) as (_ & w & ? & ? & ? & ? & _).
  exists w. split_and!; assumption.
Defined.

Lemma occupancy_is_bounded_witness :
  (0 ≤ MAX_LEN (conf demo_running))%Z
  ∧ (size (cells demo_running)
     ≤ WORKERS (conf demo_running) * Z.to_nat (MAX_LEN (conf demo_running)))%nat.
Proof.
  assert (HM : (0 ≤ MAX_LEN (conf demo_running))%Z) by (vm_compute; discriminate).
  split; [done|].
  apply (occupancy_is_bounded demo_running demo_running_reachable HM).
Defined.

Lemma round_keeps_time_witness :
  display_step spaced_display late_host
  = Ok (demo_running,
        mkHost (clock late_host) 3 (dice late_host) 6 (keyboard late_host) 0)
  ∧ next_refresh demo_running
    = (if Qgtb (clock late_host (clock_reads late_host))
               (next_refresh spaced_display)
       then (next_refresh spaced_display + refresh_interval spaced_display)%Q
       else next_refresh spaced_display).
Proof.
  assert (Hs : display_step spaced_display late_host
               = Ok (demo_running,
                     mkHost (clock late_host) 3 (dice late_host) 6
                            (keyboard late_host) 0))
    by (vm_compute; reflexivity).
  split; [done|].
  apply (round_keeps_time _ _ _ _ Hs).
Defined.

Lemma add_file_appends_stripped_lines_witness :
  lines loaded_display = lines demo_display ++ [[65%N; 32%N; 66%N]].
Proof.
  destruct (add_file_appends_stripped_lines ascii_isspace [102%N] demo_file
              demo_display) as (_ & Hnew & _).
  destruct Hnew as (new & Hl & Hn & _); [discriminate|].
  unfold loaded_display. rewrite Hl, Hn. reflexivity.
Defined.

Lemma loaded_corpus_has_no_empty_line_witness :
  loaded ascii_isspace loaded_display
  ∧ reachable loaded_display
  ∧ ∀ l, l ∈ lines loaded_display → l ≠ [].
Proof.
  assert (Hl : loaded ascii_isspace loaded_display).
  { apply loaded_add_file. eapply loaded_fresh. apply demo_display_init. }
  split; [done|].
  destruct (loaded_corpus_has_no_empty_line ascii_isspace loaded_display Hl)
    as (? & _ & Hall & _).
  split; [done|]. intros l Hin. by destruct (Hall l Hin).
Defined.

Lemma run_without_a_key_witness :
  ∃ d' h',
    run 5 50 spaced_display waking_host = Ok (d', h')
    ∧ (∀ w, w ∈ workers d' → w_state w ≠ Exit)
    ∧ (0 < clock_reads h')%nat.
Proof.
  assert (Hws : workers spaced_display
                = [MatrixWorker_init 0 (0, 1)%Z; MatrixWorker_init 1 (0, 1)%Z])
    by (vm_compute; reflexivity).
  assert (H1 : ∀ w, w ∈ workers spaced_display → w_state w ≠ Exit).
  { intros w Hw. rewrite Hws in Hw.
    apply elem_of_cons in Hw as [Hw|Hw]; [subst w; cbn; discriminate|].
    apply elem_of_cons in Hw as [Hw|Hw]; [subst w; cbn; discriminate|].
    by apply elem_of_nil in Hw. }
  assert (H2 : ∀ n, keyboard waking_host n = false) by (intros n; reflexivity).
  clear Hws.
  assert (Hrun : ∃ d' h', run 5 50 spaced_display waking_host = Ok (d', h')).
  { vm_compute. eexists _, _. reflexivity. }
  destruct Hrun as (d' & h' & Hrun).
  exists d', h'. split; [exact Hrun|].
  destruct (run_without_a_key 5 50 spaced_display waking_host d' h' H1 H2 Hrun)
    as (Ha & Hb & _).
  split; assumption.
Defined.

Lemma init_outcomes_witness :
  ∃ d h',
    MatrixDisplay_init demo_config demo_size demo_host = Ok (d, h')
    ∧ length (workers d) = WORKERS demo_config
    ∧ clock_reads h' = (clock_reads demo_host + 1 + WORKERS demo_config)%nat
    ∧ dice_rolls h' = (dice_rolls demo_host + 2 * WORKERS demo_config)%nat.
Proof.
  destruct (init_outcomes demo_config demo_size demo_host) as (_ & _ & Hok).
  destruct Hok as (d & h' & ? & _ & (? & _) & _ & _ & _ & ? & ? & _).
  - vm_compute. discriminate.
  - vm_compute. discriminate.
  - left. reflexivity.
  - by exists d, h'.
Defined.
